(** * tedopa.tmps: time evolution of a tensor-network state by Trotter slices

    A shallow embedding of [src/tedopa/tmps.py] together with the properties
    its specification states about it, further properties of the module
    that its code shows, and the generators of reference coefficients of
    [src/tests/test_recursion_coefficients_of_classical_polynomials.py].

    Conventions of the embedding.
    - A Python int is an integer and a Python float is a binary64 value, held
      as the rational number it denotes; a list cell remembers which of the
      two it holds ([pynum]).  The float operations on the times and on the
      Trotter error ([_times_to_steps], the loop of [_time_evolution]) and
      the division of the Legendre generator round the exact result to the
      nearest double, ties to even ([round64]).  Infinities and NaN are not
      values of the embedding: an operation of Python that would return an
      infinity raises [Unmodelled] here.  The increments of [_trotter_four]
      are not rounded, and the overlaps returned by [compress], numbers of
      the collaborators, are multiplied exactly.
    - numpy / scipy / mpnum are collaborators of the module: their values and
      operations are the fields of the class [Substrate].
    - Python names are references.  MPArray objects and the caller's list of
      times live in a store ([World]); [state.compress(..)], [times.sort()]
      and [times[:] = ..] update the store in place, every other substrate
      operation allocates a fresh object.  A raised exception keeps the store
      as it was when the exception was raised. *)

From Stdlib Require Import ZArith QArith Qround Qabs Qpower Lia Lqa String List DecimalString Sorted Permutation.
From Stdlib Require Floats Uint63.
From stdpp Require Import base list.

Local Open Scope string_scope.
Local Open Scope list_scope.
Local Open Scope nat_scope.
Local Open Scope stdpp_scope.

(** ** Python numbers *)

Inductive pynum : Type :=
| PInt (z : Z)
| PFloat (q : Q).

Definition num_val (x : pynum) : Q :=
  match x with
  | PInt z => inject_Z z
  | PFloat q => q
  end.

(** [a == b] on numbers *)
Definition num_eqb (a b : pynum) : bool := Qeq_bool (num_val a) (num_val b).

(** [a <= b] on numbers *)
Definition num_leb (a b : pynum) : bool := Qle_bool (num_val a) (num_val b).

(** Python 3 [round(x)] with one argument: nearest integer, ties to even. *)
Definition py_round (x : Q) : Z :=
  let f := Qfloor x in
  match (x - inject_Z f ?= 1 # 2)%Q with
  | Lt => f
  | Gt => (f + 1)%Z
  | Eq => if Z.even f then f else (f + 1)%Z
  end.

(** ** binary64

    A double is [m * 2^e] with [|m| < 2^53] and [e >= -1074].  [round64 x] is
    the double nearest to the rational [x], ties to the even significand, for
    an unbounded upper exponent; results of magnitude [2^1024] and more are
    the overflows, which the operations below turn into exceptions. *)

Definition pow2 (e : Z) : Q := (2 ^ e)%Q.

(** [floor (log2 x)] for [x > 0]. *)
Definition ilog2 (x : Q) : Z :=
  let e0 := (Z.log2 (Qnum x) - Z.log2 (Z.pos (Qden x)))%Z in
  if Qle_bool (pow2 e0) x then e0 else (e0 - 1)%Z.

(** The exponent of the smallest normal double. *)
Definition emin : Z := (-1022)%Z.

(** The exponent of the last place of the doubles around [x > 0]; below
    [2^emin] the doubles are the multiples of [2^-1074]. *)
Definition qexp (x : Q) : Z := (Z.max (ilog2 x) emin - 52)%Z.

Definition round_pos (x : Q) : Q :=
  (inject_Z (py_round (x / pow2 (qexp x))) * pow2 (qexp x))%Q.

Definition round64 (x : Q) : Q :=
  Qred (match (x ?= 0)%Q with
        | Eq => 0
        | Gt => round_pos x
        | Lt => - round_pos (- x)
        end)%Q.

(** Whether the rounded result is too large for a double. *)
Definition overflows (x : Q) : bool := Qle_bool (pow2 1024) (Qabs (round64 x)).

(** [list.sort()] is stable; insertion from the right keeps equal keys in
    their original order. *)
Fixpoint sort_insert (x : pynum) (l : list pynum) : list pynum :=
  match l with
  | [] => [x]
  | y :: l' => if num_leb x y then x :: y :: l' else y :: sort_insert x l'
  end.

Fixpoint py_sort (l : list pynum) : list pynum :=
  match l with
  | [] => []
  | x :: l' => sort_insert x (py_sort l')
  end.

(** [str(n)] for an int *)
Definition py_str (n : Z) : string := NilZero.string_of_int (Z.to_int n).

(** ** Exceptions and fallible values *)

Inductive exn : Type :=
| ValueError (msg : string)
| IndexError
| ZeroDivisionError
| TypeError
| UnboundLocalError
| OverflowError
| Unmodelled. (* the program left the part of Python this development covers *)

Inductive result (X : Type) : Type :=
| Ok (x : X)
| Raise (e : exn).
Arguments Ok {X} x.
Arguments Raise {X} e.

#[global] Instance result_ret : MRet result := fun _ x => Ok x.
#[global] Instance result_bind : MBind result := fun _ _ f m =>
  match m with
  | Ok x => f x
  | Raise e => Raise e
  end.

Fixpoint mapR {X Y : Type} (f : X -> result Y) (l : list X) : result (list Y) :=
  match l with
  | [] => Ok []
  | x :: l' => y ← f x; ys ← mapR f l'; Ok (y :: ys)
  end.

(** [l[i]] for [i >= 0] *)
Definition py_index {X : Type} (l : list X) (i : nat) : result X :=
  match l !! i with
  | Some x => Ok x
  | None => Raise IndexError
  end.

(** [l[-1]] *)
Definition py_last {X : Type} (l : list X) : result X :=
  match last l with
  | Some x => Ok x
  | None => Raise IndexError
  end.

(** The double for the exact result [x] of a float operation; [e] is what
    happens when it overflows. *)
Definition fl_or (e : exn) (x : Q) : result Q :=
  if overflows x then Raise e else Ok (round64 x).

(** The result of [+], [*] and [/] on floats: Python returns an infinity on
    overflow. *)
Definition fl (x : Q) : result Q := fl_or Unmodelled x.

(** The conversion of an operand to a float: an int is rounded to the
    nearest double, and is an OverflowError when it is too large. *)
Definition to_float (x : pynum) : result Q :=
  match x with
  | PInt z => fl_or OverflowError (inject_Z z)
  | PFloat q => Ok q
  end.

(** [a / b], true division: the quotient of two ints is rounded once; with
    a float operand both operands are floats first. *)
Definition py_truediv (a b : pynum) : result Q :=
  match a, b with
  | PInt x, PInt y =>
      if (y =? 0)%Z then Raise ZeroDivisionError
      else fl_or OverflowError (inject_Z x / inject_Z y)
  | _, _ =>
      x ← to_float a; y ← to_float b;
      if Qeq_bool y 0 then Raise ZeroDivisionError else fl (x / y)
  end.

(** [a * b] with a float operand *)
Definition py_mul (a b : pynum) : result Q :=
  x ← to_float a; y ← to_float b; fl (x * y).

(** [a + b] on floats *)
Definition py_add (a b : Q) : result Q := fl (a + b).

(** [x ** 3] on a float: the C library's [pow], taken to return the double
    nearest to the exact cube; an overflow is an OverflowError. *)
Definition py_pow3 (x : Q) : result Q := fl_or OverflowError (x ^ 3).

(** [l[::2]] *)
Fixpoint stride2 {X : Type} (l : list X) : list X :=
  match l with
  | x :: _ :: l' => x :: stride2 l'
  | _ => l
  end.

(** [enumerate(l)] *)
Definition enumerate {X : Type} (l : list X) : list (nat * X) :=
  zip (seq 0 (length l)) l.

Example py_round_ties :
  map py_round [1 # 2; 3 # 2; 5 # 2; -(1 # 2); 7 # 4]%Q = [0; 2; 2; 0; 2]%Z.
Proof. reflexivity. Qed.

Example py_sort_stable :
  py_sort [PFloat 2; PInt 1; PFloat 1; PInt 0] = [PInt 0; PInt 1; PFloat 1; PFloat 2].
Proof. reflexivity. Qed.

Example py_str_3 : py_str 3 = "3".
Proof. reflexivity. Qed.

(** ** The collaborators: numpy, scipy and mpnum *)

(** A Python complex number with rational parts. *)
Definition complex : Type := (Q * Q)%type.

(** [c * x] and [c / x] for a complex [c] and a float [x] *)
Definition c_mul (c : complex) (x : Q) : complex := (fst c * x, snd c * x)%Q.
Definition c_div (c : complex) (x : Q) : complex := (fst c / x, snd c / x)%Q.

(** [-1j] *)
Definition minus_j : complex := (0, -(1))%Q.

Class Substrate : Type := {
  ndarray : Type;   (* numpy.ndarray *)
  MPArray : Type;   (* what an mpnum.MPArray object holds *)
  scalar : Type;    (* what mp.trace and mp.norm return *)
  Compr : Type;     (* keyword arguments of MPArray.compress *)
  (* numpy and scipy.linalg *)
  np_len : ndarray -> nat;                      (* len(a) *)
  np_identity : nat -> ndarray;                 (* np.identity(n) *)
  np_kron : ndarray -> ndarray -> ndarray;      (* np.kron(a, b) *)
  np_add : ndarray -> ndarray -> ndarray;       (* a + b *)
  np_scale : complex -> ndarray -> ndarray;     (* c * a *)
  np_reshape : ndarray -> list nat -> ndarray;  (* a.reshape(shape) *)
  expm : ndarray -> ndarray;                    (* scipy.linalg.expm(a) *)
  (* mpnum *)
  mpa_len : MPArray -> nat;                           (* len(a): number of sites *)
  mpa_dot : MPArray -> MPArray -> MPArray;            (* mp.dot(a, b) *)
  mpa_chain : list MPArray -> MPArray;                (* mp.chain(..) *)
  mpa_eye : nat -> nat -> MPArray;                    (* mp.eye(sites, ldim) *)
  mpa_from_array_global : ndarray -> nat -> MPArray;  (* MPArray.from_array_global(a, ndims) *)
  mpa_trace : MPArray -> scalar;                      (* mp.trace(a) *)
  mpa_norm : MPArray -> scalar;                       (* mp.norm(a) *)
  mpa_truediv : MPArray -> scalar -> MPArray;         (* a / x *)
  mpa_T : MPArray -> MPArray;                         (* a.T *)
  mpa_conj : MPArray -> MPArray;                      (* a.conj() *)
  mpa_compress : Compr -> MPArray -> MPArray * Q;     (* a.compress(..): new content, overlap *)
  relerr_1e_20 : Compr                                (* the keywords relerr=1e-20 *)
}.

Definition loc : Type := nat.

Section Tmps.
Context {Sub : Substrate}.

(** Python objects a Hamiltonian description is made of. *)
#[warnings="-register-all"] Inductive pyobj : Type :=
| Ndarray (a : ndarray)
| PyList (l : list pyobj)
| PyTuple (l : list pyobj).

(** [type(o) is list] *)
Definition is_list (o : pyobj) : bool :=
  match o with
  | PyList _ => true
  | _ => false
  end.

(** [len(o)] *)
Definition py_len (o : pyobj) : nat :=
  match o with
  | Ndarray a => np_len a
  | PyList l => length l
  | PyTuple l => length l
  end.

(** The items of a list or tuple.  Iterating over the rows of an array is
    outside the development. *)
Definition py_seq (o : pyobj) : result (list pyobj) :=
  match o with
  | PyList l => Ok l
  | PyTuple l => Ok l
  | Ndarray _ => Raise Unmodelled
  end.

(** An operand of numpy.  numpy's conversion of nested sequences into an
    array is outside the development. *)
Definition py_arr (o : pyobj) : result ndarray :=
  match o with
  | Ndarray a => Ok a
  | _ => Raise Unmodelled
  end.

(** ** The store *)

Record World : Type := mkWorld {
  mpas : list MPArray;            (* MPArray objects, by address *)
  pylists : list (list pynum)     (* list objects holding numbers, by address *)
}.

Definition M (X : Type) : Type := World -> result X * World.

#[global] Instance M_ret : MRet M := fun _ x w => (Ok x, w).
#[global] Instance M_bind : MBind M := fun _ _ f m w =>
  match m w with
  | (Ok x, w') => f x w'
  | (Raise e, w') => (Raise e, w')
  end.

Definition raise {X : Type} (e : exn) : M X := fun w => (Raise e, w).
Definition lift {X : Type} (r : result X) : M X := fun w => (r, w).

Fixpoint mapW {X Y : Type} (f : X -> M Y) (l : list X) : M (list Y) :=
  match l with
  | [] => mret []
  | x :: l' => y ← f x; ys ← mapW f l'; mret (y :: ys)
  end.

(** [for i in idxs: x = body(i, x)] *)
Fixpoint for_each {X : Type} (body : nat -> X -> M X) (idxs : list nat) (x : X) : M X :=
  match idxs with
  | [] => mret x
  | i :: idxs' => x' ← body i x; for_each body idxs' x'
  end.

Definition new_mpa (v : MPArray) : M loc := fun w =>
  (Ok (length (mpas w)), mkWorld (mpas w ++ [v]) (pylists w)).

Definition get_mpa (r : loc) : M MPArray := fun w =>
  match mpas w !! r with
  | Some v => (Ok v, w)
  | None => (Raise Unmodelled, w)
  end.

Definition set_mpa (r : loc) (v : MPArray) : M unit := fun w =>
  (Ok tt, mkWorld (<[r := v]> (mpas w)) (pylists w)).

Definition get_list (r : loc) : M (list pynum) := fun w =>
  match pylists w !! r with
  | Some l => (Ok l, w)
  | None => (Raise Unmodelled, w)
  end.

Definition set_list (r : loc) (l : list pynum) : M unit := fun w =>
  (Ok tt, mkWorld (mpas w) (<[r := l]> (pylists w))).

(** ** mpnum calls on objects *)

Definition mp_dot (a b : loc) : M loc :=
  va ← get_mpa a; vb ← get_mpa b; new_mpa (mpa_dot va vb).

(** [mp.chain(..)]; mpnum rejects an empty sequence, with an error that is
    outside the development. *)
Definition mp_chain (rs : list loc) : M loc :=
  vs ← mapW get_mpa rs;
  match vs with
  | [] => raise Unmodelled
  | _ => new_mpa (mpa_chain vs)
  end.

Definition mp_eye (sites ldim : nat) : M loc := new_mpa (mpa_eye sites ldim).

Definition from_array_global (a : ndarray) (ndims : nat) : M loc :=
  new_mpa (mpa_from_array_global a ndims).

Definition mp_trace (a : loc) : M scalar := va ← get_mpa a; mret (mpa_trace va).
Definition mp_norm (a : loc) : M scalar := va ← get_mpa a; mret (mpa_norm va).

(** [a / x]: a new object *)
Definition mp_truediv (a : loc) (x : scalar) : M loc :=
  va ← get_mpa a; new_mpa (mpa_truediv va x).

(** [a.T] and [a.conj()]: new objects *)
Definition mp_T (a : loc) : M loc := va ← get_mpa a; new_mpa (mpa_T va).
Definition mp_conj (a : loc) : M loc := va ← get_mpa a; new_mpa (mpa_conj va).

(** [len(a)] *)
Definition mp_len (a : loc) : M nat := va ← get_mpa a; mret (mpa_len va).

(** [a.compress(..)]: rewrites the object [a] and returns the overlap *)
Definition compress (a : loc) (kw : Compr) : M Q :=
  va ← get_mpa a;
  let '(va', overlap) := mpa_compress kw va in
  set_mpa a va';; mret overlap.

(** ** The module *)

(** [_times_to_steps(times, num_trotter_slices)] *)
Definition _times_to_steps (times : loc) (num_trotter_slices : Z) : M Q :=
  l ← get_list times;
  set_list times (py_sort l);;
  l ← get_list times;
  t_max ← lift (py_last l);
  tau ← lift (py_truediv t_max (PInt num_trotter_slices));
  steps ← lift (mapR (fun t => q ← py_truediv t (PFloat tau); Ok (PInt (py_round q))) l);
  set_list times steps;;
  mret tau.

(** [_normalize(state, method)]: both assignments bind the local name
    [state]; nothing is returned. *)
Definition _normalize (state : loc) (method : string) : M unit :=
  state ← (if String.eqb method "pmps"
           then x ← mp_norm state; mp_truediv state x
           else mret state);
  state ← (if String.eqb method "mpo"
           then x ← mp_trace state; mp_truediv state x
           else mret state);
  mret tt.

(** [_compress(state, method)] *)
Definition _compress (state : loc) (method : string) : M unit :=
  compress state relerr_1e_20;;
  _normalize state method.

(** [matrix_to_mpo(matrix, shape)] *)
Definition matrix_to_mpo (matrix : ndarray) (shape : list (list nat)) : M loc :=
  row0 ← lift (py_index shape 0);
  let num_legs := length row0 in
  if negb (forallb (fun row => length row =? num_legs) shape)
  then raise (ValueError "Not all sites have the same number of physical legs")
  else
    let newShape :=
      flat_map (fun i => map (fun row => nth i row 0) shape) (seq 0 num_legs) in
    mpo ← from_array_global (np_reshape matrix newShape) num_legs;
    _compress mpo "mpo";;
    mret mpo.

(** [_get_h_list(hs, num_sites)] *)
Definition _get_h_list (hs : list pyobj) (num_sites : Z) : result (pyobj * pyobj) :=
  h0 ← py_index hs 0;
  if negb (is_list h0)
  then
    h1 ← py_index hs 1;
    Ok (PyList (replicate (Z.to_nat num_sites) h0),
        PyList (replicate (Z.to_nat (num_sites - 1)) h1))
  else
    mismatch ← (if negb (Z.of_nat (py_len h0) =? num_sites)%Z
                then Ok true
                else h1 ← py_index hs 1;
                     Ok (negb (Z.of_nat (py_len h1) =? num_sites - 1)%Z));
    if (mismatch : bool)
    then Raise (ValueError "Number of given Hamiltonians does not match number of sites")
    else h1 ← py_index hs 1; Ok (h0, h1).

(** [range(0, n, 2)] *)
Definition range_step2 (n : nat) : list nat :=
  map (fun k => 2 * k) (seq 0 (Nat.div2 (S n))).

(** [_get_u_list(h_single, h_adjacent, tau)] *)
Definition _get_u_list (h_single h_adjacent : pyobj) (tau : Q)
  : result (list nat * list ndarray * list ndarray) :=
  hs ← py_seq h_single;
  ha ← py_seq h_adjacent;
  let dims := map py_len hs in
  h_2sites ← mapR (fun i =>
      a ← py_index hs i;
      b ← py_index hs (i + 1);
      ma ← py_arr a;
      mb ← py_arr b;
      Ok (np_add (np_kron ma (np_identity (py_len b)))
                 (np_kron (np_identity (py_len a)) mb)))
    (range_step2 (length hs - 1));
  u_odd ← mapR (fun '(i, h) =>
      h2 ← py_index h_2sites i;
      mh ← py_arr h;
      Ok (expm (np_scale (c_div (c_mul minus_j tau) 2) (np_add mh h2))))
    (enumerate (stride2 ha));
  u_even ← mapR (fun h =>
      mh ← py_arr h;
      Ok (expm (np_scale (c_mul minus_j tau) mh)))
    (stride2 (tail ha));
  u_odd ← (if length u_odd =? length u_even
           then h_last ← py_last hs;
                m ← py_arr h_last;
                Ok (u_odd ++ [expm (np_scale (c_div (c_mul minus_j tau) 2) m)])
           else Ok u_odd);
  Ok (dims, u_odd, u_even).

(** [_u_list_to_mpo(dims, u_odd, u_even)]; [last_h] is bound only for an odd
    number of sites. *)
Definition _u_list_to_mpo (dims : list nat) (u_odd u_even : list ndarray) : M (loc * loc) :=
  '(last_h, u_odd) ← (if length dims mod 2 =? 1
                      then h ← lift (py_last u_odd); mret (Some h, removelast u_odd)
                      else mret (None, u_odd));
  odd_parts ← mapW (fun '(i, u) =>
      d0 ← lift (py_index dims (2 * i));
      d1 ← lift (py_index dims (2 * i + 1));
      matrix_to_mpo u [[d0; d0]; [d1; d1]])
    (enumerate u_odd);
  odd ← mp_chain odd_parts;
  even_parts ← mapW (fun '(i, u) =>
      d1 ← lift (py_index dims (2 * i + 1));
      d2 ← lift (py_index dims (2 * i + 2));
      matrix_to_mpo u [[d1; d1]; [d2; d2]])
    (enumerate u_even);
  even ← mp_chain even_parts;
  d_first ← lift (py_index dims 0);
  e ← mp_eye 1 d_first;
  even ← mp_chain [e; even];
  if length u_even <? length u_odd
  then
    d_last ← lift (py_last dims);
    e ← mp_eye 1 d_last;
    even ← mp_chain [even; e];
    mret (odd, even)
  else if length u_even =? length u_odd
  then
    h ← (match last_h with
         | Some h => mret h
         | None => raise UnboundLocalError
         end);
    d_last ← lift (py_last dims);
    m ← matrix_to_mpo h [[d_last; d_last]];
    odd ← mp_chain [odd; m];
    mret (odd, even)
  else mret (odd, even).

(** [_trotter_two(hamiltonians, tau, num_sites)] *)
Definition _trotter_two (hamiltonians : list pyobj) (tau : Q) (num_sites : Z) : M loc :=
  '(h_single, h_adjacent) ← lift (_get_h_list hamiltonians num_sites);
  '(dims, u_odd, u_even) ← lift (_get_u_list h_single h_adjacent tau);
  '(u_odd, u_even) ← _u_list_to_mpo dims u_odd u_even;
  u ← mp_dot u_odd u_even;
  mp_dot u u_odd.

(** The double [4 ** (1 / 3)] *)
Definition cbrt4 : Q := 1787254696532879 # 1125899906842624.

(** [_trotter_four(hamiltonians, tau, num_sites)] *)
Definition _trotter_four (hamiltonians : list pyobj) (tau : Q) (num_sites : Z) : M loc :=
  let taus := [tau / (4 - cbrt4); tau / (4 - cbrt4); tau - 4 * tau / (4 - cbrt4)]%Q in
  '(h_single, h_adjacent) ← lift (_get_h_list hamiltonians num_sites);
  u_lists ← lift (mapR (fun tau => _get_u_list h_single h_adjacent tau) taus);
  u_mpos ← mapW (fun '(dims, u_odd, u_even) => _u_list_to_mpo dims u_odd u_even) u_lists;
  u_parts ← mapW (fun '(odd, even) => u ← mp_dot odd even; mp_dot u odd) u_mpos;
  p0 ← lift (py_index u_parts 0);
  p1 ← lift (py_index u_parts 1);
  u ← mp_dot p0 p1;
  p2 ← lift (py_index u_parts 2);
  u ← mp_dot u p2;
  _compress u "mpo";;
  p1 ← lift (py_index u_parts 1);
  u ← mp_dot u p1;
  p0 ← lift (py_index u_parts 0);
  mp_dot u p0.

(** [_trotter_slice(hamiltonians, tau, num_sites, trotter_order)] *)
Definition _trotter_slice (hamiltonians : list pyobj) (tau : Q) (num_sites : Z)
    (trotter_order : Z) : M loc :=
  if (trotter_order =? 2)%Z then _trotter_two hamiltonians tau num_sites
  else if (trotter_order =? 4)%Z then _trotter_four hamiltonians tau num_sites
  else raise (ValueError (String.append "Trotter order "
                       (String.append (py_str trotter_order)
                          " is currently not implemented."))).

(** The four lists [_time_evolution] returns. *)
Record Trace : Type := mkTrace {
  tr_times : list pynum;
  tr_states : list loc;
  tr_compr_errors : list pynum;
  tr_trot_errors : list pynum
}.

(** The names the loop of [_time_evolution] assigns to. *)
Record loop_vars : Type := mkVars {
  lv_state : loc;
  lv_overlap : Q;   (* accumulated_overlap *)
  lv_trotter : Q;   (* accumulated_trotter_error *)
  lv_trace : Trace
}.

(** One pass through the body of the loop, for loop index [i]. *)
Definition loop_body (u : loc) (u_dagger : option loc) (ts : loc) (tau : Q)
    (method : string) (compr : Compr) (i : nat) (v : loop_vars) : M loop_vars :=
  state ← mp_dot u (lv_state v);
  state ← (if String.eqb method "mpo"
           then match u_dagger with
                | Some ud => mp_dot state ud
                | None => raise UnboundLocalError
                end
           else mret state);
  _normalize state method;;
  overlap ← compress state compr;
  (* a product of the collaborators' numbers, not rounded *)
  let accumulated_overlap := (lv_overlap v * overlap)%Q in
  cube ← lift (py_pow3 tau);
  accumulated_trotter_error ← lift (py_add (lv_trotter v) cube);
  l ← get_list ts;
  let step := PInt (Z.of_nat i + 1) in
  let tr := lv_trace v in
  if existsb (num_eqb step) l
  then
    t ← lift (py_mul (PFloat tau) step);
    mret (mkVars state accumulated_overlap accumulated_trotter_error
            (mkTrace (tr_times tr ++ [PFloat t])
                     (tr_states tr ++ [state])
                     (tr_compr_errors tr ++ [PFloat accumulated_overlap])
                     (tr_trot_errors tr ++ [PFloat accumulated_trotter_error])))
  else mret (mkVars state accumulated_overlap accumulated_trotter_error tr).

(** [_time_evolution(state, u, ts, tau, method, compr)] *)
Definition _time_evolution (state u ts : loc) (tau : Q) (method : string)
    (compr : Compr) : M Trace :=
  l ← get_list ts;
  t0 ← lift (py_index l 0);
  let at_zero := num_eqb t0 (PInt 0) in
  let times := if at_zero then [PInt 0] else [] in
  let states := if at_zero then [state] else [] in
  let compr_errors := if at_zero then [PInt 0] else [] in
  let trot_errors := if at_zero then [PInt 0] else [] in
  u_dagger ← (if String.eqb method "mpo"
              then uT ← mp_T u; ud ← mp_conj uT; mret (Some ud)
              else mret None);
  t_last ← lift (py_last l);
  n ← (match t_last with
       | PInt z => mret (Z.to_nat z)
       | PFloat _ => raise TypeError
       end);
  v ← for_each (loop_body u u_dagger ts tau method compr) (seq 0 n)
        (mkVars state 1 0 (mkTrace times states compr_errors trot_errors));
  mret (lv_trace v).

(** [evolve(state, hamiltonians, ts, num_trotter_slices, method, compr,
    trotter_order)] *)
Definition evolve (state : loc) (hamiltonians : list pyobj) (ts : loc)
    (num_trotter_slices : Z) (method : string) (compr : Compr)
    (trotter_order : Z) : M Trace :=
  _compress state method;;
  n ← mp_len state;
  if n <? 3
  then raise (ValueError "State has too few sites")
  else
    l ← get_list ts;
    if forallb (fun t => num_eqb t (PInt 0)) l
    then raise (ValueError "No time evolution requested by the user. Check your input 't'")
    else
      tau ← _times_to_steps ts num_trotter_slices;
      n ← mp_len state;
      u ← _trotter_slice hamiltonians tau (Z.of_nat n) trotter_order;
      _compress u method;;
      _time_evolution state u ts tau method compr.

End Tmps.

Arguments pyobj : clear implicits.
Arguments World : clear implicits.

(** ** A small instance of the collaborators

    Operators that are a multiple [c * I] of the identity, with [c] a complex
    number with rational parts kept in lowest terms.  An array carries its
    shape and [c]; a network carries the local dimension of each site and [c].
    Every operation is the one of numpy or mpnum on such operators, with two
    exceptions: the exponential is cut after its linear term (exact at the
    zero matrix), and the norm takes integer square roots.  Compression of
    such a network is lossless. *)

Definition sm_c (re im : Q) : complex := (Qred re, Qred im).
Definition sm_mul (c d : complex) : complex :=
  sm_c (fst c * fst d - snd c * snd d) (fst c * snd d + snd c * fst d).
Definition sm_add (c d : complex) : complex := sm_c (fst c + fst d) (snd c + snd d).
Definition sm_inv (c : complex) : complex :=
  let n := (fst c * fst c + snd c * snd c)%Q in sm_c (fst c / n) (- snd c / n).
Definition sm_nat (n : nat) : complex := sm_c (inject_Z (Z.of_nat n)) 0.

Record sm_array : Type := mkArr { arr_shape : list nat; arr_coef : complex }.
Record sm_net : Type := mkNet { net_dims : list nat; net_coef : complex }.

Definition sm_square (n : nat) (c : complex) : sm_array := mkArr [n; n] c.
Definition sm_size (a : sm_array) : nat := hd 0 (arr_shape a).

Definition sm_chain (l : list sm_net) : sm_net :=
  mkNet (concat (map net_dims l)) (foldr sm_mul (sm_c 1 0) (map net_coef l)).

Definition sm_volume (dims : list nat) : nat := foldr Nat.mul 1 dims.

Definition sm_sqrt (q : Q) : Q :=
  inject_Z (Z.sqrt (Qnum q)) / inject_Z (Z.sqrt (Z.pos (Qden q))).

#[global] Instance scalar_model : Substrate := {|
  ndarray := sm_array;
  MPArray := sm_net;
  scalar := complex;
  Compr := unit;
  np_len := sm_size;
  np_identity := fun n => sm_square n (sm_c 1 0);
  np_kron := fun a b => sm_square (sm_size a * sm_size b) (sm_mul (arr_coef a) (arr_coef b));
  np_add := fun a b => mkArr (arr_shape a) (sm_add (arr_coef a) (arr_coef b));
  np_scale := fun c a => mkArr (arr_shape a) (sm_mul c (arr_coef a));
  np_reshape := fun a shape => mkArr shape (arr_coef a);
  expm := fun a => mkArr (arr_shape a) (sm_add (sm_c 1 0) (arr_coef a));
  mpa_len := fun a => length (net_dims a);
  mpa_dot := fun a b => mkNet (net_dims a) (sm_mul (net_coef a) (net_coef b));
  mpa_chain := sm_chain;
  mpa_eye := fun sites ldim => mkNet (replicate sites ldim) (sm_c 1 0);
  mpa_from_array_global := fun a ndims =>
    mkNet (take (length (arr_shape a) / ndims) (arr_shape a)) (arr_coef a);
  mpa_trace := fun a => sm_mul (net_coef a) (sm_nat (sm_volume (net_dims a)));
  mpa_norm := fun a =>
    sm_c (sm_sqrt ((fst (net_coef a) * fst (net_coef a) + snd (net_coef a) * snd (net_coef a))
                   * inject_Z (Z.of_nat (sm_volume (net_dims a))))) 0;
  mpa_truediv := fun a x => mkNet (net_dims a) (sm_mul (net_coef a) (sm_inv x));
  mpa_T := fun a => a;
  mpa_conj := fun a => mkNet (net_dims a) (sm_c (fst (net_coef a)) (- snd (net_coef a)));
  mpa_compress := fun _ a => (a, 1%Q);
  relerr_1e_20 := tt
|}.

(** The zero matrix of size [n] and the operator [c * I] on sites of the
    given local dimensions. *)
Definition sm_zeros (n : nat) : sm_array := sm_square n (sm_c 0 0).
Definition sm_state (dims : list nat) (c : Q) : sm_net := mkNet dims (sm_c c 0).

(** A chain of [n] sites of local dimension 2 with all Hamiltonians zero,
    given as one site operator and one bond operator. *)
Definition sm_free_pair : list (pyobj scalar_model) :=
  [Ndarray (sm_zeros 2); Ndarray (sm_zeros 4)].

Definition sm_world (state : sm_net) (times : list pynum) : World scalar_model :=
  mkWorld [state] [times].

(** * Properties *)

(** ** Lists and numbers *)

Lemma stride2_length_pair {X : Type} (l : list X) :
  length (stride2 l) = Nat.div2 (S (length l)) /\
  forall x, length (stride2 (x :: l)) = Nat.div2 (S (S (length l))).
Proof.
  induction l as [|y l [IH1 IH2]]; [split; reflexivity|].
  split; [apply IH2|]. intros x. cbn [stride2 length]. now rewrite IH1.
Qed.

Lemma stride2_length {X : Type} (l : list X) :
  length (stride2 l) = Nat.div2 (S (length l)).
Proof. apply stride2_length_pair. Qed.

Lemma stride2_tail_length {X : Type} (l : list X) :
  length (stride2 (tail l)) = Nat.div2 (length l).
Proof. destruct l; [reflexivity|]. cbn [tail length]. apply stride2_length. Qed.

Lemma range_step2_length (n : nat) : length (range_step2 n) = Nat.div2 (S n).
Proof. unfold range_step2. now rewrite length_map, length_seq. Qed.

Lemma range_step2_bound (n i : nat) : In i (range_step2 n) -> i < n.
Proof.
  unfold range_step2. rewrite in_map_iff. intros (k & <- & Hk).
  apply in_seq in Hk.
  pose proof (Nat.div2_odd (S n)) as E. destruct (Nat.odd (S n)) eqn:O; cbn [Nat.b2n] in E.
  - destruct n; [cbn in *; lia|]. lia.
  - lia.
Qed.

Lemma div2_parity (n : nat) :
  Nat.div2 (S n) = Nat.div2 n <-> Nat.odd n = false.
Proof.
  pose proof (Nat.div2_odd n) as E1. pose proof (Nat.div2_odd (S n)) as E2.
  rewrite Nat.odd_succ, <- Nat.negb_odd in E2.
  destruct (Nat.odd n); cbn [negb Nat.b2n] in *; split; intros; try discriminate; lia.
Qed.

Lemma mapR_Forall2 {X Y : Type} (f : X -> result Y) (l : list X) :
  (forall x, In x l -> exists y, f x = Ok y) ->
  exists ys, mapR f l = Ok ys /\ Forall2 (fun x y => f x = Ok y) l ys.
Proof.
  induction l as [|x l IH]; intros H.
  - exists []. split; [reflexivity | constructor].
  - destruct (H x (or_introl eq_refl)) as [y Hy].
    destruct IH as (ys & E & F); [intros; apply H; now right|].
    exists (y :: ys). split; [|now constructor].
    cbn [mapR]. rewrite Hy. cbn. rewrite E. reflexivity.
Qed.

Lemma py_index_ok {X : Type} (l : list X) (i : nat) (x : X) :
  l !! i = Some x -> py_index l i = Ok x.
Proof. unfold py_index. now intros ->. Qed.

Lemma py_last_app {X : Type} (l : list X) (x : X) : py_last (l ++ [x]) = Ok x.
Proof. unfold py_last. now rewrite last_snoc. Qed.

Lemma enumerate_lookup {X : Type} (l : list X) (i : nat) (x : X) :
  In (i, x) (enumerate l) -> l !! i = Some x.
Proof.
  unfold enumerate. intros H. apply list_elem_of_In, list_elem_of_lookup in H.
  destruct H as [k Hk]. apply lookup_zip_with_Some in Hk.
  destruct Hk as (a & b & E & Ha & Hb). injection E as -> ->.
  apply lookup_seq in Ha. destruct Ha as [-> _]. exact Hb.
Qed.

Lemma enumerate_length {X : Type} (l : list X) : length (enumerate l) = length l.
Proof. unfold enumerate. rewrite length_zip_with, length_seq. lia. Qed.

Lemma lookup_map {X Y : Type} (f : X -> Y) (l : list X) (i : nat) :
  map f l !! i = f <$> (l !! i).
Proof. revert i. induction l as [|x l IH]; intros [|i]; cbn; auto. Qed.

Lemma lookup_stride2_pair {X : Type} (l : list X) :
  (forall k, stride2 l !! k = l !! (2 * k)) /\
  (forall x k, stride2 (x :: l) !! k = (x :: l) !! (2 * k)).
Proof.
  induction l as [|y l [IH1 IH2]].
  - split; [intros []; reflexivity|]. intros x [|[|k]]; reflexivity.
  - split; [apply IH2|]. intros x [|k]; [reflexivity|].
    cbn [stride2]. rewrite lookup_cons. rewrite IH1.
    replace (2 * S k) with (S (S (2 * k))) by lia. reflexivity.
Qed.

Lemma lookup_stride2 {X : Type} (l : list X) (k : nat) :
  stride2 l !! k = l !! (2 * k).
Proof. apply lookup_stride2_pair. Qed.

Lemma lookup_tail {X : Type} (l : list X) (k : nat) : tail l !! k = l !! S k.
Proof. destruct l; [now destruct k | reflexivity]. Qed.

Lemma stride2_map {X Y : Type} (f : X -> Y) (l : list X) :
  stride2 (map f l) = map f (stride2 l).
Proof.
  apply list_eq. intros k.
  now rewrite lookup_stride2, !lookup_map, lookup_stride2.
Qed.

Lemma tail_map {X Y : Type} (f : X -> Y) (l : list X) : tail (map f l) = map f (tail l).
Proof. now destruct l. Qed.

Lemma lookup_range_step2 (n k : nat) :
  k < Nat.div2 (S n) -> range_step2 n !! k = Some (2 * k).
Proof.
  intros H. unfold range_step2. rewrite lookup_map, lookup_seq_lt by exact H. reflexivity.
Qed.

Lemma lookup_enumerate {X : Type} (l : list X) (k : nat) (x : X) :
  l !! k = Some x -> enumerate l !! k = Some (k, x).
Proof.
  intros H. unfold enumerate. apply lookup_zip_with_Some. exists k, x.
  split; [reflexivity|]. split; [|exact H].
  apply lookup_seq. split; [reflexivity|]. now apply lookup_lt_Some in H.
Qed.

Lemma mapR_map {X Y Z : Type} (f : X -> Y) (g : Y -> result Z) (l : list X) :
  mapR g (map f l) = mapR (fun x => g (f x)) l.
Proof. induction l as [|x l IH]; [reflexivity|]. cbn [map mapR]. now rewrite IH. Qed.

Lemma mapR_total {X Y : Type} (g : X -> Y) (l : list X) :
  mapR (fun x => Ok (g x)) l = Ok (map g l).
Proof. induction l as [|x l IH]; [reflexivity|]. cbn [map mapR]. rewrite IH. reflexivity. Qed.

Lemma mapR_ext_ok {X Y : Type} (f : X -> result Y) (g : X -> Y) (l : list X) :
  (forall x, In x l -> f x = Ok (g x)) -> mapR f l = Ok (map g l).
Proof.
  induction l as [|x l IH]; intros H; [reflexivity|].
  cbn [mapR map]. rewrite (H x (or_introl eq_refl)). cbn.
  rewrite IH by (intros; apply H; now right). reflexivity.
Qed.

Lemma Forall2_length_eq {X Y : Type} (P : X -> Y -> Prop) (l : list X) (k : list Y) :
  Forall2 P l k -> length l = length k.
Proof. induction 1; cbn; congruence. Qed.

Fixpoint pairs {X : Type} (l : list X) : list (X * X) :=
  match l with
  | a :: b :: l' => (a, b) :: pairs l'
  | _ => []
  end.

Lemma lookup_pairs_pair {X : Type} (l : list X) :
  (forall k a b, pairs l !! k = Some (a, b) <-> l !! (2 * k) = Some a /\ l !! (2 * k + 1) = Some b) /\
  (forall x k a b, pairs (x :: l) !! k = Some (a, b) <->
                   (x :: l) !! (2 * k) = Some a /\ (x :: l) !! (2 * k + 1) = Some b).
Proof.
  induction l as [|y l [IH1 IH2]].
  - split; [intros k a b; cbn; split; [discriminate | intros [H _]; discriminate]|].
    intros x k a b. cbn [pairs]. split; [discriminate|].
    intros [_ H]. replace (2 * k + 1) with (S (2 * k)) in H by lia. discriminate.
  - split; [apply IH2|]. intros x [|k] a b; cbn [pairs].
    + cbn. split; [intros [= -> ->]; auto | intros [[= ->] [= ->]]; auto].
    + rewrite lookup_cons. rewrite IH1.
      replace (2 * S k) with (S (S (2 * k))) by lia.
      replace (S (S (2 * k)) + 1) with (S (S (2 * k + 1))) by lia. reflexivity.
Qed.

Lemma lookup_pairs {X : Type} (l : list X) (k : nat) (a b : X) :
  pairs l !! k = Some (a, b) <-> l !! (2 * k) = Some a /\ l !! (2 * k + 1) = Some b.
Proof. apply lookup_pairs_pair. Qed.

Lemma pairs_length_pair {X : Type} (l : list X) :
  length (pairs l) = Nat.div2 (length l) /\
  forall x, length (pairs (x :: l)) = Nat.div2 (S (length l)).
Proof.
  induction l as [|y l [IH1 IH2]]; [split; reflexivity|].
  split; [apply IH2|]. intros x. cbn [pairs length]. now rewrite IH1.
Qed.

Lemma pairs_length {X : Type} (l : list X) : length (pairs l) = Nat.div2 (length l).
Proof. apply pairs_length_pair. Qed.

Lemma lookup_lt_ex {X : Type} (l : list X) (i : nat) :
  i < length l -> exists x, l !! i = Some x.
Proof. intros H. apply lookup_lt_is_Some_2 in H. destruct H; eauto. Qed.

Section Builder.
Context {Sub : Substrate}.

(** The coefficient of the odd-bond exponent, [-1j * tau / 2], and of the
    even-bond exponent, [-1j * tau]. *)
Definition odd_coef (tau : Q) : complex := c_div (c_mul minus_j tau) 2.
Definition even_coef (tau : Q) : complex := c_mul minus_j tau.

(** What the builder computes, as values: the sum of two neighbouring site
    operators on the joint space, the odd-bond and even-bond operators and
    the operator of the last site. *)
Definition two_site (a b : ndarray) : ndarray :=
  np_add (np_kron a (np_identity (np_len b))) (np_kron (np_identity (np_len a)) b).

Definition odd_blocks (tau : Q) (ms bs : list ndarray) : list ndarray :=
  zip_with (fun h '(a, b) => expm (np_scale (odd_coef tau) (np_add h (two_site a b))))
           (stride2 bs) (pairs ms).

Definition even_blocks (tau : Q) (bs : list ndarray) : list ndarray :=
  map (fun h => expm (np_scale (even_coef tau) h)) (stride2 (tail bs)).

Definition trailing (tau : Q) (ms : list ndarray) : list ndarray :=
  match last ms with
  | Some m => [expm (np_scale (odd_coef tau) m)]
  | None => []
  end.

Definition u_odd_list (tau : Q) (ms bs : list ndarray) : list ndarray :=
  if Nat.odd (length ms) then odd_blocks tau ms bs ++ trailing tau ms else odd_blocks tau ms bs.

(** ** The Hamiltonian normalizer *)

(** C10: the normalizer looks only at whether the first element is a list.
    When it is not (an array, a tuple), the result is [num_sites] copies of
    the first element and [num_sites - 1] copies of the second, and no length
    is compared; when it is, the two lengths are compared with [num_sites]
    and [num_sites - 1] and a mismatch is a ValueError. *)
Theorem get_h_list_dispatch (h0 h1 : pyobj Sub) (rest : list (pyobj Sub)) (num_sites : Z) :
  (is_list h0 = false ->
   _get_h_list (h0 :: h1 :: rest) num_sites =
     Ok (PyList (replicate (Z.to_nat num_sites) h0),
         PyList (replicate (Z.to_nat (num_sites - 1)) h1))) /\
  (is_list h0 = true ->
   _get_h_list (h0 :: h1 :: rest) num_sites =
     if ((Z.of_nat (py_len h0) =? num_sites) && (Z.of_nat (py_len h1) =? num_sites - 1))%Z
     then Ok (h0, h1)
     else Raise (ValueError "Number of given Hamiltonians does not match number of sites")).
Proof.
  split; intros E; unfold _get_h_list; cbn; rewrite E; cbn; [reflexivity|].
  destruct (Z.of_nat (py_len h0) =? num_sites)%Z; cbn; [|reflexivity].
  destruct (Z.of_nat (py_len h1) =? num_sites - 1)%Z; reflexivity.
Qed.

Lemma get_u_list_ok (ms bs : list ndarray) (tau : Q) :
  length ms = S (length bs) ->
  exists blocks,
    _get_u_list (PyList (map Ndarray ms)) (PyList (map Ndarray bs)) tau =
      Ok (map np_len ms,
          blocks ++ (if Nat.odd (length ms) then trailing tau ms else []),
          even_blocks tau bs) /\
    length blocks = length (stride2 bs) /\
    (forall k, k < length blocks ->
       exists h a b, bs !! (2 * k) = Some h /\ ms !! (2 * k) = Some a /\
                     ms !! (2 * k + 1) = Some b /\
                     blocks !! k =
                       Some (expm (np_scale (odd_coef tau) (np_add h (two_site a b))))).
Proof.
  intros Hlen. unfold _get_u_list. cbn [py_seq mbind result_bind].
  rewrite !length_map.
  set (f2 := fun i : nat => _).
  destruct (mapR_Forall2 f2 (range_step2 (length ms - 1))) as (h2s & E2 & F2).
  { intros i Hi. apply range_step2_bound in Hi.
    destruct (lookup_lt_ex ms i) as [a Ha]; [lia|].
    destruct (lookup_lt_ex ms (i + 1)) as [b Hb]; [lia|].
    subst f2. cbn beta. unfold py_index. rewrite !lookup_map, Ha, Hb. cbn. eauto. }
  rewrite E2. cbn [mbind result_bind].
  assert (L2 : length h2s = length (stride2 bs)).
  { apply Forall2_length_eq in F2. rewrite <- F2, range_step2_length, stride2_length.
    f_equal. lia. }
  match goal with |- context [mapR ?f (enumerate _)] => set (fo := f) end.
  destruct (mapR_Forall2 fo (enumerate (stride2 (map Ndarray bs)))) as (blocks & Eo & Fo).
  { intros [i h] Hi. apply enumerate_lookup in Hi.
    rewrite stride2_map, lookup_map in Hi.
    destruct (stride2 bs !! i) as [m|] eqn:Hm; [|discriminate]. injection Hi as <-.
    apply lookup_lt_Some in Hm.
    destruct (lookup_lt_ex h2s i) as [h2 Hh2]; [lia|].
    subst fo. cbn beta iota. unfold py_index. rewrite Hh2. cbn. eauto. }
  rewrite Eo. cbn [mbind result_bind].
  assert (Lo : length blocks = length (stride2 bs)).
  { apply Forall2_length_eq in Fo. now rewrite <- Fo, enumerate_length, stride2_map, length_map. }
  rewrite tail_map, stride2_map, mapR_map. cbn [py_arr mbind result_bind].
  rewrite (mapR_total (fun h => expm (np_scale (c_mul minus_j tau) h))).
  change (map _ (stride2 (tail bs))) with (even_blocks tau bs).
  cbn [mbind result_bind]. rewrite map_map. cbn [py_len].
  change (map (fun x => np_len x) ms) with (map np_len ms).
  assert (Le : length (even_blocks tau bs) = Nat.div2 (length bs)).
  { unfold even_blocks. now rewrite length_map, stride2_tail_length. }
  exists blocks. split; [|split; [exact Lo|]].
  - rewrite Lo, Le, stride2_length, Hlen. rewrite Nat.odd_succ, <- Nat.negb_odd.
    destruct (Nat.odd (length bs)) eqn:O; cbn [negb].
    + assert (Nat.div2 (S (length bs)) <> Nat.div2 (length bs)) as Hne.
      { intros C. apply div2_parity in C. congruence. }
      apply Nat.eqb_neq in Hne. rewrite Hne. now rewrite app_nil_r.
    + assert (Nat.div2 (S (length bs)) = Nat.div2 (length bs)) as He by now apply div2_parity.
      rewrite He, Nat.eqb_refl.
      destruct ms as [|m0 ms'] using rev_ind; [discriminate|].
      rewrite (map_app Ndarray). cbn [map]. rewrite py_last_app. cbn.
      unfold trailing. now rewrite last_snoc.
  - intros k Hk.
    destruct (lookup_lt_ex blocks k Hk) as [u Hu]. rewrite Hu.
    rewrite Lo in Hk. destruct (lookup_lt_ex (stride2 bs) k Hk) as [h Hh].
    assert (He : enumerate (stride2 (map Ndarray bs)) !! k = Some (k, Ndarray h)).
    { apply lookup_enumerate. now rewrite stride2_map, lookup_map, Hh. }
    pose proof (Forall2_lookup_lr _ _ _ _ _ _ Fo He Hu) as Hfo.
    subst fo. cbn beta iota in Hfo.
    rewrite <- L2 in Hk. destruct (lookup_lt_ex h2s k Hk) as [h2 Hh2].
    unfold py_index in Hfo. rewrite Hh2 in Hfo. cbn in Hfo. injection Hfo as <-.
    assert (Hr : range_step2 (length ms - 1) !! k = Some (2 * k)).
    { apply lookup_range_step2. rewrite L2, stride2_length in Hk.
      replace (S (length ms - 1)) with (length ms) by lia.
      rewrite Hlen. exact Hk. }
    pose proof (Forall2_lookup_lr _ _ _ _ _ _ F2 Hr Hh2) as Hf2.
    subst f2. cbn beta in Hf2. unfold py_index in Hf2. rewrite !lookup_map in Hf2.
    rewrite lookup_stride2 in Hh.
    destruct (ms !! (2 * k)) as [a|]; [|discriminate].
    destruct (ms !! (2 * k + 1)) as [b|]; [|discriminate].
    cbn in Hf2. injection Hf2 as <-. exists h, a, b. auto.
Qed.

Lemma odd_blocks_length (tau : Q) (ms bs : list ndarray) :
  length ms = S (length bs) -> length (odd_blocks tau ms bs) = length (stride2 bs).
Proof.
  intros H. unfold odd_blocks. rewrite length_zip_with, pairs_length, stride2_length, H. lia.
Qed.

Lemma even_blocks_length (tau : Q) (bs : list ndarray) :
  length (even_blocks tau bs) = length (stride2 (tail bs)).
Proof. unfold even_blocks. now rewrite length_map. Qed.

Lemma get_u_list_eq (ms bs : list ndarray) (tau : Q) :
  length ms = S (length bs) ->
  _get_u_list (PyList (map Ndarray ms)) (PyList (map Ndarray bs)) tau =
    Ok (map np_len ms, u_odd_list tau ms bs, even_blocks tau bs).
Proof.
  intros Hlen. destruct (get_u_list_ok ms bs tau Hlen) as (blocks & E & L & B).
  rewrite E. unfold u_odd_list.
  assert (blocks = odd_blocks tau ms bs) as ->.
  { apply list_eq. intros k. destruct (decide (k < length blocks)) as [Hk|Hk].
    - destruct (B k Hk) as (h & a & b & Hh & Ha & Hb & ->).
      unfold odd_blocks. rewrite lookup_zip_with, lookup_stride2, Hh. cbn.
      assert (pairs ms !! k = Some (a, b)) as -> by now apply lookup_pairs.
      reflexivity.
    - rewrite !lookup_ge_None_2; [reflexivity| |lia].
      rewrite odd_blocks_length by exact Hlen. lia. }
  destruct (Nat.odd (length ms)); [reflexivity|]. now rewrite app_nil_r.
Qed.

(** C3, as the code has it: the operator of the last site is appended to the
    odd-bond list exactly when there are as many odd-bond blocks as even-bond
    blocks, and that is exactly when the chain has an odd number of sites
    (an even number of bonds). *)
Theorem get_u_list_trailing (ms bs : list ndarray) (tau : Q) :
  length ms = S (length bs) ->
  let blocks := odd_blocks tau ms bs in
  let evens := even_blocks tau bs in
  length blocks = length (stride2 bs) /\
  length evens = length (stride2 (tail bs)) /\
  (length blocks = length evens <-> Nat.odd (length ms) = true) /\
  (exists m, last ms = Some m /\
     _get_u_list (PyList (map Ndarray ms)) (PyList (map Ndarray bs)) tau =
       Ok (map np_len ms,
           (if Nat.odd (length ms)
            then blocks ++ [expm (np_scale (odd_coef tau) m)]
            else blocks),
           evens)).
Proof.
  intros Hlen blocks evens.
  split; [now apply odd_blocks_length|]. split; [apply even_blocks_length|]. split.
  - subst blocks evens. rewrite odd_blocks_length, even_blocks_length by exact Hlen.
    rewrite stride2_length, stride2_tail_length, Hlen, Nat.odd_succ, <- Nat.negb_odd.
    rewrite div2_parity. destruct (Nat.odd (length bs)); cbn; split; congruence.
  - destruct ms as [|m ms' _] using rev_ind; [discriminate|].
    exists m. split; [apply last_snoc|].
    rewrite get_u_list_eq by exact Hlen. unfold u_odd_list, trailing.
    now rewrite last_snoc.
Qed.

End Builder.

(** ** The store: running the module *)

Section Store.
Context {Sub : Substrate}.
Implicit Types (w : World Sub) (r : loc) (v : MPArray).

(** [w'] has every object of [w], unchanged, and the same lists. *)
Definition ext w w' : Prop := mpas w `prefix_of` mpas w' /\ pylists w' = pylists w.

(** The object at address [r] holds [v]. *)
Definition holds w r v : Prop := mpas w !! r = Some v.

(** Run from [w], [m] returns normally and the result and the store satisfy [P]. *)
Definition yields {X : Type} (m : M X) w (P : X -> World Sub -> Prop) : Prop :=
  exists x w', m w = (Ok x, w') /\ P x w'.

Lemma ext_refl w : ext w w.
Proof. split; reflexivity. Qed.

Lemma ext_trans w1 w2 w3 : ext w1 w2 -> ext w2 w3 -> ext w1 w3.
Proof. intros [P1 L1] [P2 L2]. split; [etrans; eauto | congruence]. Qed.

Lemma ext_length w w' : ext w w' -> length (mpas w) <= length (mpas w').
Proof. intros [P _]. now apply prefix_length. Qed.

Lemma holds_ext w w' r v : holds w r v -> ext w w' -> holds w' r v.
Proof. intros H [P _]. eapply prefix_lookup_Some; eauto. Qed.

Lemma holds_lt w r v : holds w r v -> r < length (mpas w).
Proof. apply lookup_lt_Some. Qed.

Lemma yields_ret {X : Type} (x : X) w (P : X -> World Sub -> Prop) :
  P x w -> yields (mret x) w P.
Proof. intros H. exists x, w. auto. Qed.

Lemma yields_bind {X Y : Type} (m : M X) (f : X -> M Y) w (P : Y -> World Sub -> Prop) :
  yields m w (fun x w' => yields (f x) w' P) -> yields (m ≫= f) w P.
Proof.
  intros (x & w' & E & y & w'' & E' & H). exists y, w''. split; [|exact H].
  unfold mbind, M_bind. now rewrite E.
Qed.

Lemma yields_mono {X : Type} (m : M X) w (P Q : X -> World Sub -> Prop) :
  yields m w P -> (forall x w', P x w' -> Q x w') -> yields m w Q.
Proof. intros (x & w' & E & H) I. exists x, w'. auto. Qed.

Lemma yields_lift {X : Type} (r : result X) (x : X) w (P : X -> World Sub -> Prop) :
  r = Ok x -> P x w -> yields (lift r) w P.
Proof. intros -> H. exists x, w. auto. Qed.

Lemma yields_get w r v (P : MPArray -> World Sub -> Prop) :
  holds w r v -> P v w -> yields (get_mpa r) w P.
Proof. intros H HP. exists v, w. split; [|exact HP]. unfold get_mpa. now rewrite H. Qed.

(** The store after allocating [v]. *)
Definition push w v : World Sub := mkWorld (mpas w ++ [v]) (pylists w).

Lemma ext_push w v : ext w (push w v).
Proof. split; [now apply prefix_app_r | reflexivity]. Qed.

Lemma holds_push w v : holds (push w v) (length (mpas w)) v.
Proof. unfold holds, push. cbn. now rewrite lookup_app_r, Nat.sub_diag by lia. Qed.

Lemma yields_new w v (P : loc -> World Sub -> Prop) :
  P (length (mpas w)) (push w v) -> yields (new_mpa v) w P.
Proof. intros H. eexists _, _. split; [reflexivity | exact H]. Qed.

(** Writing to an object allocated after [w0] keeps [w0]'s objects. *)
Lemma ext_set w0 w r v :
  ext w0 w -> length (mpas w0) <= r ->
  ext w0 (mkWorld (<[r := v]> (mpas w)) (pylists w)).
Proof.
  intros [[k E] L] H. split; [|exact L]. cbn. rewrite E.
  rewrite insert_app_r_alt by exact H. now apply prefix_app_r.
Qed.

Lemma holds_set w r v v0 :
  holds w r v0 -> holds (mkWorld (<[r := v]> (mpas w)) (pylists w)) r v.
Proof. intros H. unfold holds. cbn. apply list_lookup_insert_eq. eapply lookup_lt_Some, H. Qed.

Lemma holds_set_ne w r r' v v' :
  r <> r' -> holds w r' v' -> holds (mkWorld (<[r := v]> (mpas w)) (pylists w)) r' v'.
Proof. intros N H. unfold holds. cbn. now rewrite list_lookup_insert_ne. Qed.

(** A value produced for the caller: the address is new with respect to
    [w0], and holds [v]. *)
Definition made w0 v (r : loc) w : Prop :=
  ext w0 w /\ length (mpas w0) <= r /\ holds w r v.

Lemma yields_dot w0 w a b va vb (P : loc -> World Sub -> Prop) :
  holds w a va -> holds w b vb ->
  (forall r w', ext w w' -> length (mpas w) <= r -> holds w' r (mpa_dot va vb) -> P r w') ->
  yields (mp_dot a b) w P.
Proof.
  intros Ha Hb H. unfold mp_dot.
  apply yields_bind. eapply yields_get; [exact Ha|].
  apply yields_bind. eapply yields_get; [exact Hb|].
  apply yields_new. apply H; [apply ext_push | lia | apply holds_push].
Qed.

(** ** Normalization and compression *)

(** The objects [_normalize] allocates for an object that holds [c]. *)
Definition normalize_garbage (method : string) (c : MPArray) : list MPArray :=
  let g1 := if String.eqb method "pmps" then [mpa_truediv c (mpa_norm c)] else [] in
  let c1 := if String.eqb method "pmps" then mpa_truediv c (mpa_norm c) else c in
  let g2 := if String.eqb method "mpo" then [mpa_truediv c1 (mpa_trace c1)] else [] in
  g1 ++ g2.

(** [_normalize] returns nothing and changes no object: it only adds the
    quotients it computes to the store. *)
Lemma normalize_run w state method c :
  holds w state c ->
  _normalize state method w =
    (Ok tt, mkWorld (mpas w ++ normalize_garbage method c) (pylists w)).
Proof.
  intros H. unfold _normalize, normalize_garbage, mp_norm, mp_trace, mp_truediv, get_mpa, new_mpa.
  unfold holds in H. unfold mbind, M_bind, mret, M_ret.
  destruct (String.eqb method "pmps"), (String.eqb method "mpo"); cbn; rewrite ?H; cbn.
  - rewrite lookup_app_r, Nat.sub_diag by lia. cbn.
    rewrite lookup_app_r, Nat.sub_diag by lia. cbn. now rewrite <- app_assoc.
  - reflexivity.
  - reflexivity.
  - now rewrite app_nil_r; destruct w.
Qed.

Lemma compress_run w a kw v :
  holds w a v ->
  compress a kw w =
    (Ok (snd (mpa_compress kw v)),
     mkWorld (<[a := fst (mpa_compress kw v)]> (mpas w)) (pylists w)).
Proof.
  intros H. unfold compress, get_mpa, set_mpa, mbind, M_bind, mret, M_ret.
  rewrite H. now destruct (mpa_compress kw v).
Qed.

(** What an object holds after [compress(relerr=1e-20)]. *)
Definition squeezed (v : MPArray) : MPArray := fst (mpa_compress relerr_1e_20 v).

(** The store after [_compress(state, method)] on an object that holds [v]. *)
Definition after_compress w state method v : World Sub :=
  mkWorld (<[state := squeezed v]> (mpas w) ++ normalize_garbage method (squeezed v))
          (pylists w).

Lemma _compress_run w state method v :
  holds w state v ->
  _compress state method w = (Ok tt, after_compress w state method v).
Proof.
  intros H. unfold _compress. unfold mbind at 1. unfold M_bind.
  rewrite (compress_run _ _ _ _ H).
  erewrite normalize_run; [reflexivity|]. eapply holds_set, H.
Qed.

Lemma ext_after_compress w0 w state method v :
  ext w0 w -> length (mpas w0) <= state ->
  ext w0 (after_compress w state method v).
Proof.
  intros E L. destruct (ext_set w0 w state (squeezed v) E L) as [P Q].
  split; [|exact Q]. cbn in *. etrans; [exact P|]. now apply prefix_app_r.
Qed.

Lemma holds_after_compress w state method v :
  holds w state v -> holds (after_compress w state method v) state (squeezed v).
Proof.
  intros H. unfold holds, after_compress. cbn.
  rewrite lookup_app_l by (rewrite length_insert; eapply lookup_lt_Some, H).
  apply list_lookup_insert_eq. eapply lookup_lt_Some, H.
Qed.


Lemma yields_eq {X : Type} (m : M X) w (x : X) w' (P : X -> World Sub -> Prop) :
  m w = (Ok x, w') -> P x w' -> yields m w P.
Proof. intros E H. exists x, w'. auto. Qed.

Lemma made_ext w0 w1 v r w : ext w0 w1 -> made w1 v r w -> made w0 v r w.
Proof.
  intros E (E' & L & H). split; [eapply ext_trans; eauto|]. split; [|exact H].
  apply ext_length in E. lia.
Qed.

Lemma yields_made_bind {Y : Type} (m : M loc) (f : loc -> M Y) w v
    (P : Y -> World Sub -> Prop) :
  yields m w (made w v) ->
  (forall r w', made w v r w' -> yields (f r) w' P) ->
  yields (m ≫= f) w P.
Proof. intros Hm Hf. apply yields_bind. eapply yields_mono; [exact Hm|]. exact Hf. Qed.

Lemma mp_dot_made w a b va vb :
  holds w a va -> holds w b vb -> yields (mp_dot a b) w (made w (mpa_dot va vb)).
Proof. intros Ha Hb. eapply yields_dot; eauto. intros r w' E L H. now split. Qed.

Lemma mp_eye_made w sites ldim : yields (mp_eye sites ldim) w (made w (mpa_eye sites ldim)).
Proof.
  apply yields_new. split; [apply ext_push|]. split; [lia | apply holds_push].
Qed.

Lemma mapW_get w (rs : list loc) (vs : list MPArray) :
  Forall2 (holds w) rs vs -> mapW get_mpa rs w = (Ok vs, w).
Proof.
  induction 1 as [|r v rs vs H _ IH]; [reflexivity|].
  cbn [mapW]. unfold mbind, M_bind, get_mpa at 1. rewrite H, IH. reflexivity.
Qed.

Lemma mp_chain_made w (rs : list loc) (vs : list MPArray) :
  Forall2 (holds w) rs vs -> vs <> [] -> yields (mp_chain rs) w (made w (mpa_chain vs)).
Proof.
  intros H Hne. unfold mp_chain. apply yields_bind.
  eapply yields_eq; [apply mapW_get; exact H|].
  destruct vs as [|v0 vs']; [congruence|].
  apply yields_new. split; [apply ext_push|]. split; [lia | apply holds_push].
Qed.

Lemma yields_mapW {X : Type} (f : X -> M loc) (val : X -> MPArray) (l : list X) w :
  (forall x w1, In x l -> yields (f x) w1 (made w1 (val x))) ->
  yields (mapW f l) w (fun rs w' => ext w w' /\ Forall2 (holds w') rs (map val l)).
Proof.
  revert w. induction l as [|x l IH]; intros w H.
  - apply yields_ret. split; [apply ext_refl | constructor].
  - cbn [mapW]. eapply yields_made_bind; [apply H; now left|].
    intros r w1 (E1 & _ & H1).
    apply yields_bind. eapply yields_mono; [apply IH; intros; apply H; now right|].
    intros rs w2 [E2 F]. apply yields_ret. split; [eapply ext_trans; eauto|].
    cbn [map]. constructor; [eapply holds_ext; eauto | exact F].
Qed.

(** ** Dense operators as networks *)

(** The shape [matrix_to_mpo] reshapes to. *)
Definition new_shape (shape : list (list nat)) : list nat :=
  flat_map (fun i => map (fun row => nth i row 0) shape) (seq 0 (length (hd [] shape))).

(** What the object returned by [matrix_to_mpo] holds. *)
Definition mpo_val (matrix : ndarray) (shape : list (list nat)) : MPArray :=
  squeezed (mpa_from_array_global (np_reshape matrix (new_shape shape))
                                  (length (hd [] shape))).

Lemma matrix_to_mpo_made w (matrix : ndarray) (shape : list (list nat)) :
  shape <> [] ->
  forallb (fun row => length row =? length (hd [] shape)) shape = true ->
  yields (matrix_to_mpo matrix shape) w (made w (mpo_val matrix shape)).
Proof.
  intros Hne Hu. destruct shape as [|row0 rest]; [congruence|].
  unfold matrix_to_mpo. apply yields_bind. eapply yields_lift; [reflexivity|].
  cbn [hd] in Hu. rewrite Hu. cbn [negb].
  apply yields_bind. unfold from_array_global. apply yields_new.
  set (v0 := mpa_from_array_global _ _).
  apply yields_bind. eapply yields_eq; [apply _compress_run, holds_push|].
  apply yields_ret. split; [|split].
  - apply ext_after_compress; [apply ext_push | lia].
  - lia.
  - apply holds_after_compress, holds_push.
Qed.


Lemma py_index_nth {X : Type} (l : list X) (i : nat) (d : X) :
  i < length l -> py_index l i = Ok (nth i l d).
Proof.
  intros H. apply py_index_ok. destruct (lookup_lt_ex l i H) as [x Hx].
  rewrite Hx. f_equal. symmetry. now apply nth_lookup_Some.
Qed.

Lemma py_last_nth {X : Type} (l : list X) (d : X) :
  l <> [] -> py_last l = Ok (nth (length l - 1) l d).
Proof.
  intros H. destruct l as [|x l' _] using rev_ind; [congruence|].
  rewrite py_last_app, length_app. cbn [length].
  replace (length l' + 1 - 1) with (length l') by lia.
  rewrite app_nth2, Nat.sub_diag by lia. reflexivity.
Qed.

Lemma enumerate_In {X : Type} (l : list X) (i : nat) (x : X) :
  In (i, x) (enumerate l) -> i < length l.
Proof. intros H. apply enumerate_lookup in H. now apply lookup_lt_Some in H. Qed.

(** ** The odd-bond and even-bond networks *)

Definition pair_shape (a b : nat) : list (list nat) := [[a; a]; [b; b]].

Definition odd_parts (dims : list nat) (us : list ndarray) : list MPArray :=
  map (fun '(i, u) => mpo_val u (pair_shape (nth (2 * i) dims 0) (nth (2 * i + 1) dims 0)))
      (enumerate us).

Definition even_parts (dims : list nat) (us : list ndarray) : list MPArray :=
  map (fun '(i, u) => mpo_val u (pair_shape (nth (2 * i + 1) dims 0) (nth (2 * i + 2) dims 0)))
      (enumerate us).

Definition last_dim (dims : list nat) : nat := nth (length dims - 1) dims 0.

(** The even-bond network with the identity on the first site in front. *)
Definition even_padded (dims : list nat) (evens : list ndarray) : MPArray :=
  mpa_chain [mpa_eye 1 (nth 0 dims 0); mpa_chain (even_parts dims evens)].

(** The two networks for an odd number of sites: the last site gets its own
    operator [t] in the odd-bond network. *)
Definition odd_net_odd (dims : list nat) (blocks : list ndarray) (t : ndarray) : MPArray :=
  mpa_chain [mpa_chain (odd_parts dims blocks);
             mpo_val t [[last_dim dims; last_dim dims]]].

(** The two networks for an even number of sites: the last site gets the
    identity in the even-bond network. *)
Definition even_net_even (dims : list nat) (evens : list ndarray) : MPArray :=
  mpa_chain [even_padded dims evens; mpa_eye 1 (last_dim dims)].

(** Both returned addresses are new and hold [vo] and [ve]. *)
Definition made2 w (vo ve : MPArray) (p : loc * loc) w' : Prop :=
  ext w w' /\ length (mpas w) <= fst p /\ length (mpas w) <= snd p /\
  holds w' (fst p) vo /\ holds w' (snd p) ve.

Lemma odd_parts_made w (dims : list nat) (us : list ndarray) :
  2 * length us <= length dims ->
  yields (mapW (fun '(i, u) =>
                  d0 ← lift (py_index dims (2 * i));
                  d1 ← lift (py_index dims (2 * i + 1));
                  matrix_to_mpo u [[d0; d0]; [d1; d1]]) (enumerate us)) w
         (fun rs w' => ext w w' /\ Forall2 (holds w') rs (odd_parts dims us)).
Proof.
  intros H. apply yields_mapW. intros [i u] w1 Hi. apply enumerate_In in Hi.
  apply yields_bind. eapply yields_lift; [apply (py_index_nth _ _ 0); lia|].
  apply yields_bind. eapply yields_lift; [apply (py_index_nth _ _ 0); lia|].
  now apply matrix_to_mpo_made.
Qed.

Lemma even_parts_made w (dims : list nat) (us : list ndarray) :
  2 * length us + 1 <= length dims ->
  yields (mapW (fun '(i, u) =>
                  d1 ← lift (py_index dims (2 * i + 1));
                  d2 ← lift (py_index dims (2 * i + 2));
                  matrix_to_mpo u [[d1; d1]; [d2; d2]]) (enumerate us)) w
         (fun rs w' => ext w w' /\ Forall2 (holds w') rs (even_parts dims us)).
Proof.
  intros H. apply yields_mapW. intros [i u] w1 Hi. apply enumerate_In in Hi.
  apply yields_bind. eapply yields_lift; [apply (py_index_nth _ _ 0); lia|].
  apply yields_bind. eapply yields_lift; [apply (py_index_nth _ _ 0); lia|].
  now apply matrix_to_mpo_made.
Qed.

Lemma parts_nonempty {X Y : Type} (f : nat * X -> Y) (us : list X) :
  us <> [] -> map f (enumerate us) <> [].
Proof.
  intros H E. apply (f_equal (@length _)) in E.
  rewrite length_map, enumerate_length in E. destruct us; [congruence | discriminate].
Qed.

(** The part of [_u_list_to_mpo] up to the first padding of the even-bond
    network. *)
Lemma u_list_to_mpo_front {Y : Type} w (dims : list nat) (blocks evens : list ndarray)
    (k : loc -> loc -> M Y) (P : Y -> World Sub -> Prop) :
  2 * length blocks <= length dims ->
  2 * length evens + 1 <= length dims ->
  blocks <> [] -> evens <> [] ->
  (forall o e w', ext w w' -> length (mpas w) <= o -> length (mpas w) <= e ->
     holds w' o (mpa_chain (odd_parts dims blocks)) ->
     holds w' e (even_padded dims evens) ->
     yields (k o e) w' P) ->
  yields (odd_parts ← mapW (fun '(i, u) =>
                  d0 ← lift (py_index dims (2 * i));
                  d1 ← lift (py_index dims (2 * i + 1));
                  matrix_to_mpo u [[d0; d0]; [d1; d1]]) (enumerate blocks);
          odd ← mp_chain odd_parts;
          even_parts ← mapW (fun '(i, u) =>
                  d1 ← lift (py_index dims (2 * i + 1));
                  d2 ← lift (py_index dims (2 * i + 2));
                  matrix_to_mpo u [[d1; d1]; [d2; d2]]) (enumerate evens);
          even ← mp_chain even_parts;
          d_first ← lift (py_index dims 0);
          e ← mp_eye 1 d_first;
          even ← mp_chain [e; even];
          k odd even) w P.
Proof.
  intros Hb He Nb Ne Hk.
  apply yields_bind. eapply yields_mono; [now apply odd_parts_made|].
  intros ops w1 [E1 F1].
  eapply yields_made_bind; [apply mp_chain_made; [exact F1 | now apply parts_nonempty]|].
  intros o w2 (E2 & L2 & H2).
  apply yields_bind. eapply yields_mono; [now apply even_parts_made|].
  intros eps w3 [E3 F3].
  eapply yields_made_bind; [apply mp_chain_made; [exact F3 | now apply parts_nonempty]|].
  intros e w4 (E4 & L4 & H4).
  apply yields_bind. eapply yields_lift; [apply (py_index_nth _ _ 0); lia|].
  eapply yields_made_bind; [apply mp_eye_made|]. intros i w5 (E5 & L5 & H5).
  eapply yields_made_bind.
  { apply mp_chain_made;
      [constructor; [exact H5|]; constructor; [|constructor]; eapply holds_ext; eauto
      | discriminate]. }
  intros e' w6 (E6 & L6 & H6).
  pose proof (ext_length _ _ E1). pose proof (ext_length _ _ E2).
  pose proof (ext_length _ _ E3). pose proof (ext_length _ _ E4).
  pose proof (ext_length _ _ E5).
  apply Hk; [| lia | lia | | exact H6].
  - repeat (eapply ext_trans; [eassumption|]). apply ext_refl.
  - eapply holds_ext; [exact H2|].
    repeat (eapply ext_trans; [eassumption|]). apply ext_refl.
Qed.


Lemma u_list_to_mpo_odd w (dims : list nat) (blocks evens : list ndarray) (t : ndarray) :
  length dims = 2 * length blocks + 1 ->
  length evens = length blocks -> blocks <> [] ->
  yields (_u_list_to_mpo dims (blocks ++ [t]) evens) w
         (made2 w (odd_net_odd dims blocks t) (even_padded dims evens)).
Proof.
  intros Hd He Nb. unfold _u_list_to_mpo.
  assert (Ne : evens <> []) by (destruct evens, blocks; cbn in *; congruence).
  assert ((length dims mod 2 =? 1) = true) as ->.
  { apply Nat.eqb_eq. rewrite Hd, Nat.add_comm, Nat.mul_comm. now rewrite Nat.Div0.mod_add. }
  apply yields_bind. apply yields_bind. eapply yields_lift; [apply py_last_app|].
  apply yields_ret. cbn beta iota. rewrite removelast_last.
  apply u_list_to_mpo_front; [lia | lia | exact Nb | exact Ne |].
  intros o e w1 E1 Lo Le Ho Hev.
  assert ((length evens <? length blocks) = false) as -> by (apply Nat.ltb_ge; lia).
  assert ((length evens =? length blocks) = true) as -> by (apply Nat.eqb_eq; lia).
  apply yields_bind. apply yields_ret.
  apply yields_bind. eapply yields_lift.
  { apply (py_last_nth _ 0). intros ->. cbn in Hd. lia. }
  fold (last_dim dims).
  eapply yields_made_bind; [now apply matrix_to_mpo_made|]. intros m w2 (E2 & L2 & H2).
  eapply yields_made_bind.
  { apply mp_chain_made;
      [constructor; [eapply holds_ext; eauto|]; constructor; [exact H2 | constructor]
      | discriminate]. }
  intros o' w3 (E3 & L3 & H3). apply yields_ret.
  pose proof (ext_length _ _ E1). pose proof (ext_length _ _ E2).
  split; [|split; [|split; [|split]]]; cbn [fst snd]; try lia.
  - eapply ext_trans; [exact E1|]. eapply ext_trans; eauto.
  - exact H3.
  - eapply holds_ext; [exact Hev|]. eapply ext_trans; eauto.
Qed.

Lemma u_list_to_mpo_even w (dims : list nat) (blocks evens : list ndarray) :
  length dims = 2 * length blocks ->
  length blocks = S (length evens) -> evens <> [] ->
  yields (_u_list_to_mpo dims blocks evens) w
         (made2 w (mpa_chain (odd_parts dims blocks)) (even_net_even dims evens)).
Proof.
  intros Hd He Ne. unfold _u_list_to_mpo.
  assert (Nb : blocks <> []) by (destruct blocks; cbn in *; congruence).
  assert ((length dims mod 2 =? 1) = false) as ->.
  { apply Nat.eqb_neq. rewrite Hd, Nat.mul_comm. now rewrite Nat.Div0.mod_mul. }
  apply yields_bind. apply yields_ret. cbn beta iota.
  apply u_list_to_mpo_front; [lia | lia | exact Nb | exact Ne |].
  intros o e w1 E1 Lo Le Ho Hev.
  assert ((length evens <? length blocks) = true) as -> by (apply Nat.ltb_lt; lia).
  apply yields_bind. eapply yields_lift.
  { apply (py_last_nth _ 0). intros ->. cbn in Hd. lia. }
  fold (last_dim dims).
  eapply yields_made_bind; [apply mp_eye_made|]. intros i w2 (E2 & L2 & H2).
  eapply yields_made_bind.
  { apply mp_chain_made;
      [constructor; [eapply holds_ext; eauto|]; constructor; [exact H2 | constructor]
      | discriminate]. }
  intros e' w3 (E3 & L3 & H3). apply yields_ret.
  pose proof (ext_length _ _ E1). pose proof (ext_length _ _ E2).
  split; [|split; [|split; [|split]]]; cbn [fst snd]; try lia.
  - eapply ext_trans; [exact E1|]. eapply ext_trans; eauto.
  - eapply holds_ext; [exact Ho|]. eapply ext_trans; eauto.
  - exact H3.
Qed.

(** The two networks [_u_list_to_mpo] builds from the lists of
    [_get_u_list], for site operators [ms] and bond operators [bs]. *)
Definition odd_net (tau : Q) (ms bs : list ndarray) : MPArray :=
  let dims := map np_len ms in
  match Nat.odd (length ms), last ms with
  | true, Some m =>
      odd_net_odd dims (odd_blocks tau ms bs) (expm (np_scale (odd_coef tau) m))
  | _, _ => mpa_chain (odd_parts dims (odd_blocks tau ms bs))
  end.

Definition even_net (tau : Q) (ms bs : list ndarray) : MPArray :=
  let dims := map np_len ms in
  if Nat.odd (length ms)
  then even_padded dims (even_blocks tau bs)
  else even_net_even dims (even_blocks tau bs).

(** The order-2 slice: odd, even, odd. *)
Definition slice2 (tau : Q) (ms bs : list ndarray) : MPArray :=
  mpa_dot (mpa_dot (odd_net tau ms bs) (even_net tau ms bs)) (odd_net tau ms bs).

Lemma u_list_to_mpo_made w (tau : Q) (ms bs : list ndarray) :
  length ms = S (length bs) -> 3 <= length ms ->
  yields (_u_list_to_mpo (map np_len ms) (u_odd_list tau ms bs) (even_blocks tau bs)) w
         (made2 w (odd_net tau ms bs) (even_net tau ms bs)).
Proof.
  intros Hlen H2.
  pose proof (odd_blocks_length tau ms bs Hlen) as Lo.
  pose proof (even_blocks_length tau bs) as Le.
  rewrite stride2_length in Lo. rewrite stride2_tail_length in Le.
  pose proof (Nat.div2_odd (length bs)) as Db.
  pose proof (Nat.div2_odd (S (length bs))) as Dm.
  rewrite Nat.odd_succ, <- Nat.negb_odd in Dm.
  unfold u_odd_list, odd_net, even_net, trailing.
  destruct ms as [|m ms' _] using rev_ind; [discriminate|]. rewrite last_snoc.
  rewrite Hlen, Nat.odd_succ, <- Nat.negb_odd.
  rewrite Hlen in H2.
  destruct (Nat.odd (length bs)); cbn [negb Nat.b2n] in *.
  - apply u_list_to_mpo_even; rewrite ?length_map; try lia.
    intros E. rewrite E in Le. cbn [length] in Le. lia.
  - apply u_list_to_mpo_odd; rewrite ?length_map; try lia.
    intros E. rewrite E in Lo. cbn [length] in Lo. lia.
Qed.


(** ** Hamiltonian descriptions *)

(** [hs] describes a chain of [n] sites with site operators [ms] and bond
    operators [bs]: either one site operator and one bond operator, or the
    two lists. *)
Inductive describes : list (pyobj Sub) -> nat -> list ndarray -> list ndarray -> Prop :=
| describes_pair (a b : ndarray) (n : nat) :
    1 <= n ->
    describes [Ndarray a; Ndarray b] n (replicate n a) (replicate (n - 1) b)
| describes_lists (ms bs : list ndarray) :
    length ms = S (length bs) ->
    describes [PyList (map Ndarray ms); PyList (map Ndarray bs)] (length ms) ms bs.

Lemma map_replicate {X Y : Type} (f : X -> Y) (n : nat) (x : X) :
  map f (replicate n x) = replicate n (f x).
Proof. induction n as [|n IH]; [reflexivity|]. cbn. now rewrite IH. Qed.

Lemma describes_length hs n ms bs :
  describes hs n ms bs -> length ms = n /\ length ms = S (length bs).
Proof.
  destruct 1 as [a b n H|ms bs H]; [|auto].
  rewrite !length_replicate. lia.
Qed.

Lemma get_h_list_describes hs n ms bs :
  describes hs n ms bs ->
  _get_h_list hs (Z.of_nat n) = Ok (PyList (map Ndarray ms), PyList (map Ndarray bs)).
Proof.
  destruct 1 as [a b n H|ms bs H].
  - unfold _get_h_list. cbn. rewrite !map_replicate.
    rewrite Nat2Z.id. replace (Z.of_nat n - 1)%Z with (Z.of_nat (n - 1)) by lia.
    now rewrite Nat2Z.id.
  - unfold _get_h_list. cbn. rewrite !length_map, Z.eqb_refl. cbn.
    rewrite H. replace (Z.of_nat (S (length bs)) - 1)%Z with (Z.of_nat (length bs)) by lia.
    now rewrite Z.eqb_refl.
Qed.

(** ** The slice composer *)

Lemma slice2_of_nets w (o e : loc) (vo ve : MPArray) :
  holds w o vo -> holds w e ve ->
  yields (u ← mp_dot o e; mp_dot u o) w (made w (mpa_dot (mpa_dot vo ve) vo)).
Proof.
  intros Ho He.
  eapply yields_made_bind; [apply mp_dot_made; eassumption|]. intros u w1 (E1 & L1 & H1).
  eapply yields_mono; [apply mp_dot_made; [exact H1 | eapply holds_ext; eauto]|].
  intros r w2 M. eapply made_ext; eauto.
Qed.

Lemma trotter_two_made w hs n ms bs (tau : Q) :
  describes hs n ms bs -> 3 <= n ->
  yields (_trotter_two hs tau (Z.of_nat n)) w (made w (slice2 tau ms bs)).
Proof.
  intros D Hn. destruct (describes_length _ _ _ _ D) as [L1 L2].
  unfold _trotter_two.
  apply yields_bind. eapply yields_lift; [apply get_h_list_describes; exact D|]. cbn beta iota.
  apply yields_bind. eapply yields_lift; [apply get_u_list_eq; exact L2|]. cbn beta iota.
  apply yields_bind. eapply yields_mono; [apply u_list_to_mpo_made; [exact L2 | lia]|].
  intros [o e] w1 (E1 & Lo & Le & Ho & He). cbn [fst snd] in *.
  eapply yields_mono; [apply slice2_of_nets; eassumption|].
  intros r w2 M. eapply made_ext; eauto.
Qed.

(** The three increments of the order-4 scheme. *)
Definition s1 (tau : Q) : Q := (tau / (4 - cbrt4))%Q.
Definition s3 (tau : Q) : Q := (tau - 4 * tau / (4 - cbrt4))%Q.

(** The order-4 slice: [U1 U1 U3], compressed, then [U1] and [U1] again,
    where [U1] and [U3] are the order-2 slices for [s1] and [s3]. *)
Definition slice4 (tau : Q) (ms bs : list ndarray) : MPArray :=
  let U1 := slice2 (s1 tau) ms bs in
  let U3 := slice2 (s3 tau) ms bs in
  mpa_dot (mpa_dot (squeezed (mpa_dot (mpa_dot U1 U1) U3)) U1) U1.

Lemma trotter_four_made w hs n ms bs (tau : Q) :
  describes hs n ms bs -> 3 <= n ->
  yields (_trotter_four hs tau (Z.of_nat n)) w (made w (slice4 tau ms bs)).
Proof.
  intros D Hn. destruct (describes_length _ _ _ _ D) as [L1 L2].
  unfold _trotter_four.
  apply yields_bind. eapply yields_lift; [apply get_h_list_describes; exact D|]. cbn beta iota.
  apply yields_bind. eapply yields_lift.
  { cbn [mapR]. rewrite !get_u_list_eq by exact L2. reflexivity. }
  fold (s1 tau) (s3 tau).
  (* the three pairs of networks *)
  apply yields_bind. cbn [mapW].
  apply yields_bind. eapply yields_mono; [apply u_list_to_mpo_made; [exact L2 | lia]|].
  intros [o1 e1] w1 (E1 & _ & _ & Ho1 & He1). cbn [fst snd] in *.
  apply yields_bind. apply yields_bind.
  eapply yields_mono; [apply u_list_to_mpo_made; [exact L2 | lia]|].
  intros [o2 e2] w2 (E2 & _ & _ & Ho2 & He2). cbn [fst snd] in *.
  apply yields_bind. apply yields_bind.
  eapply yields_mono; [apply u_list_to_mpo_made; [exact L2 | lia]|].
  intros [o3 e3] w3 (E3 & _ & _ & Ho3 & He3). cbn [fst snd] in *.
  apply yields_bind. do 4 apply yields_ret.
  (* the three order-2 slices *)
  apply yields_bind. cbn [mapW].
  eapply yields_made_bind.
  { apply slice2_of_nets; eapply holds_ext; eauto; eapply ext_trans; eauto. }
  intros p0 w4 (E4 & _ & H4).
  apply yields_bind. eapply yields_made_bind.
  { apply slice2_of_nets; eapply holds_ext; eauto; eapply ext_trans; eauto. }
  intros p1 w5 (E5 & _ & H5).
  apply yields_bind. eapply yields_made_bind.
  { apply slice2_of_nets; eapply holds_ext; eauto;
      repeat (eapply ext_trans; [eassumption|]); apply ext_refl. }
  intros p2 w6 (E6 & _ & H6).
  apply yields_bind. do 4 apply yields_ret.
  fold (slice2 (s1 tau) ms bs) in H4, H5. fold (slice2 (s3 tau) ms bs) in H6.
  assert (H4' : holds w6 p0 (slice2 (s1 tau) ms bs)).
  { eapply holds_ext; [exact H4|]. eapply ext_trans; eauto. }
  assert (H5' : holds w6 p1 (slice2 (s1 tau) ms bs)) by (eapply holds_ext; eauto).
  (* the composition *)
  apply yields_bind. eapply yields_lift; [reflexivity|].
  apply yields_bind. eapply yields_lift; [reflexivity|].
  eapply yields_made_bind; [apply mp_dot_made; eassumption|]. intros u1 w7 (E7 & L7 & H7).
  apply yields_bind. eapply yields_lift; [reflexivity|].
  eapply yields_made_bind; [apply mp_dot_made; [exact H7 | eapply holds_ext; eauto]|].
  intros u2 w8 (E8 & L8 & H8).
  apply yields_bind. eapply yields_eq; [apply _compress_run, H8|].
  set (w9 := after_compress _ _ _ _).
  assert (E9 : ext w7 w9) by (apply ext_after_compress; assumption).
  assert (H9 : holds w9 u2 (squeezed (mpa_dot (mpa_dot (slice2 (s1 tau) ms bs)
                                                      (slice2 (s1 tau) ms bs))
                                             (slice2 (s3 tau) ms bs))))
    by (apply holds_after_compress, H8).
  assert (H4'' : holds w9 p0 (slice2 (s1 tau) ms bs)).
  { eapply holds_ext; [exact H4'|]. eapply ext_trans; eauto. }
  assert (H5'' : holds w9 p1 (slice2 (s1 tau) ms bs)).
  { eapply holds_ext; [exact H5'|]. eapply ext_trans; eauto. }
  apply yields_bind. eapply yields_lift; [reflexivity|].
  eapply yields_made_bind; [apply mp_dot_made; [exact H9 | exact H5'']|].
  intros u3 w10 (E10 & L10 & H10).
  apply yields_bind. eapply yields_lift; [reflexivity|].
  eapply yields_mono; [apply mp_dot_made; [exact H10 | eapply holds_ext; eauto]|].
  intros r w11 (E11 & L11 & H11).
  pose proof (ext_length _ _ E1). pose proof (ext_length _ _ E2).
  pose proof (ext_length _ _ E3). pose proof (ext_length _ _ E4).
  pose proof (ext_length _ _ E5). pose proof (ext_length _ _ E6).
  pose proof (ext_length _ _ E7). pose proof (ext_length _ _ E9).
  pose proof (ext_length _ _ E10).
  split; [|split; [lia | exact H11]].
  eapply ext_trans; [exact E1|]. eapply ext_trans; [exact E2|].
  eapply ext_trans; [exact E3|]. eapply ext_trans; [exact E4|].
  eapply ext_trans; [exact E5|]. eapply ext_trans; [exact E6|].
  eapply ext_trans; [exact E7|]. eapply ext_trans; [exact E9|].
  eapply ext_trans; eauto.
Qed.


Lemma trotter_slice_made w hs n ms bs (tau : Q) (order : Z) :
  describes hs n ms bs -> 3 <= n -> order = 2%Z \/ order = 4%Z ->
  yields (_trotter_slice hs tau (Z.of_nat n) order) w
         (made w (if (order =? 2)%Z then slice2 tau ms bs else slice4 tau ms bs)).
Proof.
  intros D Hn [-> | ->]; unfold _trotter_slice; cbn.
  - now apply trotter_two_made.
  - now apply trotter_four_made.
Qed.

(** ** The evolution loop *)

(** One application of the propagator that holds [uv] to a state that holds
    [s], as the loop does it: [U s U^dagger] for 'mpo', [U s] otherwise. *)
Definition propagate (uv : MPArray) (method : string) (s : MPArray) : MPArray :=
  if String.eqb method "mpo"
  then mpa_dot (mpa_dot uv s) (mpa_conj (mpa_T uv))
  else mpa_dot uv s.

(** What the state object holds at the end of one pass through the loop. *)
Definition step_val (uv : MPArray) (method : string) (compr : Compr) (s : MPArray) : MPArray :=
  fst (mpa_compress compr (propagate uv method s)).

(** What the state object holds after [k] passes. *)
Definition evolved (uv : MPArray) (method : string) (compr : Compr) (s : MPArray)
    (k : nat) : MPArray :=
  Nat.iter k (step_val uv method compr) s.

(** The overlap that the compression at the end of one pass returns for a
    state that holds [s], and [accumulated_overlap] after [k] passes. *)
Definition overlap_of (uv : MPArray) (method : string) (compr : Compr) (s : MPArray) : Q :=
  snd (mpa_compress compr (propagate uv method s)).

Fixpoint overlap_acc (uv : MPArray) (method : string) (compr : Compr) (s : MPArray)
    (k : nat) : Q :=
  match k with
  | 0 => 1
  | S k' => overlap_acc uv method compr s k'
            * overlap_of uv method compr (evolved uv method compr s k')
  end.

(** The double [tau ** 3]. *)
Definition cube_of (tau : Q) : Q := round64 (tau ^ 3).

(** [accumulated_trotter_error] after [k] passes: [k] float additions of
    [tau ** 3], starting from 0. *)
Definition trot_acc (tau : Q) (k : nat) : Q :=
  Nat.iter k (fun x => round64 (x + cube_of tau))%Q 0%Q.

(** The loop indices at which an entry is recorded. *)
Definition hit (l : list pynum) (i : nat) : bool :=
  existsb (num_eqb (PInt (Z.of_nat i + 1))) l.

Definition hits (l : list pynum) (a k : nat) : list nat := List.filter (hit l) (seq a k).

(** The recorded time for loop index [i]: the float product
    [tau * (i + 1)]. *)
Definition time_val (tau : Q) (i : nat) : Q := round64 (tau * inject_Z (Z.of_nat i + 1)).

Definition time_at (tau : Q) (i : nat) : pynum := PFloat (time_val tau i).

(** The float operations of the first [K] passes return doubles. *)
Definition loop_safe (tau : Q) (K : nat) : Prop :=
  py_pow3 tau = Ok (cube_of tau) /\
  forall i, i < K ->
    py_add (trot_acc tau i) (cube_of tau) = Ok (trot_acc tau (S i)) /\
    py_mul (PFloat tau) (PInt (Z.of_nat i + 1)) = Ok (time_val tau i).

Definition dagger_ok w (method : string) (u_dagger : option loc) (uv : MPArray) : Prop :=
  String.eqb method "mpo" = true ->
  exists ud, u_dagger = Some ud /\ holds w ud (mpa_conj (mpa_T uv)).

Lemma dagger_ok_ext w w' method u_dagger uv :
  dagger_ok w method u_dagger uv -> ext w w' -> dagger_ok w' method u_dagger uv.
Proof.
  intros H E Hm. destruct (H Hm) as (ud & -> & Hud). exists ud. split; [reflexivity|].
  eapply holds_ext; eauto.
Qed.

Lemma loop_body_full w (u ts : loc) (u_dagger : option loc) (tau : Q) (method : string)
    (compr : Compr) (i : nat) (v : loop_vars) (uv sv : MPArray) (l : list pynum)
    (acc t : Q) :
  holds w u uv -> dagger_ok w method u_dagger uv ->
  holds w (lv_state v) sv -> pylists w !! ts = Some l ->
  py_pow3 tau = Ok (cube_of tau) ->
  py_add (lv_trotter v) (cube_of tau) = Ok acc ->
  py_mul (PFloat tau) (PInt (Z.of_nat i + 1)) = Ok t ->
  yields (loop_body u u_dagger ts tau method compr i v) w
    (fun (v' : loop_vars) w' =>
       ext w w' /\ length (mpas w) <= lv_state v' /\
       holds w' (lv_state v') (step_val uv method compr sv) /\
       lv_overlap v' = (lv_overlap v * overlap_of uv method compr sv)%Q /\
       lv_trotter v' = acc /\
       lv_trace v' =
         if hit l i
         then mkTrace (tr_times (lv_trace v) ++ [PFloat t])
                      (tr_states (lv_trace v) ++ [lv_state v'])
                      (tr_compr_errors (lv_trace v) ++ [PFloat (lv_overlap v')])
                      (tr_trot_errors (lv_trace v) ++ [PFloat acc])
         else lv_trace v).
Proof.
  intros Hu Hd Hs Hl Hc Ha Ht. unfold loop_body.
  eapply yields_made_bind; [apply mp_dot_made; eassumption|]. intros s1 w1 (E1 & L1 & H1).
  apply yields_bind.
  assert (Hp : yields (if String.eqb method "mpo"
                       then match u_dagger with
                            | Some ud => mp_dot s1 ud
                            | None => raise UnboundLocalError
                            end
                       else mret s1) w1 (made w (propagate uv method sv))).
  { unfold propagate. destruct (String.eqb method "mpo") eqn:Em.
    - destruct (Hd Em) as (ud & -> & Hud).
      eapply yields_mono; [apply mp_dot_made; [exact H1 | eapply holds_ext; eauto]|].
      intros r w2 M. eapply made_ext; eauto.
    - apply yields_ret. split; [exact E1|]. split; [exact L1 | exact H1]. }
  eapply yields_mono; [exact Hp|]. clear Hp. intros s2 w2 (E2 & L2 & H2).
  apply yields_bind. eapply yields_eq; [apply normalize_run, H2|].
  set (w3 := mkWorld _ _).
  assert (H3 : holds w3 s2 (propagate uv method sv)).
  { unfold holds, w3. cbn. rewrite lookup_app_l; [exact H2 | eapply lookup_lt_Some, H2]. }
  apply yields_bind. eapply yields_eq; [apply compress_run, H3|].
  set (w4 := mkWorld _ _).
  assert (E4 : ext w w4).
  { apply ext_set; [|exact L2]. destruct E2 as [P Q]. split; [|exact Q].
    unfold w3. cbn. etrans; [exact P|]. now apply prefix_app_r. }
  apply yields_bind. eapply yields_lift; [exact Hc|].
  apply yields_bind. eapply yields_lift; [exact Ha|].
  apply yields_bind. eapply yields_eq.
  { unfold get_list. cbn. destruct E2 as [_ Q]. rewrite Q, Hl. reflexivity. }
  fold (hit l i). destruct (hit l i).
  - apply yields_bind. eapply yields_lift; [exact Ht|].
    apply yields_ret. cbn [lv_state lv_trotter lv_trace lv_overlap].
    split; [exact E4|]. split; [exact L2|]. split; [eapply holds_set, H3|].
    repeat (split; [reflexivity|]). reflexivity.
  - apply yields_ret. cbn [lv_state lv_trotter lv_trace lv_overlap].
    split; [exact E4|]. split; [exact L2|]. split; [eapply holds_set, H3|].
    repeat (split; [reflexivity|]). reflexivity.
Qed.

Lemma hits_succ (l : list pynum) (a k : nat) :
  hits l a (S k) = (if hit l a then [a] else []) ++ hits l (S a) k.
Proof. unfold hits. cbn [seq List.filter]. now destruct (hit l a). Qed.

Lemma holds_all_lt w (rs : list loc) (vals : list MPArray) :
  Forall2 (holds w) rs vals -> Forall (fun r => r < length (mpas w)) rs.
Proof.
  induction 1 as [|r x rs vals H _ IH]; constructor; [|exact IH].
  eapply holds_lt, H.
Qed.

Lemma holds_all_ext w w' (rs : list loc) (vals : list MPArray) :
  Forall2 (holds w) rs vals -> ext w w' -> Forall2 (holds w') rs vals.
Proof.
  intros F E. eapply Forall2_impl; [exact F|]. intros r x Hr. eapply holds_ext; eauto.
Qed.

Lemma NoDup_snoc_fresh (rs : list loc) (r bound : nat) :
  NoDup rs -> Forall (fun x => x < bound) rs -> bound <= r -> NoDup (rs ++ [r]).
Proof.
  intros N F L. apply NoDup_app. split; [exact N|]. split.
  - intros x Hx Hr. apply list_elem_of_singleton in Hr. subst x.
    rewrite Forall_forall in F. specialize (F r Hx). lia.
  - apply NoDup_singleton.
Qed.

Lemma for_each_full (u ts : loc) (u_dagger : option loc) (tau : Q) (method : string)
    (compr : Compr) (uv s0 : MPArray) (l : list pynum) (k : nat) :
  forall (a : nat) (v : loop_vars) w (vals : list MPArray),
  loop_safe tau (a + k) ->
  holds w u uv -> dagger_ok w method u_dagger uv ->
  holds w (lv_state v) (evolved uv method compr s0 a) ->
  pylists w !! ts = Some l ->
  lv_trotter v = trot_acc tau a ->
  lv_overlap v = overlap_acc uv method compr s0 a ->
  Forall2 (holds w) (tr_states (lv_trace v)) vals ->
  NoDup (tr_states (lv_trace v)) ->
  yields (for_each (loop_body u u_dagger ts tau method compr) (seq a k) v) w
    (fun (v' : loop_vars) w' =>
       ext w w' /\
       tr_times (lv_trace v') = tr_times (lv_trace v) ++ map (time_at tau) (hits l a k) /\
       tr_trot_errors (lv_trace v') =
         tr_trot_errors (lv_trace v)
           ++ map (fun i => PFloat (trot_acc tau (S i))) (hits l a k) /\
       tr_compr_errors (lv_trace v') =
         tr_compr_errors (lv_trace v)
           ++ map (fun i => PFloat (overlap_acc uv method compr s0 (S i))) (hits l a k) /\
       (exists fresh : list loc,
          tr_states (lv_trace v') = tr_states (lv_trace v) ++ fresh /\
          Forall (fun r => length (mpas w) <= r) fresh) /\
       NoDup (tr_states (lv_trace v')) /\
       Forall2 (holds w') (tr_states (lv_trace v'))
               (vals ++ map (fun i => evolved uv method compr s0 (S i)) (hits l a k))).
Proof.
  induction k as [|k IH]; intros a v w vals Safe Hu Hd Hs Hl Ht Ho Hv Hn.
  - apply yields_ret. unfold hits. cbn. rewrite !app_nil_r.
    split; [apply ext_refl|]. repeat (split; [reflexivity|]).
    split; [exists []; split; [now rewrite app_nil_r | constructor]|]. auto.
  - cbn [seq for_each]. apply yields_bind.
    destruct Safe as [Sc Si]. destruct (Si a ltac:(lia)) as [Sa Sm].
    eapply yields_mono.
    { eapply loop_body_full; try eassumption. rewrite Ht. exact Sa. }
    intros v1 w1 (E1 & L1 & H1 & O1 & T1 & R1).
    assert (Ho1 : lv_overlap v1 = overlap_acc uv method compr s0 (S a)).
    { rewrite O1, Ho. reflexivity. }
    eapply yields_mono.
    { apply (IH (S a) v1 w1 (vals ++ if hit l a
                                     then [evolved uv method compr s0 (S a)] else [])).
      - split; [exact Sc|]. intros i Hi. apply Si. lia.
      - eapply holds_ext; eauto.
      - eapply dagger_ok_ext; eauto.
      - exact H1.
      - destruct E1 as [_ Q]. now rewrite Q.
      - exact T1.
      - exact Ho1.
      - rewrite R1. destruct (hit l a); cbn [tr_states].
        + apply Forall2_app; [|constructor; [exact H1 | constructor]].
          eapply holds_all_ext; eauto.
        + rewrite app_nil_r. eapply holds_all_ext; eauto.
      - rewrite R1. destruct (hit l a); cbn [tr_states]; [|exact Hn].
        eapply NoDup_snoc_fresh; [exact Hn | eapply holds_all_lt; exact Hv | exact L1]. }
    intros v2 w2 (E2 & Ti & Tr & Co & (fresh & Fr & Ff) & Nd & St).
    rewrite hits_succ. split; [eapply ext_trans; eauto|].
    rewrite <- app_assoc in St.
    split; [|split; [|split; [|split; [|split; [exact Nd|]]]]].
    + rewrite Ti, R1. destruct (hit l a); cbn [tr_times map app];
        rewrite <- ?app_assoc; reflexivity.
    + rewrite Tr, R1. destruct (hit l a); cbn [tr_trot_errors map app];
        rewrite <- ?app_assoc; reflexivity.
    + rewrite Co, R1, Ho1. destruct (hit l a); cbn [tr_compr_errors map app];
        rewrite <- ?app_assoc; reflexivity.
    + exists ((if hit l a then [lv_state v1] else []) ++ fresh). split.
      * rewrite Fr, R1. destruct (hit l a); cbn [tr_states app];
          rewrite <- ?app_assoc; reflexivity.
      * apply Forall_app. split.
        -- destruct (hit l a); constructor; [exact L1 | constructor].
        -- eapply Forall_impl; [exact Ff|]. cbn. intros r Hr.
           apply ext_length in E1. lia.
    + destruct (hit l a); exact St.
Qed.

End Store.

(** ** Rounding and sorting *)

Lemma Qeq_bool_false (x y : Q) : ~ (x == y)%Q -> Qeq_bool x y = false.
Proof.
  intros H. destruct (Qeq_bool x y) eqn:E; [|reflexivity].
  apply Qeq_bool_eq in E. contradiction.
Qed.

Lemma inject_Z_nonzero (n : Z) : n <> 0%Z -> ~ (inject_Z n == 0)%Q.
Proof. intros Hn E. apply Hn. now apply inject_Z_injective. Qed.

Section Rounding.
Local Open Scope Q_scope.

Lemma py_round_cases (x : Q) : py_round x = Qfloor x \/ py_round x = (Qfloor x + 1)%Z.
Proof.
  unfold py_round. destruct (_ ?= _)%Q; auto. destruct (Z.even _); auto.
Qed.

Lemma py_round_comp (x y : Q) : x == y -> py_round x = py_round y.
Proof.
  intros E. unfold py_round. rewrite (Qfloor_comp _ _ E).
  assert (x - inject_Z (Qfloor y) == y - inject_Z (Qfloor y)) as E' by now rewrite E.
  now rewrite (Qcompare_comp _ _ E' _ _ (Qeq_refl _)).
Qed.

Lemma py_round_inject_Z (z : Z) : py_round (inject_Z z) = z.
Proof.
  unfold py_round. rewrite Qfloor_Z.
  destruct (Qcompare_spec (inject_Z z - inject_Z z) (1 # 2)) as [E|L|G];
    [exfalso; lra | reflexivity | exfalso; lra].
Qed.

Lemma py_round_mono (x y : Q) : x <= y -> (py_round x <= py_round y)%Z.
Proof.
  intros H. pose proof (Qfloor_resp_le _ _ H) as F.
  destruct (Z.eq_dec (Qfloor x) (Qfloor y)) as [E|N].
  - unfold py_round. rewrite E.
    assert (x - inject_Z (Qfloor y) <= y - inject_Z (Qfloor y)) as H' by lra.
    destruct (Qcompare_spec (x - inject_Z (Qfloor y)) (1 # 2)) as [Cx|Cx|Cx];
      destruct (Qcompare_spec (y - inject_Z (Qfloor y)) (1 # 2)) as [Cy|Cy|Cy];
      try (exfalso; lra); try lia; destruct (Z.even (Qfloor y)); lia.
  - destruct (py_round_cases x) as [-> | ->], (py_round_cases y) as [-> | ->]; lia.
Qed.

Lemma py_round_err (x : Q) :
  x - (1 # 2) <= inject_Z (py_round x) /\ inject_Z (py_round x) <= x + (1 # 2).
Proof.
  pose proof (Qfloor_le x) as L. pose proof (Qlt_floor x) as U.
  rewrite inject_Z_plus in U. change (inject_Z 1) with 1 in U.
  unfold py_round.
  destruct (Qcompare_spec (x - inject_Z (Qfloor x)) (1 # 2)) as [E|C|C].
  - destruct (Z.even _); [|rewrite inject_Z_plus; change (inject_Z 1) with 1]; lra.
  - lra.
  - rewrite inject_Z_plus. change (inject_Z 1) with 1. lra.
Qed.

Lemma py_round_near (x : Q) : Qabs (inject_Z (py_round x) - x) <= 1 # 2.
Proof. destruct (py_round_err x). apply Qabs_Qle_condition. lra. Qed.

Lemma py_round_unique (y : Q) (n : Z) :
  inject_Z n - (1 # 2) < y -> y < inject_Z n + (1 # 2) -> py_round y = n.
Proof.
  intros L U. pose proof (py_round_err y) as [A B].
  assert (n - 1 < py_round y)%Z as C.
  { rewrite Zlt_Qlt. unfold Z.sub. rewrite inject_Z_plus, inject_Z_opp.
    change (inject_Z 1) with 1. lra. }
  assert (py_round y < n + 1)%Z as D.
  { rewrite Zlt_Qlt, inject_Z_plus. change (inject_Z 1) with 1. lra. }
  lia.
Qed.

(** *** Powers of two *)

Lemma pow2_pos (e : Z) : 0 < pow2 e.
Proof. apply Qpower_0_lt. reflexivity. Qed.

Lemma pow2_add (a b : Z) : pow2 (a + b) == pow2 a * pow2 b.
Proof. apply Qpower_plus. discriminate. Qed.

Lemma pow2_le (a b : Z) : (a <= b)%Z -> pow2 a <= pow2 b.
Proof. intros H. apply Qpower_le_compat_l; [exact H | discriminate]. Qed.

Lemma pow2_lt (a b : Z) : (a < b)%Z -> pow2 a < pow2 b.
Proof. intros H. apply Qpower_lt_compat_l; [exact H | reflexivity]. Qed.

Lemma pow2_Z (k : Z) : (0 <= k)%Z -> pow2 k == inject_Z (2 ^ k).
Proof. intros H. unfold pow2. now rewrite Zpower_Qpower. Qed.

Lemma pow2_succ (e : Z) : pow2 (e + 1) == 2 * pow2 e.
Proof. rewrite pow2_add. change (pow2 1) with 2. ring. Qed.

Lemma pow2_sub (a b : Z) : pow2 (a - b) == pow2 a / pow2 b.
Proof. apply Qpower_minus. discriminate. Qed.

Lemma ilog2_spec (x : Q) : 0 < x -> pow2 (ilog2 x) <= x /\ x < pow2 (ilog2 x + 1).
Proof.
  intros Hx. destruct x as [a b]. unfold ilog2. cbn [Qnum Qden].
  assert (Ha : (0 < a)%Z).
  { unfold Qlt in Hx. cbn in Hx. lia. }
  set (la := Z.log2 a). set (lb := Z.log2 (Z.pos b)).
  pose proof (Z.log2_spec a Ha) as [A1 A2]. fold la in A1, A2.
  pose proof (Z.log2_spec (Z.pos b) eq_refl) as [B1 B2]. fold lb in B1, B2.
  assert (La : (0 <= la)%Z) by apply Z.log2_nonneg.
  assert (Lb : (0 <= lb)%Z) by apply Z.log2_nonneg.
  assert (E : a # b == inject_Z a / inject_Z (Z.pos b)) by apply Qmake_Qdiv.
  assert (PB : 0 < inject_Z (Z.pos b)) by reflexivity.
  assert (Pa : pow2 la <= inject_Z a).
  { rewrite pow2_Z by exact La. now rewrite <- Zle_Qle. }
  assert (Pa' : inject_Z a < 2 * pow2 la).
  { rewrite <- pow2_succ, pow2_Z by lia. now rewrite <- Zlt_Qlt. }
  assert (Pb : pow2 lb <= inject_Z (Z.pos b)).
  { rewrite pow2_Z by exact Lb. now rewrite <- Zle_Qle. }
  assert (Pb' : inject_Z (Z.pos b) < 2 * pow2 lb).
  { rewrite <- pow2_succ, pow2_Z by lia. now rewrite <- Zlt_Qlt. }
  pose proof (pow2_pos la) as Qa. pose proof (pow2_pos lb) as Qb.
  assert (D : pow2 (la - lb) * pow2 lb == pow2 la).
  { rewrite <- pow2_add. now replace (la - lb + lb)%Z with la by lia. }
  pose proof (pow2_pos (la - lb)) as Qd.
  set (A := inject_Z a) in *. set (B := inject_Z (Z.pos b)) in *.
  set (d := pow2 (la - lb)) in *.
  assert (X : (a # b) * B == A).
  { rewrite E. field. lra. }
  assert (U : (a # b) < 2 * d).
  { apply (Qmult_lt_r _ _ B PB). rewrite X.
    apply Qlt_le_trans with (2 * pow2 la); [exact Pa'|].
    rewrite <- D. rewrite <- Qmult_assoc. apply Qmult_le_l; [reflexivity|].
    apply Qmult_le_l; [exact Qd | exact Pb]. }
  assert (L : d < 2 * (a # b)).
  { apply (Qmult_lt_r _ _ B PB).
    apply Qlt_le_trans with (d * (2 * pow2 lb)).
    - apply Qmult_lt_l; [exact Qd | exact Pb'].
    - setoid_replace (d * (2 * pow2 lb)) with (2 * (d * pow2 lb)) using relation Qeq by ring.
      rewrite D. setoid_replace (2 * (a # b) * B) with (2 * ((a # b) * B)) using relation Qeq by ring.
      rewrite X. apply Qmult_le_l; [reflexivity | exact Pa]. }
  destruct (Qle_bool d (a # b)) eqn:C.
  - apply Qle_bool_iff in C. split; [exact C|]. now rewrite pow2_succ.
  - assert (a # b < d) as C'.
    { apply Qnot_le_lt. intros N. apply Qle_bool_iff in N. congruence. }
    replace (la - lb - 1 + 1)%Z with (la - lb)%Z by lia. split; [|exact C'].
    assert (pow2 (la - lb) == 2 * pow2 (la - lb - 1)) as D2.
    { rewrite <- pow2_succ. now replace (la - lb - 1 + 1)%Z with (la - lb)%Z by lia. }
    fold d in D2. lra.
Qed.

Lemma ilog2_unique (x : Q) (e : Z) : pow2 e <= x -> x < pow2 (e + 1) -> ilog2 x = e.
Proof.
  intros L U. assert (Hx : 0 < x) by (pose proof (pow2_pos e); lra).
  destruct (ilog2_spec x Hx) as [L' U'].
  destruct (Z.lt_trichotomy (ilog2 x) e) as [C | [C | C]]; [|exact C|].
  - exfalso. assert (pow2 (ilog2 x + 1) <= pow2 e) by (apply pow2_le; lia). lra.
  - exfalso. assert (pow2 (e + 1) <= pow2 (ilog2 x)) by (apply pow2_le; lia). lra.
Qed.

Lemma ilog2_comp (x y : Q) : 0 < x -> x == y -> ilog2 x = ilog2 y.
Proof.
  intros Hx E. destruct (ilog2_spec x Hx) as [L U].
  symmetry. apply ilog2_unique; lra.
Qed.

Lemma ilog2_mono (x y : Q) : 0 < x -> x <= y -> (ilog2 x <= ilog2 y)%Z.
Proof.
  intros Hx H. destruct (ilog2_spec x Hx) as [L U].
  destruct (ilog2_spec y) as [L' U']; [lra|].
  destruct (Z_le_gt_dec (ilog2 x) (ilog2 y)) as [C|C]; [exact C|].
  exfalso. assert (pow2 (ilog2 y + 1) <= pow2 (ilog2 x)) by (apply pow2_le; lia). lra.
Qed.

(** *** Rounding to a double *)

Lemma qexp_comp (x y : Q) : 0 < x -> x == y -> qexp x = qexp y.
Proof. intros H E. unfold qexp. now rewrite (ilog2_comp x y H E). Qed.

Lemma round_pos_comp (x y : Q) : 0 < x -> x == y -> round_pos x == round_pos y.
Proof.
  intros H E. unfold round_pos. rewrite (qexp_comp x y H E).
  rewrite (py_round_comp (x / pow2 (qexp y)) (y / pow2 (qexp y))); [reflexivity|].
  now rewrite E.
Qed.

Lemma round64_pos (x : Q) : 0 < x -> round64 x == round_pos x.
Proof.
  intros H. unfold round64. rewrite Qred_correct.
  destruct (Qcompare_spec x 0) as [E|L|G]; [lra | lra | reflexivity].
Qed.

Lemma round64_neg (x : Q) : x < 0 -> round64 x == - round_pos (- x).
Proof.
  intros H. unfold round64. rewrite Qred_correct.
  destruct (Qcompare_spec x 0) as [E|L|G]; [lra | reflexivity | lra].
Qed.

Lemma round64_zero (x : Q) : x == 0 -> round64 x == 0.
Proof.
  intros H. unfold round64. rewrite Qred_correct.
  destruct (Qcompare_spec x 0) as [E|L|G]; [reflexivity | lra | lra].
Qed.

(** Equal rationals round to the same double, in lowest terms. *)
Lemma round64_comp (x y : Q) : x == y -> round64 x = round64 y.
Proof.
  intros E. apply Qred_complete.
  destruct (Qcompare_spec x 0) as [Ex|Lx|Gx]; destruct (Qcompare_spec y 0) as [Ey|Ly|Gy];
    try lra; try reflexivity.
  - apply Qopp_comp. apply round_pos_comp; lra.
  - apply round_pos_comp; lra.
Qed.

Lemma round64_opp (x : Q) : round64 (- x) == - round64 x.
Proof.
  destruct (Q_dec x 0) as [[L|G]|E].
  - rewrite (round64_neg x L), round64_pos by lra. ring.
  - rewrite (round64_pos x G), round64_neg by lra.
    apply Qopp_comp. apply round_pos_comp; [lra | ring].
  - rewrite (round64_zero x E), round64_zero by lra. ring.
Qed.

Lemma scaled_upper (x : Q) : 0 < x -> x / pow2 (qexp x) < inject_Z (2 ^ 53).
Proof.
  intros H. destruct (ilog2_spec x H) as [_ U].
  apply Qlt_shift_div_r; [apply pow2_pos|].
  rewrite <- pow2_Z by lia. rewrite <- pow2_add.
  eapply Qlt_le_trans; [exact U|]. apply pow2_le. unfold qexp. lia.
Qed.

Lemma scaled_lower (x : Q) :
  0 < x -> (emin <= ilog2 x)%Z -> inject_Z (2 ^ 52) <= x / pow2 (qexp x).
Proof.
  intros H N. destruct (ilog2_spec x H) as [L _].
  apply Qle_shift_div_l; [apply pow2_pos|].
  rewrite <- pow2_Z by lia. rewrite <- pow2_add.
  eapply Qle_trans; [|exact L]. apply pow2_le. unfold qexp. lia.
Qed.

Lemma round_pos_nonneg (x : Q) : 0 < x -> 0 <= round_pos x.
Proof.
  intros H. unfold round_pos. apply Qmult_le_0_compat; [|apply Qlt_le_weak, pow2_pos].
  change 0 with (inject_Z 0). rewrite <- Zle_Qle.
  rewrite <- (py_round_inject_Z 0). apply py_round_mono.
  apply Qle_shift_div_l; [apply pow2_pos|]. change (inject_Z 0) with 0. lra.
Qed.

Lemma round_pos_upper (x : Q) :
  0 < x -> round_pos x <= pow2 (Z.max (ilog2 x) emin + 1).
Proof.
  intros H. unfold round_pos.
  replace (Z.max (ilog2 x) emin + 1)%Z with (53 + qexp x)%Z by (unfold qexp; lia).
  rewrite pow2_add. apply Qmult_le_compat_r; [|apply Qlt_le_weak, pow2_pos].
  rewrite (pow2_Z 53) by lia. rewrite <- Zle_Qle.
  rewrite <- (py_round_inject_Z (2 ^ 53)). apply py_round_mono.
  apply Qlt_le_weak, scaled_upper, H.
Qed.

Lemma round_pos_lower (x : Q) :
  0 < x -> (emin <= ilog2 x)%Z -> pow2 (ilog2 x) <= round_pos x.
Proof.
  intros H N. unfold round_pos.
  replace (ilog2 x) with (52 + qexp x)%Z at 1 by (unfold qexp; lia).
  rewrite pow2_add. apply Qmult_le_compat_r; [|apply Qlt_le_weak, pow2_pos].
  rewrite (pow2_Z 52) by lia. rewrite <- Zle_Qle.
  rewrite <- (py_round_inject_Z (2 ^ 52)). apply py_round_mono.
  apply scaled_lower; assumption.
Qed.

Lemma round_pos_mono (x y : Q) : 0 < x -> x <= y -> round_pos x <= round_pos y.
Proof.
  intros Hx H. assert (Hy : 0 < y) by lra.
  pose proof (ilog2_mono x y Hx H) as M.
  destruct (Z.eq_dec (qexp x) (qexp y)) as [E|N].
  - unfold round_pos. rewrite E.
    apply Qmult_le_compat_r; [|apply Qlt_le_weak, pow2_pos].
    rewrite <- Zle_Qle. apply py_round_mono.
    apply Qmult_le_compat_r; [exact H|]. apply Qlt_le_weak, Qinv_lt_0_compat, pow2_pos.
  - assert (Z.max (ilog2 x) emin < ilog2 y)%Z by (unfold qexp in N; lia).
    eapply Qle_trans; [apply round_pos_upper, Hx|].
    eapply Qle_trans; [|apply round_pos_lower; [exact Hy | lia]].
    apply pow2_le. lia.
Qed.

(** Rounding is monotone. *)
Lemma round64_mono (x y : Q) : x <= y -> round64 x <= round64 y.
Proof.
  intros H.
  destruct (Q_dec x 0) as [[Lx|Gx]|Ex]; destruct (Q_dec y 0) as [[Ly|Gy]|Ey]; try lra.
  - rewrite (round64_neg x Lx), (round64_neg y Ly).
    apply Qopp_le_compat. apply round_pos_mono; lra.
  - rewrite (round64_neg x Lx), (round64_pos y Gy).
    pose proof (round_pos_nonneg (- x)). pose proof (round_pos_nonneg y). lra.
  - rewrite (round64_neg x Lx), (round64_zero y Ey).
    pose proof (round_pos_nonneg (- x)). lra.
  - rewrite (round64_pos x Gx), (round64_pos y Gy). now apply round_pos_mono.
  - rewrite (round64_zero x Ex), (round64_pos y Gy). now apply round_pos_nonneg.
  - rewrite (round64_zero x Ex), (round64_zero y Ey). lra.
Qed.

Lemma round_pos_fix (x : Q) (m e : Z) :
  (0 < m <= 2 ^ 53)%Z -> (emin - 52 <= e)%Z -> x == inject_Z m * pow2 e ->
  round_pos x == x.
Proof.
  intros Hm He E.
  assert (Hx : 0 < x).
  { rewrite E. apply Qmult_lt_0_compat; [|apply pow2_pos].
    change 0 with (inject_Z 0). rewrite <- Zlt_Qlt. lia. }
  assert (U : x <= pow2 (53 + e)).
  { rewrite E, pow2_add. apply Qmult_le_compat_r; [|apply Qlt_le_weak, pow2_pos].
    rewrite pow2_Z by lia. rewrite <- Zle_Qle. lia. }
  destruct (ilog2_spec x Hx) as [L _].
  assert (I : (ilog2 x <= 53 + e)%Z).
  { apply Qpower_le_compat_l_inv with 2; [|reflexivity].
    fold (pow2 (ilog2 x)). fold (pow2 (53 + e)). lra. }
  destruct (Z.eq_dec (ilog2 x) (53 + e)%Z) as [Top|NTop].
  - assert (X : x == pow2 (53 + e)) by (rewrite <- Top in U |- *; lra).
    unfold round_pos, qexp. rewrite Top.
    replace (Z.max (53 + e) emin - 52)%Z with (e + 1)%Z by lia.
    rewrite (py_round_comp _ (inject_Z (2 ^ 52))).
    + rewrite py_round_inject_Z. rewrite <- pow2_Z by lia. rewrite <- pow2_add.
      rewrite X. now replace (52 + (e + 1))%Z with (53 + e)%Z by lia.
    + rewrite X. rewrite <- pow2_Z, <- pow2_sub by lia.
      now replace (53 + e - (e + 1))%Z with 52%Z by lia.
  - set (j := (e - qexp x)%Z).
    assert (J : (0 <= j)%Z) by (unfold j, qexp; lia).
    assert (S : x / pow2 (qexp x) == inject_Z (m * 2 ^ j)).
    { assert (X : x == inject_Z (m * 2 ^ j) * pow2 (qexp x)).
      { rewrite inject_Z_mult, <- (pow2_Z j) by exact J.
        rewrite <- Qmult_assoc, <- pow2_add.
        replace (j + qexp x)%Z with e by (unfold j; lia). exact E. }
      apply Qeq_trans with (inject_Z (m * 2 ^ j) * pow2 (qexp x) / pow2 (qexp x)).
      - apply Qmult_comp; [exact X | reflexivity].
      - field. pose proof (pow2_pos (qexp x)). lra. }
    unfold round_pos. rewrite (py_round_comp _ _ S), py_round_inject_Z, <- S.
    field. pose proof (pow2_pos (qexp x)). lra.
Qed.

(** A value [m * 2^e] of at most 53 significant bits is a double. *)
Lemma round64_fix (m e : Z) :
  (Z.abs m <= 2 ^ 53)%Z -> (emin - 52 <= e)%Z ->
  round64 (inject_Z m * pow2 e) == inject_Z m * pow2 e.
Proof.
  intros Hm He. pose proof (pow2_pos e) as P.
  destruct (Z.lt_trichotomy m 0) as [N | [-> | G]].
  - assert (inject_Z m < 0) by (change 0 with (inject_Z 0); rewrite <- Zlt_Qlt; lia).
    rewrite round64_neg.
    + rewrite (round_pos_fix _ (- m) e); [ring | lia | exact He |].
      rewrite inject_Z_opp. ring.
    + setoid_replace 0 with (0 * pow2 e) using relation Qeq by ring. apply Qmult_lt_r; assumption.
  - change (inject_Z 0) with 0. rewrite round64_zero; ring.
  - assert (0 < inject_Z m) by (change 0 with (inject_Z 0); rewrite <- Zlt_Qlt; lia).
    rewrite round64_pos.
    + apply (round_pos_fix _ m e); [lia | exact He | reflexivity].
    + apply Qmult_lt_0_compat; assumption.
Qed.

Lemma round_pos_err (x : Q) : 0 < x -> Qabs (round_pos x - x) <= pow2 (qexp x - 1).
Proof.
  intros H. pose proof (pow2_pos (qexp x)) as P.
  pose proof (py_round_err (x / pow2 (qexp x))) as [L U].
  assert (Hh : pow2 (qexp x - 1) == (1 # 2) * pow2 (qexp x)).
  { rewrite pow2_sub. change (pow2 1) with 2. field. }
  rewrite Hh. unfold round_pos.
  set (q := pow2 (qexp x)) in *. set (s := x / q) in *.
  set (r := inject_Z (py_round s)) in *.
  assert (D : r * q - x == (r - s) * q) by (unfold s; field; lra).
  rewrite D. apply Qabs_Qle_condition. split.
  - setoid_replace (- ((1 # 2) * q)) with ((- (1 # 2)) * q) using relation Qeq by ring.
    apply Qmult_le_compat_r; lra.
  - apply Qmult_le_compat_r; lra.
Qed.

(** From [2^emin] on, the relative error of rounding is at most [2^-53]. *)
Lemma round64_relerr (x : Q) :
  pow2 emin <= Qabs x -> Qabs (round64 x - x) <= pow2 (-53) * Qabs x.
Proof.
  assert (K : forall y, 0 < y -> pow2 emin <= y ->
              Qabs (round_pos y - y) <= pow2 (-53) * y).
  { intros y Hy N. eapply Qle_trans; [apply round_pos_err, Hy|].
    destruct (ilog2_spec y Hy) as [L _].
    assert (I : (emin <= ilog2 y)%Z).
    { destruct (Z_le_gt_dec emin (ilog2 y)) as [C|C]; [exact C|]. exfalso.
      destruct (ilog2_spec y Hy) as [_ U].
      assert (pow2 (ilog2 y + 1) <= pow2 emin) by (apply pow2_le; lia). lra. }
    replace (qexp y - 1)%Z with (-53 + ilog2 y)%Z by (unfold qexp; lia).
    rewrite pow2_add. apply Qmult_le_l; [apply pow2_pos | exact L]. }
  intros N. pose proof (pow2_pos emin) as P.
  destruct (Q_dec x 0) as [[L|G]|E].
  - rewrite (Qabs_neg x) in * by lra. rewrite (round64_neg x L).
    setoid_replace (- round_pos (- x) - x) with (- (round_pos (- x) - - x)) using relation Qeq by ring.
    rewrite Qabs_opp. apply K; lra.
  - rewrite (Qabs_pos x) in * by lra. rewrite (round64_pos x G). apply K; lra.
  - exfalso. rewrite E in N. change (Qabs 0) with 0 in N. lra.
Qed.

Lemma round64_0 : round64 0 == 0.
Proof. apply round64_zero. reflexivity. Qed.


Lemma round64_nonpos (x : Q) : x <= 0 -> round64 x <= 0.
Proof. intros H. rewrite <- round64_0. now apply round64_mono. Qed.

Lemma round64_pow2 (e : Z) : (emin - 52 <= e)%Z -> round64 (pow2 e) == pow2 e.
Proof.
  intros H. pose proof (round64_fix 1 e ltac:(lia) H) as F.
  assert (E : inject_Z 1 * pow2 e == pow2 e) by (change (inject_Z 1) with 1; ring).
  rewrite <- E at 2. rewrite <- F. now rewrite (round64_comp _ _ E).
Qed.

Lemma round64_int (z : Z) : (Z.abs z <= 2 ^ 53)%Z -> round64 (inject_Z z) == inject_Z z.
Proof.
  intros H. pose proof (round64_fix z 0 H ltac:(unfold emin; lia)) as F.
  assert (E : inject_Z z * pow2 0 == inject_Z z) by (change (pow2 0) with 1; ring).
  rewrite <- E at 2. rewrite <- F. now rewrite (round64_comp _ _ E).
Qed.

Lemma round64_upper (x b : Q) : x <= b -> round64 b == b -> round64 x <= b.
Proof. intros H F. rewrite <- F. now apply round64_mono. Qed.

Lemma round64_lower (x b : Q) : b <= x -> round64 b == b -> b <= round64 x.
Proof. intros H F. rewrite <- F. now apply round64_mono. Qed.

Lemma round64_abs_le (x b : Q) : Qabs x <= b -> round64 b == b -> Qabs (round64 x) <= b.
Proof.
  intros H F. apply Qabs_Qle_condition in H. destruct H as [L U].
  apply Qabs_Qle_condition. split.
  - assert (round64 (- x) <= b) as A by (apply round64_upper; [lra | exact F]).
    rewrite round64_opp in A. lra.
  - now apply round64_upper.
Qed.


(** *** Float operations that return *)

Lemma fl_or_ok (e : exn) (x b : Q) :
  Qabs x <= b -> round64 b == b -> b < pow2 1024 -> fl_or e x = Ok (round64 x).
Proof.
  intros H F B. unfold fl_or, overflows.
  pose proof (round64_abs_le x b H F) as A.
  destruct (Qle_bool (pow2 1024) (Qabs (round64 x))) eqn:C; [|reflexivity].
  apply Qle_bool_iff in C. lra.
Qed.

Lemma fl_or_comp (e : exn) (x y : Q) : x == y -> fl_or e x = fl_or e y.
Proof. intros E. unfold fl_or, overflows. now rewrite (round64_comp x y E). Qed.

End Rounding.

(** ** [round64] against the kernel's binary64 arithmetic

    The kernel's floats are IEEE 754 binary64 with rounding to nearest, ties
    to even.  On the samples below, which include the quotients met in the
    conversion of times, subnormal numbers and numbers close to the largest
    double, the kernel's quotient, product and sum of two doubles are
    [round64] of the exact quotient, product and sum. *)

(** The rational a kernel float denotes; [None] for infinities and NaN. *)
Definition float_val (f : PrimFloat.float) : option Q :=
  match FloatOps.Prim2SF f with
  | SpecFloat.S754_zero _ => Some 0%Q
  | SpecFloat.S754_finite s m e =>
      Some (Qred ((if s then -1 else 1) * inject_Z (Z.pos m) * pow2 e)%Q)
  | _ => None
  end.

(** The double [a / b] for two ints below [2^63]. *)
Definition ratio (a b : Z) : PrimFloat.float :=
  PrimFloat.div (PrimFloat.of_uint63 (Uint63.of_Z a)) (PrimFloat.of_uint63 (Uint63.of_Z b)).

(** The kernel's result is the rounded exact result, and a double rounds to
    itself; an infinite result is an overflow of the rounded exact result. *)
Definition agrees (op : PrimFloat.float -> PrimFloat.float -> PrimFloat.float)
    (exact : Q -> Q -> Q) (a b : PrimFloat.float) : bool :=
  match float_val a, float_val b, float_val (op a b) with
  | Some x, Some y, Some z =>
      Qeq_bool (round64 (exact x y)) z && Qeq_bool (round64 z) z
        && negb (overflows (exact x y))
  | Some x, Some y, None => overflows (exact x y)
  | _, _, _ => false
  end.

Definition two_pow_124 : PrimFloat.float :=
  PrimFloat.mul (ratio 4611686018427387904 1) (ratio 4611686018427387904 1).

Definition two_pow_992 : PrimFloat.float :=
  let p := PrimFloat.mul two_pow_124 two_pow_124 in
  let q := PrimFloat.mul p p in
  PrimFloat.mul q q.

Definition samples : list PrimFloat.float :=
  [ratio 1 1; ratio 1 10; ratio 12 10; ratio 24 10; ratio 5 100; ratio 1 3; ratio 1 49;
   ratio 3 1; ratio 6 1; ratio 10 1; ratio 49 1; ratio 9007199254740993 1;
   ratio 9007199254740991 2; ratio 123456789123 1000;
   PrimFloat.div (ratio 1 10) (ratio 1234567 1);
   PrimFloat.mul (ratio 1 3) two_pow_992; PrimFloat.div (ratio 1 3) two_pow_992;
   PrimFloat.div (PrimFloat.div (ratio 7 3) two_pow_992) (ratio 1073741824 1)].

Definition all_agree (op : PrimFloat.float -> PrimFloat.float -> PrimFloat.float)
    (exact : Q -> Q -> Q) : bool :=
  forallb (fun p => agrees op exact (fst p) (snd p)) (list_prod samples samples).

Example round64_is_kernel_rounding :
  all_agree PrimFloat.div Qdiv = true /\
  all_agree PrimFloat.mul Qmult = true /\
  all_agree PrimFloat.add Qplus = true /\
  float_val (ratio 1 10) = Some (round64 (1 # 10)) /\
  float_val (PrimFloat.div (ratio 1 1) (PrimFloat.div (ratio 12 10) (ratio 3 1)))
    = Some (5 # 2)%Q.
Proof. repeat split; vm_compute; reflexivity. Qed.

Definition num_le (a b : pynum) : Prop := (num_val a <= num_val b)%Q.

Lemma num_leb_le (a b : pynum) : num_leb a b = true <-> num_le a b.
Proof. apply Qle_bool_iff. Qed.

Lemma sort_insert_perm (x : pynum) (l : list pynum) : Permutation (sort_insert x l) (x :: l).
Proof.
  induction l as [|y l IH]; cbn; [reflexivity|].
  destruct (num_leb x y); [reflexivity|].
  rewrite IH. apply perm_swap.
Qed.

Lemma py_sort_perm (l : list pynum) : Permutation (py_sort l) l.
Proof.
  induction l as [|x l IH]; cbn; [reflexivity|].
  rewrite sort_insert_perm. now constructor.
Qed.

Lemma py_sort_length (l : list pynum) : length (py_sort l) = length l.
Proof. apply Permutation_length, py_sort_perm. Qed.

Lemma sort_insert_sorted (x : pynum) (l : list pynum) :
  StronglySorted num_le l -> StronglySorted num_le (sort_insert x l).
Proof.
  induction 1 as [|y l S IH F]; cbn; [repeat constructor|].
  destruct (num_leb x y) eqn:E.
  - apply num_leb_le in E. constructor; [now constructor|].
    constructor; [exact E|]. eapply Forall_impl; [exact F|].
    intros z Hz. unfold num_le in *. lra.
  - constructor; [exact IH|].
    assert (num_le y x).
    { unfold num_le. destruct (Qlt_le_dec (num_val y) (num_val x)) as [L|L]; [lra|].
      apply num_leb_le in L. congruence. }
    eapply Permutation_Forall; [symmetry; apply sort_insert_perm|].
    constructor; assumption.
Qed.

Lemma py_sort_sorted (l : list pynum) : StronglySorted num_le (py_sort l).
Proof.
  induction l as [|x l IH]; cbn; [constructor | now apply sort_insert_sorted].
Qed.

Lemma sorted_last_max (l : list pynum) (t x : pynum) :
  StronglySorted num_le l -> last l = Some t -> In x l -> num_le x t.
Proof.
  induction 1 as [|y l S IH F]; intros L I; [destruct I|].
  destruct l as [|z l'].
  - cbn in L. injection L as <-. destruct I as [<- | []]. unfold num_le. lra.
  - rewrite last_cons_cons in L. destruct I as [<- | I]; [|now apply IH].
    rewrite Forall_forall in F. apply F.
    apply last_Some_elem_of in L. exact L.
Qed.

Lemma sorted_head_min (l : list pynum) (t x : pynum) :
  StronglySorted num_le (t :: l) -> In x (t :: l) -> num_le t x.
Proof.
  intros S [<- | I]; [unfold num_le; lra|].
  apply StronglySorted_inv in S. destruct S as [_ F].
  rewrite Forall_forall in F. apply F. now apply list_elem_of_In.
Qed.

(** The largest requested time. *)
Definition t_max (l : list pynum) : Q :=
  match last (py_sort l) with
  | Some t => num_val t
  | None => 0
  end.

Lemma t_max_is_max (l : list pynum) :
  l <> [] ->
  (exists t, In t l /\ num_val t = t_max l) /\
  (forall x, In x l -> (num_val x <= t_max l)%Q).
Proof.
  intros Hne. unfold t_max.
  destruct (last (py_sort l)) as [t|] eqn:L.
  - split.
    + exists t. split; [|reflexivity].
      eapply Permutation_in; [apply py_sort_perm|].
      apply list_elem_of_In. now apply last_Some_elem_of.
    + intros x Hx. eapply (sorted_last_max (py_sort l)); eauto using py_sort_sorted.
      eapply Permutation_in; [symmetry; apply py_sort_perm | exact Hx].
  - apply last_None in L. apply (f_equal (@length _)) in L. rewrite py_sort_length in L.
    destruct l; [congruence | discriminate].
Qed.

Lemma not_all_zero_nonempty (l : list pynum) :
  forallb (fun t => num_eqb t (PInt 0)) l = false -> l <> [].
Proof. intros H ->. discriminate. Qed.

Lemma last_sorted_is_max (l : list pynum) :
  l <> [] -> exists t, last (py_sort l) = Some t /\ num_val t = t_max l /\ In t l.
Proof.
  intros Hne. unfold t_max. destruct (last (py_sort l)) as [t|] eqn:L.
  - exists t. split; [reflexivity|]. split; [reflexivity|].
    eapply Permutation_in; [apply py_sort_perm|].
    apply list_elem_of_In. now apply last_Some_elem_of.
  - apply last_None in L. apply (f_equal (@length _)) in L. rewrite py_sort_length in L.
    destruct l; [congruence | discriminate].
Qed.

(** ** Requested times and steps *)

(** What [_times_to_steps] computes when none of its divisions fails: the
    slice duration is the float quotient [times[-1] / num_trotter_slices],
    and the step of a time [t] is [int(round(t / tau))] for the float
    quotient [t / tau]. *)
Definition tau_of (l : list pynum) (n : Z) : Q := round64 (t_max l / inject_Z n).

(** The step a requested time is converted to. *)
Definition step_Z (tau : Q) (t : pynum) : Z := py_round (round64 (num_val t / tau)).

Definition step_of (tau : Q) (t : pynum) : pynum := PInt (step_Z tau t).

Definition steps_of (l : list pynum) (n : Z) : list pynum :=
  map (step_of (tau_of l n)) (py_sort l).

(** The range of times and of numbers of slices in which the conversion and
    the loop neither overflow nor underflow: times of magnitude at most
    [2^200] (about 1.6e60), the largest of them at least [2^-200]; at most
    [2^40] slices; an int among the times of magnitude at most [2^53], so
    that its conversion to a float is exact. *)
Definition time_max : Q := pow2 200.
Definition time_min : Q := pow2 (-200).
Definition max_slices : Z := (2 ^ 40)%Z.

Definition in_range (t : pynum) : Prop :=
  match t with
  | PInt z => (Z.abs z <= 2 ^ 53)%Z
  | PFloat q => (Qabs q <= time_max)%Q
  end.

Definition ranged_times (l : list pynum) : Prop :=
  Forall in_range l /\ (time_min <= t_max l)%Q.

(** The requested times are in range, non-negative and not all zero. *)
Definition valid_times (l : list pynum) : Prop :=
  Forall (fun t => in_range t /\ (0 <= num_val t)%Q) l /\
  Exists (fun t => (time_min <= num_val t)%Q) l.

Section Ranges.
Local Open Scope Q_scope.

Lemma Qabs_inject_Z_le (z b : Z) : (Z.abs z <= b)%Z -> Qabs (inject_Z z) <= inject_Z b.
Proof.
  intros H. apply Qabs_Qle_condition.
  rewrite <- inject_Z_opp, <- !Zle_Qle. lia.
Qed.

Lemma time_min_pos : 0 < time_min.
Proof. apply pow2_pos. Qed.


Lemma in_range_abs (t : pynum) : in_range t -> Qabs (num_val t) <= time_max.
Proof.
  destruct t as [z|q]; cbn [in_range num_val]; [|auto]. intros H.
  eapply Qle_trans; [apply Qabs_inject_Z_le, H|].
  rewrite <- (pow2_Z 53) by lia. apply pow2_le. lia.
Qed.

Lemma div_abs_bound (a b : Q) (ea eb : Z) :
  Qabs a <= pow2 ea -> pow2 eb <= Qabs b -> Qabs (a / b) <= pow2 (ea - eb).
Proof.
  intros Ha Hb. pose proof (pow2_pos eb) as Pb.
  unfold Qdiv. rewrite Qabs_Qmult, Qabs_Qinv.
  apply Qle_shift_div_r; [lra|].
  eapply Qle_trans; [exact Ha|].
  apply Qle_trans with (pow2 (ea - eb) * pow2 eb).
  - rewrite <- pow2_add. apply pow2_le. lia.
  - apply Qmult_le_l; [apply pow2_pos | exact Hb].
Qed.

Lemma mul_abs_bound (a b : Q) (ea eb : Z) :
  Qabs a <= pow2 ea -> Qabs b <= pow2 eb -> Qabs (a * b) <= pow2 (ea + eb).
Proof.
  intros Ha Hb. rewrite Qabs_Qmult, pow2_add.
  apply Qle_trans with (pow2 ea * Qabs b).
  - apply Qmult_le_compat_r; [exact Ha | apply Qabs_nonneg].
  - apply Qmult_le_l; [apply pow2_pos | exact Hb].
Qed.

Lemma slices_abs (n : Z) :
  n <> 0%Z -> (Z.abs n <= max_slices)%Z ->
  1 <= Qabs (inject_Z n) /\ Qabs (inject_Z n) <= pow2 40.
Proof.
  intros Hn Hm. split.
  - destruct (Z.lt_trichotomy n 0) as [N | [E | P]]; [|contradiction|].
    + rewrite Qabs_neg by (change 0 with (inject_Z 0); rewrite <- Zle_Qle; lia).
      rewrite <- inject_Z_opp. change 1 with (inject_Z 1). rewrite <- Zle_Qle. lia.
    + rewrite Qabs_pos by (change 0 with (inject_Z 0); rewrite <- Zle_Qle; lia).
      change 1 with (inject_Z 1). rewrite <- Zle_Qle. lia.
  - rewrite (pow2_Z 40) by lia. now apply Qabs_inject_Z_le.
Qed.

(** The slice duration for a positive number of slices. *)
Lemma slice_duration (T : Q) (n : Z) :
  time_min <= T -> T <= time_max -> (0 < n <= max_slices)%Z ->
  pow2 (-240) <= round64 (T / inject_Z n) /\
  round64 (T / inject_Z n) <= time_max /\
  (1 - pow2 (-53)) * (T / inject_Z n) <= round64 (T / inject_Z n) /\
  round64 (T / inject_Z n) <= (1 + pow2 (-53)) * (T / inject_Z n).
Proof.
  intros T_lo T_hi Hn. unfold time_min, time_max, max_slices in *.
  set (N := inject_Z n). set (u := T / N).
  assert (N1 : 1 <= N) by (unfold N; change 1 with (inject_Z 1); rewrite <- Zle_Qle; lia).
  assert (N2 : N <= inject_Z (2 ^ 40)) by (unfold N; rewrite <- Zle_Qle; lia).
  assert (TP : 0 < T) by (pose proof (pow2_pos (-200)); lra).
  assert (L : pow2 (-240) <= u).
  { unfold u. apply Qle_shift_div_l; [lra|].
    apply Qle_trans with (pow2 (-240) * inject_Z (2 ^ 40)).
    - apply Qmult_le_l; [apply pow2_pos | exact N2].
    - rewrite <- (pow2_Z 40) by lia. rewrite <- pow2_add. exact T_lo. }
  assert (U : u <= pow2 200).
  { unfold u. apply Qle_shift_div_r; [lra|].
    apply Qle_trans with (pow2 200 * 1); [lra|].
    apply Qmult_le_l; [apply pow2_pos | exact N1]. }
  split; [apply round64_lower; [exact L | apply round64_pow2; unfold emin; lia]|].
  split; [apply round64_upper; [exact U | apply round64_pow2; unfold emin; lia]|].
  assert (P : 0 < u) by (pose proof (pow2_pos (-240)); lra).
  pose proof (round64_relerr u) as R. rewrite (Qabs_pos u) in R by lra.
  assert (pow2 emin <= u) as He.
  { eapply Qle_trans; [|exact L]. apply pow2_le. unfold emin. lia. }
  specialize (R He). apply Qabs_Qle_condition in R. lra.
Qed.

Lemma quarter_fix (n s : Z) :
  (Z.abs n <= max_slices)%Z -> (s = 1 \/ s = -1)%Z ->
  round64 (inject_Z n + inject_Z s * (1 # 4)) == inject_Z n + inject_Z s * (1 # 4).
Proof.
  intros Hn Hs. unfold max_slices in Hn.
  assert (E : inject_Z n + inject_Z s * (1 # 4) == inject_Z (4 * n + s) * pow2 (-2)).
  { rewrite inject_Z_plus, inject_Z_mult. change (pow2 (-2)) with (1 # 4).
    change (inject_Z 4) with 4. ring. }
  rewrite (round64_comp _ _ E), E. apply round64_fix; [|unfold emin; lia].
  change (2 ^ 53)%Z with 9007199254740992%Z.
  change (2 ^ 40)%Z with 1099511627776%Z in Hn.
  destruct Hs as [-> | ->]; lia.
Qed.

(** The float quotient of the largest time by the slice duration is within
    a quarter of the number of slices. *)
Lemma slice_quotient_pos (T : Q) (n : Z) :
  time_min <= T -> T <= time_max -> (0 < n <= max_slices)%Z ->
  inject_Z n - (1 # 4) <= round64 (T / round64 (T / inject_Z n)) /\
  round64 (T / round64 (T / inject_Z n)) <= inject_Z n + (1 # 4).
Proof.
  intros T_lo T_hi Hn.
  destruct (slice_duration T n T_lo T_hi Hn) as (B1 & _ & E1 & E2).
  pose proof (pow2_pos (-240)) as P240.
  unfold time_min, time_max, max_slices in *.
  set (N := inject_Z n) in *. set (u := T / N) in *. set (tau := round64 u) in *.
  assert (N1 : 1 <= N) by (unfold N; change 1 with (inject_Z 1); rewrite <- Zle_Qle; lia).
  assert (N2 : N <= inject_Z (2 ^ 40)) by (unfold N; rewrite <- Zle_Qle; lia).
  assert (TP : 0 < T) by (pose proof (pow2_pos (-200)); lra).
  assert (P : 0 < u) by (unfold u; apply Qlt_shift_div_l; lra).
  assert (TE : T == u * N) by (unfold u; field; lra).
  change (pow2 (-53)) with (1 # 9007199254740992) in E1, E2.
  change (inject_Z (2 ^ 40)) with (1099511627776 # 1) in N2.
  assert (Lo : N - (1 # 4) <= T / tau).
  { apply Qle_shift_div_l; [lra|].
    apply Qle_trans with ((N - (1 # 4)) * ((1 + (1 # 9007199254740992)) * u)).
    - apply Qmult_le_l; [lra | exact E2].
    - rewrite TE.
      setoid_replace ((N - (1 # 4)) * ((1 + (1 # 9007199254740992)) * u))
        with (u * ((N - (1 # 4)) * (1 + (1 # 9007199254740992)))) using relation Qeq by ring.
      apply Qmult_le_l; [exact P | lra]. }
  assert (Hi : T / tau <= N + (1 # 4)).
  { apply Qle_shift_div_r; [lra|].
    apply Qle_trans with ((N + (1 # 4)) * ((1 - (1 # 9007199254740992)) * u)).
    - rewrite TE.
      setoid_replace ((N + (1 # 4)) * ((1 - (1 # 9007199254740992)) * u))
        with (u * ((N + (1 # 4)) * (1 - (1 # 9007199254740992)))) using relation Qeq by ring.
      apply Qmult_le_l; [exact P | lra].
    - apply Qmult_le_l; [lra | exact E1]. }
  pose proof (quarter_fix n 1 ltac:(unfold max_slices; lia) (or_introl eq_refl)) as F1.
  pose proof (quarter_fix n (-1) ltac:(unfold max_slices; lia) (or_intror eq_refl)) as F2.
  fold N in F1, F2.
  change (inject_Z 1) with 1 in F1. change (inject_Z (-1)) with (-1 # 1) in F2.
  split.
  - apply Qle_trans with (N + (-1 # 1) * (1 # 4)); [lra|].
    apply round64_lower; [lra | exact F2].
  - apply Qle_trans with (N + 1 * (1 # 4)); [|lra].
    apply round64_upper; [lra | exact F1].
Qed.

(** For a negative number of slices the duration and the quotient are the
    opposites of those for the opposite number. *)
Lemma slice_duration_opp (T : Q) (n : Z) :
  n <> 0%Z -> round64 (T / inject_Z (- n)) == - round64 (T / inject_Z n).
Proof.
  intros Hn. rewrite <- round64_opp. rewrite (round64_comp (T / inject_Z (- n))
    (- (T / inject_Z n))); [reflexivity|].
  rewrite inject_Z_opp. field. now apply inject_Z_nonzero.
Qed.

Lemma slice_facts (T : Q) (n : Z) :
  time_min <= T -> T <= time_max -> n <> 0%Z -> (Z.abs n <= max_slices)%Z ->
  let tau := round64 (T / inject_Z n) in
  pow2 (-240) <= Qabs tau /\ Qabs tau <= time_max /\
  ((0 < n)%Z -> 0 < tau) /\ ((n < 0)%Z -> tau < 0) /\
  py_round (round64 (T / tau)) = n.
Proof.
  intros T_lo T_hi Hn Hm tau. pose proof (pow2_pos (-240)) as P240.
  destruct (Z.lt_trichotomy n 0) as [N | [E | P]]; [|contradiction|].
  - destruct (slice_duration T (- n) T_lo T_hi ltac:(lia)) as (B1 & B2 & _).
    destruct (slice_quotient_pos T (- n) T_lo T_hi ltac:(lia)) as [Q1 Q2].
    assert (Et : round64 (T / inject_Z (- n)) == - tau).
    { unfold tau. apply slice_duration_opp, Hn. }
    assert (Tn : tau < 0) by lra.
    assert (Eq : round64 (T / round64 (T / inject_Z (- n))) == - round64 (T / tau)).
    { rewrite <- round64_opp. rewrite (round64_comp (T / round64 (T / inject_Z (- n)))
        (- (T / tau))); [reflexivity|].
      rewrite Et. field. lra. }
    rewrite Eq in Q1, Q2. rewrite inject_Z_opp in Q1, Q2.
    rewrite (Qabs_neg tau) by lra.
    split; [lra|]. split; [lra|]. split; [lia|]. split; [auto|].
    apply py_round_unique; lra.
  - destruct (slice_duration T n T_lo T_hi ltac:(lia)) as (B1 & B2 & _).
    destruct (slice_quotient_pos T n T_lo T_hi ltac:(lia)) as [Q1 Q2].
    fold tau in B1, B2, Q1, Q2.
    rewrite (Qabs_pos tau) by lra.
    split; [lra|]. split; [lra|]. split; [intros _; lra|]. split; [lia|].
    apply py_round_unique; lra.
Qed.

(** *** The operations of the conversion *)

Lemma to_float_in_range (t : pynum) :
  in_range t -> exists f, to_float t = Ok f /\ f == num_val t.
Proof.
  destruct t as [z|q]; cbn [in_range to_float num_val].
  - intros H. exists (round64 (inject_Z z)). split; [|now apply round64_int].
    apply (fl_or_ok _ _ (pow2 53)).
    + rewrite (pow2_Z 53) by lia. now apply Qabs_inject_Z_le.
    + apply round64_pow2. unfold emin. lia.
    + apply pow2_lt. lia.
  - intros _. exists q. split; reflexivity.
Qed.

Lemma truediv_by_float (t : pynum) (tau : Q) :
  in_range t -> pow2 (-240) <= Qabs tau ->
  py_truediv t (PFloat tau) = Ok (round64 (num_val t / tau)).
Proof.
  intros Ht Htau. pose proof (pow2_pos (-240)) as P240.
  destruct (to_float_in_range t Ht) as (f & Ef & Ev).
  assert (Hz : Qeq_bool tau 0 = false).
  { apply Qeq_bool_false. intros C. rewrite C in Htau. change (Qabs 0) with 0 in Htau. lra. }
  assert (R : py_truediv t (PFloat tau) = fl (f / tau)).
  { destruct t as [z|q]; cbn [py_truediv]; rewrite Ef; cbn [mbind result_bind to_float];
      now rewrite Hz. }
  rewrite R. unfold fl.
  assert (Eq : f / tau == num_val t / tau) by now rewrite Ev.
  rewrite (fl_or_comp _ _ _ Eq).
  apply (fl_or_ok _ _ (pow2 (200 - -240))).
  - apply div_abs_bound; [now apply in_range_abs | exact Htau].
  - apply round64_pow2. unfold emin. lia.
  - apply pow2_lt. lia.
Qed.

Lemma truediv_by_slices (t : pynum) (n : Z) :
  in_range t -> n <> 0%Z -> (Z.abs n <= max_slices)%Z ->
  py_truediv t (PInt n) = Ok (round64 (num_val t / inject_Z n)).
Proof.
  intros Ht Hn Hm. destruct (slices_abs n Hn Hm) as [N1 N2].
  assert (B : Qabs (num_val t / inject_Z n) <= pow2 (200 - 0)).
  { apply div_abs_bound; [now apply in_range_abs | exact N1]. }
  assert (F : round64 (pow2 (200 - 0)) == pow2 (200 - 0)).
  { apply round64_pow2. unfold emin. lia. }
  assert (L : pow2 (200 - 0) < pow2 1024) by (apply pow2_lt; lia).
  destruct t as [z|q]; cbn [py_truediv num_val].
  - apply Z.eqb_neq in Hn. rewrite Hn. exact (fl_or_ok _ _ _ B F L).
  - cbn [to_float mbind result_bind].
    destruct (to_float_in_range (PInt n)) as (f & Ef & Ev).
    { cbn [in_range]. unfold max_slices in Hm.
      change (2 ^ 40)%Z with 1099511627776%Z in Hm.
      change (2 ^ 53)%Z with 9007199254740992%Z. lia. }
    cbn [to_float] in Ef. rewrite Ef. cbn [mbind result_bind]. cbn [num_val] in Ev.
    assert (Hz : Qeq_bool f 0 = false).
    { apply Qeq_bool_false. intros C. rewrite Ev in C. revert C.
      apply inject_Z_nonzero. apply Z.eqb_neq. now apply Z.eqb_neq. }
    rewrite Hz. unfold fl.
    assert (Eq : q / f == q / inject_Z n) by now rewrite Ev.
    rewrite (fl_or_comp _ _ _ Eq). exact (fl_or_ok _ _ _ B F L).
Qed.

(** *** The steps of times in range *)

Lemma ranged_nonempty (l : list pynum) : ranged_times l -> l <> [].
Proof.
  intros [_ H] ->. change (t_max []) with 0 in H. pose proof time_min_pos. lra.
Qed.

Lemma ranged_max (l : list pynum) :
  ranged_times l -> time_min <= t_max l /\ t_max l <= time_max.
Proof.
  intros R. split; [apply R|].
  destruct (last_sorted_is_max l (ranged_nonempty l R)) as (t & _ & <- & Hin).
  destruct R as [F _]. rewrite Forall_forall in F.
  pose proof (in_range_abs t (F t (proj2 (list_elem_of_In _ _) Hin))) as A.
  apply Qabs_Qle_condition in A. lra.
Qed.

Lemma ranged_not_all_zero (l : list pynum) :
  ranged_times l -> forallb (fun t => num_eqb t (PInt 0)) l = false.
Proof.
  intros R. destruct (forallb _ l) eqn:A; [|reflexivity]. exfalso.
  rewrite forallb_forall in A.
  destruct (last_sorted_is_max l (ranged_nonempty l R)) as (t & _ & Hv & Hin).
  specialize (A t Hin). unfold num_eqb in A. apply Qeq_bool_eq in A. cbn [num_val] in A.
  destruct (ranged_max l R) as [L _]. rewrite <- Hv in L.
  pose proof time_min_pos. change (inject_Z 0) with 0 in A. lra.
Qed.

Lemma valid_times_ranged (l : list pynum) : valid_times l -> ranged_times l.
Proof.
  intros [F E]. split.
  - eapply Forall_impl; [exact F|]. now intros t [H _].
  - apply Exists_exists in E. destruct E as (t & Ht & Hm).
    assert (l <> []) as Hne by (intros ->; inversion Ht).
    destruct (t_max_is_max l Hne) as [_ Hmax].
    apply list_elem_of_In in Ht. specialize (Hmax t Ht). lra.
Qed.

Lemma valid_times_nonneg (l : list pynum) (t : pynum) :
  valid_times l -> In t l -> 0 <= num_val t.
Proof.
  intros [F _] Ht. rewrite Forall_forall in F.
  now destruct (F t (proj2 (list_elem_of_In _ _) Ht)).
Qed.

Lemma valid_times_nonempty (l : list pynum) : valid_times l -> l <> [].
Proof. intros V. now apply ranged_nonempty, valid_times_ranged. Qed.

Lemma valid_times_max_pos (l : list pynum) : valid_times l -> 0 < t_max l.
Proof.
  intros V. destruct (ranged_max l (valid_times_ranged l V)). pose proof time_min_pos. lra.
Qed.

Lemma valid_times_not_all_zero (l : list pynum) :
  valid_times l -> forallb (fun t => num_eqb t (PInt 0)) l = false.
Proof. intros V. now apply ranged_not_all_zero, valid_times_ranged. Qed.

Lemma tau_of_facts (l : list pynum) (n : Z) :
  ranged_times l -> n <> 0%Z -> (Z.abs n <= max_slices)%Z ->
  pow2 (-240) <= Qabs (tau_of l n) /\ Qabs (tau_of l n) <= time_max /\
  ((0 < n)%Z -> 0 < tau_of l n) /\ ((n < 0)%Z -> tau_of l n < 0) /\
  py_round (round64 (t_max l / tau_of l n)) = n.
Proof.
  intros R Hn Hm. destruct (ranged_max l R) as [L U].
  exact (slice_facts (t_max l) n L U Hn Hm).
Qed.

Lemma tau_of_pos (l : list pynum) (n : Z) :
  ranged_times l -> (0 < n <= max_slices)%Z -> 0 < tau_of l n.
Proof.
  intros R Hn. destruct (tau_of_facts l n R) as (_ & _ & P & _); [lia | lia|].
  apply P. lia.
Qed.

Lemma steps_of_spec (l : list pynum) (n : Z) :
  steps_of l n = map (fun t => PInt (step_Z (tau_of l n) t)) (py_sort l).
Proof. reflexivity. Qed.

Lemma steps_of_In (l : list pynum) (n k : Z) :
  In (PInt k) (steps_of l n) <-> exists t, In t l /\ k = step_Z (tau_of l n) t.
Proof.
  rewrite steps_of_spec, in_map_iff. split.
  - intros (t & [= <-] & Ht). exists t. split; [|reflexivity].
    eapply Permutation_in; [apply py_sort_perm | exact Ht].
  - intros (t & Ht & ->). exists t. split; [reflexivity|].
    eapply Permutation_in; [symmetry; apply py_sort_perm | exact Ht].
Qed.

Lemma steps_of_ints (l : list pynum) (n : Z) (x : pynum) :
  In x (steps_of l n) -> exists k, x = PInt k.
Proof. rewrite steps_of_spec, in_map_iff. intros (t & <- & _). eauto. Qed.

Lemma steps_of_length (l : list pynum) (n : Z) : length (steps_of l n) = length l.
Proof. unfold steps_of. now rewrite length_map, py_sort_length. Qed.

(** The last step is the number of slices. *)
Lemma steps_of_last (l : list pynum) (n : Z) :
  ranged_times l -> n <> 0%Z -> (Z.abs n <= max_slices)%Z ->
  last (steps_of l n) = Some (PInt n).
Proof.
  intros R Hn Hm. rewrite steps_of_spec.
  destruct (last_sorted_is_max l (ranged_nonempty l R)) as (t & Ht & Hv & _).
  apply last_Some in Ht. destruct Ht as [l' E]. rewrite E, map_app. cbn [map].
  rewrite last_snoc. do 2 f_equal. unfold step_Z. rewrite Hv.
  now apply tau_of_facts.
Qed.

Lemma step_Z_mono (tau : Q) (a b : pynum) :
  0 < tau -> num_val a <= num_val b -> (step_Z tau a <= step_Z tau b)%Z.
Proof.
  intros Hp H. unfold step_Z. apply py_round_mono, round64_mono.
  apply Qmult_le_compat_r; [exact H|]. apply Qlt_le_weak, Qinv_lt_0_compat, Hp.
Qed.

Lemma step_Z_zero (tau : Q) (t : pynum) : num_val t == 0 -> step_Z tau t = 0%Z.
Proof.
  intros E. unfold step_Z.
  assert (Hq : num_val t / tau == 0) by (rewrite E; unfold Qdiv; ring).
  rewrite (py_round_comp _ 0); [reflexivity|]. now apply round64_zero.
Qed.

Lemma step_Z_bounds (l : list pynum) (n : Z) (t : pynum) :
  valid_times l -> (0 < n <= max_slices)%Z -> In t l ->
  (0 <= step_Z (tau_of l n) t <= n)%Z.
Proof.
  intros V Hn Ht. pose proof (valid_times_ranged l V) as R.
  pose proof (tau_of_pos l n R Hn) as Hp.
  destruct (t_max_is_max l (valid_times_nonempty l V)) as [(tm & Hm & Hv) Hmax].
  destruct (tau_of_facts l n R) as (_ & _ & _ & _ & HL); [lia | lia|].
  split.
  - rewrite <- (step_Z_zero (tau_of l n) (PInt 0)) by reflexivity.
    apply step_Z_mono; [exact Hp|]. cbn [num_val]. change (inject_Z 0) with 0.
    now apply (valid_times_nonneg l).
  - rewrite <- HL at 2. rewrite <- Hv. fold (step_Z (tau_of l n) tm).
    apply step_Z_mono; [exact Hp|]. rewrite Hv. now apply Hmax.
Qed.

Lemma steps_of_sorted (l : list pynum) (n : Z) :
  ranged_times l -> (0 < n <= max_slices)%Z -> StronglySorted num_le (steps_of l n).
Proof.
  intros V Hn. pose proof (tau_of_pos l n V Hn) as Hp. rewrite steps_of_spec.
  pose proof (py_sort_sorted l) as S. induction S as [|x s S IH F]; [constructor|].
  cbn [map]. constructor; [exact IH|].
  rewrite Forall_forall in F. rewrite Forall_forall.
  intros y Hy. apply list_elem_of_In, in_map_iff in Hy.
  destruct Hy as (t & <- & Ht). apply list_elem_of_In in Ht. specialize (F t Ht).
  unfold num_le in *. cbn [num_val]. rewrite <- Zle_Qle. now apply step_Z_mono.
Qed.

(** *** The float operations of the loop *)

Lemma cube_abs (tau : Q) : Qabs tau <= time_max -> Qabs (tau ^ 3) <= pow2 600.
Proof.
  intros H. change (tau ^ 3) with (tau * (tau * tau)).
  change 600%Z with (200 + (200 + 200))%Z.
  apply mul_abs_bound; [exact H|]. apply mul_abs_bound; exact H.
Qed.

Lemma cube_of_abs (tau : Q) : Qabs tau <= time_max -> Qabs (cube_of tau) <= pow2 600.
Proof.
  intros H. unfold cube_of. apply round64_abs_le; [now apply cube_abs|].
  apply round64_pow2. unfold emin. lia.
Qed.


Lemma trot_acc_succ (tau : Q) (k : nat) :
  trot_acc tau (S k) = round64 (trot_acc tau k + cube_of tau).
Proof. reflexivity. Qed.

Lemma count_fix (k : nat) (e : Z) :
  (Z.of_nat k <= 2 ^ 53)%Z -> (emin - 52 <= e)%Z ->
  round64 (inject_Z (Z.of_nat k) * pow2 e) == inject_Z (Z.of_nat k) * pow2 e.
Proof. intros H He. apply round64_fix; [lia | exact He]. Qed.

Lemma trot_acc_abs (tau : Q) (k : nat) :
  Qabs tau <= time_max -> (Z.of_nat k <= 2 ^ 53)%Z ->
  Qabs (trot_acc tau k) <= inject_Z (Z.of_nat k) * pow2 600.
Proof.
  intros H. induction k as [|k IH]; intros Hk.
  - change (trot_acc tau 0) with 0. change (inject_Z (Z.of_nat 0)) with 0.
    change (Qabs 0) with 0. lra.
  - rewrite trot_acc_succ. apply round64_abs_le; [|apply count_fix; [exact Hk | unfold emin; lia]].
    eapply Qle_trans; [apply Qabs_triangle|].
    pose proof (cube_of_abs tau H) as C. specialize (IH ltac:(lia)).
    rewrite Nat2Z.inj_succ, <- Z.add_1_r, inject_Z_plus. change (inject_Z 1) with 1. lra.
Qed.

Lemma loop_safe_range (tau : Q) (K : nat) :
  Qabs tau <= time_max -> (Z.of_nat K <= max_slices)%Z -> loop_safe tau K.
Proof.
  intros H HK. unfold max_slices in HK. change (2 ^ 40)%Z with 1099511627776%Z in HK.
  split.
  - unfold py_pow3, cube_of. apply (fl_or_ok _ _ (pow2 600)); [now apply cube_abs | |].
    + apply round64_pow2. unfold emin. lia.
    + apply pow2_lt. lia.
  - intros i Hi. split.
    + rewrite trot_acc_succ. unfold py_add, fl.
      apply (fl_or_ok _ _ (inject_Z (Z.of_nat (S i)) * pow2 600)).
      * eapply Qle_trans; [apply Qabs_triangle|].
        pose proof (cube_of_abs tau H) as C.
        pose proof (trot_acc_abs tau i H) as A.
        change (2 ^ 53)%Z with 9007199254740992%Z in A. specialize (A ltac:(lia)).
        rewrite Nat2Z.inj_succ, <- Z.add_1_r, inject_Z_plus. change (inject_Z 1) with 1. lra.
      * apply count_fix; [|unfold emin; lia].
        change (2 ^ 53)%Z with 9007199254740992%Z. lia.
      * apply Qle_lt_trans with (pow2 41 * pow2 600).
        -- apply Qmult_le_compat_r; [|apply Qlt_le_weak, pow2_pos].
           rewrite (pow2_Z 41) by lia. rewrite <- Zle_Qle.
           change (2 ^ 41)%Z with 2199023255552%Z. lia.
        -- rewrite <- pow2_add. apply pow2_lt. lia.
    + unfold py_mul, time_val. cbn [to_float mbind result_bind].
      destruct (to_float_in_range (PInt (Z.of_nat i + 1))) as (f & Ef & Ev).
      { cbn [in_range]. change (2 ^ 53)%Z with 9007199254740992%Z. lia. }
      cbn [to_float] in Ef. rewrite Ef. cbn [mbind result_bind]. cbn [num_val] in Ev.
      unfold fl.
      assert (Eq : tau * f == tau * inject_Z (Z.of_nat i + 1)) by now rewrite Ev.
      rewrite (fl_or_comp _ _ _ Eq).
      apply (fl_or_ok _ _ (pow2 (200 + 40))).
      * apply mul_abs_bound; [exact H|]. rewrite (pow2_Z 40) by lia.
        apply Qabs_inject_Z_le. change (2 ^ 40)%Z with 1099511627776%Z. lia.
      * apply round64_pow2. unfold emin. lia.
      * apply pow2_lt. lia.
Qed.

(** For a positive duration in range the recorded times increase strictly
    with the step. *)
Lemma time_val_lt (tau : Q) (i j : Z) :
  pow2 (-240) <= tau -> tau <= time_max -> (0 <= i < j)%Z -> (j <= max_slices)%Z ->
  round64 (tau * inject_Z i) < round64 (tau * inject_Z j).
Proof.
  intros L U Hij Hj. pose proof (pow2_pos (-240)) as P240.
  unfold max_slices in Hj. change (2 ^ 40)%Z with 1099511627776%Z in Hj.
  assert (J1 : inject_Z i + 1 <= inject_Z j).
  { change 1 with (inject_Z 1). rewrite <- inject_Z_plus, <- Zle_Qle. lia. }
  assert (I0 : 0 <= inject_Z i).
  { change 0 with (inject_Z 0). rewrite <- Zle_Qle. lia. }
  assert (I2 : inject_Z i <= 1099511627776 # 1).
  { change (1099511627776 # 1) with (inject_Z 1099511627776). rewrite <- Zle_Qle. lia. }
  assert (Nj : pow2 emin <= Qabs (tau * inject_Z j)).
  { rewrite Qabs_pos by (apply Qmult_le_0_compat; lra).
    apply Qle_trans with (pow2 (-240)); [apply pow2_le; unfold emin; lia|].
    apply Qle_trans with (tau * 1); [lra|]. apply Qmult_le_l; lra. }
  pose proof (round64_relerr _ Nj) as Rj.
  rewrite (Qabs_pos (tau * inject_Z j)) in Rj by (apply Qmult_le_0_compat; lra).
  apply Qabs_Qle_condition in Rj. destruct Rj as [Rj _].
  change (pow2 (-53)) with (1 # 9007199254740992) in Rj.
  assert (Tj : tau * (inject_Z i + 1) <= tau * inject_Z j) by (apply Qmult_le_l; lra).
  destruct (Z.eq_dec i 0%Z) as [-> | Hi].
  - assert (Z0 : tau * inject_Z 0 == 0) by (change (inject_Z 0) with 0; ring).
    rewrite (round64_comp _ _ Z0), round64_0.
    assert (0 < tau * inject_Z j) by (apply Qmult_lt_0_compat; lra). lra.
  - assert (I1 : 1 <= inject_Z i).
    { change 1 with (inject_Z 1). rewrite <- Zle_Qle. lia. }
    assert (Ni : pow2 emin <= Qabs (tau * inject_Z i)).
    { rewrite Qabs_pos by (apply Qmult_le_0_compat; lra).
      apply Qle_trans with (pow2 (-240)); [apply pow2_le; unfold emin; lia|].
      apply Qle_trans with (tau * 1); [lra|]. apply Qmult_le_l; lra. }
    pose proof (round64_relerr _ Ni) as Ri.
    rewrite (Qabs_pos (tau * inject_Z i)) in Ri by (apply Qmult_le_0_compat; lra).
    apply Qabs_Qle_condition in Ri. destruct Ri as [_ Ri].
    change (pow2 (-53)) with (1 # 9007199254740992) in Ri.
    set (x := tau * inject_Z i) in *. set (y := tau * inject_Z j) in *.
    assert (X : x <= tau * (1099511627776 # 1)) by (apply Qmult_le_l; lra).
    assert (Y : x + tau <= y).
    { eapply Qle_trans; [|exact Tj]. unfold x. ring_simplify. lra. }
    assert (Y2 : y <= tau * ((1099511627776 # 1) + 1)).
    { unfold y. apply Qmult_le_l; [lra|].
      change ((1099511627776 # 1) + 1) with (inject_Z 1099511627777).
      rewrite <- Zle_Qle. lia. }
    lra.
Qed.

End Ranges.

Section Steps.
Context {Sub : Substrate}.

Lemma times_to_steps_run (w : World Sub) (times : loc) (l : list pynum) (n : Z) :
  pylists w !! times = Some l -> ranged_times l -> n <> 0%Z -> (Z.abs n <= max_slices)%Z ->
  _times_to_steps times n w =
    (Ok (tau_of l n), mkWorld (mpas w) (<[times := steps_of l n]> (pylists w))).
Proof.
  intros Hl R Hn Hm. unfold _times_to_steps.
  unfold mbind at 1. unfold M_bind, get_list. rewrite Hl.
  unfold mbind at 1. unfold M_bind, set_list.
  unfold mbind at 1. unfold M_bind. cbn [pylists mpas].
  rewrite list_lookup_insert_eq by (eapply lookup_lt_Some, Hl).
  destruct (last_sorted_is_max l (ranged_nonempty l R)) as (t & Ht & Hv & Hin).
  assert (Fr : forall x, In x l -> in_range x).
  { destruct R as [F _]. rewrite Forall_forall in F. intros x Hx.
    apply F, list_elem_of_In, Hx. }
  unfold mbind at 1. unfold M_bind, lift, py_last. rewrite Ht.
  unfold mbind at 1. unfold M_bind.
  rewrite (truediv_by_slices t n (Fr t Hin) Hn Hm), Hv. fold (tau_of l n).
  assert (mapR (fun t0 : pynum =>
                  q ← py_truediv t0 (PFloat (tau_of l n)); Ok (PInt (py_round q)))
               (py_sort l) = Ok (steps_of l n)) as ->.
  { unfold steps_of. apply mapR_ext_ok. intros x Hx.
    rewrite truediv_by_float; [reflexivity| |now apply tau_of_facts].
    apply Fr. eapply Permutation_in; [apply py_sort_perm | exact Hx]. }
  unfold mbind at 1. unfold M_bind. cbn [mpas pylists].
  unfold mbind. unfold M_bind, mret, M_ret. cbn.
  now rewrite list_insert_insert_eq.
Qed.

End Steps.

Section Outcomes.
Context {Sub : Substrate}.
Implicit Types (w : World Sub).

(** The store after [times.sort()] alone. *)
Definition after_sort w (ts : loc) (l : list pynum) : World Sub :=
  mkWorld (mpas w) (<[ts := py_sort l]> (pylists w)).

(** The conversion of one time, as [_times_to_steps] does it. *)
Definition convert (tau : Q) (t : pynum) : result pynum :=
  q ← py_truediv t (PFloat tau); Ok (PInt (py_round q)).

(** Every outcome of [_times_to_steps] on a list [l]: the list is sorted in
    place; then the first failure among [times[-1]], the division by the
    number of slices and the conversions of the sorted times, from left to
    right, ends the call; otherwise the list holds the steps. *)
Lemma times_to_steps_cases w (ts : loc) (l : list pynum) (n : Z) :
  pylists w !! ts = Some l ->
  _times_to_steps ts n w =
    match last (py_sort l) with
    | None => (Raise IndexError, after_sort w ts l)
    | Some t =>
        match py_truediv t (PInt n) with
        | Raise e => (Raise e, after_sort w ts l)
        | Ok tau =>
            match mapR (convert tau) (py_sort l) with
            | Raise e => (Raise e, after_sort w ts l)
            | Ok steps => (Ok tau, mkWorld (mpas w) (<[ts := steps]> (pylists w)))
            end
        end
    end.
Proof.
  intros Hl. unfold _times_to_steps, after_sort.
  unfold mbind at 1. unfold M_bind, get_list. rewrite Hl.
  unfold mbind at 1. unfold M_bind, set_list.
  unfold mbind at 1. unfold M_bind. cbn [pylists mpas].
  rewrite list_lookup_insert_eq by (eapply lookup_lt_Some, Hl).
  unfold mbind at 1. unfold M_bind, lift, py_last.
  destruct (last (py_sort l)) as [t|]; [|reflexivity].
  unfold mbind at 1. unfold M_bind.
  destruct (py_truediv t (PInt n)) as [tau|e]; [|reflexivity].
  unfold mbind at 1. unfold M_bind. fold (convert tau).
  destruct (mapR (convert tau) (py_sort l)) as [steps|e]; [|reflexivity].
  unfold mbind. unfold M_bind, mret, M_ret. cbn.
  now rewrite list_insert_insert_eq.
Qed.

Lemma times_to_steps_mpas w (ts : loc) (n : Z) :
  mpas (snd (_times_to_steps ts n w)) = mpas w.
Proof.
  unfold _times_to_steps, mbind, M_bind, get_list, set_list, lift, mret, M_ret.
  destruct (pylists w !! ts) as [l|]; [|reflexivity]. cbn [pylists mpas].
  destruct (<[ts := py_sort l]> (pylists w) !! ts) as [l'|]; [|reflexivity].
  destruct (py_last l') as [t|e]; [|reflexivity].
  destruct (py_truediv _ _) as [tau|e]; [|reflexivity].
  destruct (mapR _ l') as [steps|e]; reflexivity.
Qed.

Lemma mapR_ok_Forall2 {X Y : Type} (f : X -> result Y) (l : list X) (ys : list Y) :
  mapR f l = Ok ys -> Forall2 (fun x y => f x = Ok y) l ys.
Proof.
  revert ys. induction l as [|x l IH]; intros ys H; cbn [mapR] in H.
  - injection H as <-. constructor.
  - destruct (f x) as [y|e] eqn:E; [|discriminate]. cbn in H.
    destruct (mapR f l) as [ys'|e]; [|discriminate]. cbn in H. injection H as <-.
    constructor; [exact E | now apply IH].
Qed.

Lemma mapR_raise_In {X Y : Type} (f : X -> result Y) (l : list X) (e : exn) :
  mapR f l = Raise e -> exists x, In x l /\ f x = Raise e.
Proof.
  induction l as [|x l IH]; intros H; cbn [mapR] in H; [discriminate|].
  destruct (f x) as [y|e'] eqn:E.
  - cbn in H. destruct (mapR f l) as [ys'|e'']; [discriminate|]. cbn in H.
    destruct IH as (x' & Hx & Ex); [exact H|]. exists x'. split; [now right | exact Ex].
  - cbn in H. injection H as ->. exists x. split; [now left | exact E].
Qed.

(** The exceptions of the conversion; none is a ValueError. *)
Definition conversion_exn (e : exn) : Prop :=
  e = IndexError \/ e = ZeroDivisionError \/ e = OverflowError \/ e = Unmodelled.

Lemma conversion_exn_not_value (e : exn) (msg : string) :
  conversion_exn e -> e <> ValueError msg.
Proof. intros [-> | [-> | [-> | ->]]]; discriminate. Qed.

Lemma fl_or_exn (e0 : exn) (x : Q) (e : exn) : fl_or e0 x = Raise e -> e = e0.
Proof. unfold fl_or. destruct (overflows x); [now intros [= <-] | discriminate]. Qed.

Lemma to_float_exn (t : pynum) (e : exn) : to_float t = Raise e -> e = OverflowError.
Proof. destruct t; cbn [to_float]; [apply fl_or_exn | discriminate]. Qed.

Lemma py_truediv_exn (a b : pynum) (e : exn) :
  py_truediv a b = Raise e -> conversion_exn e.
Proof.
  assert (G : forall a b, (x ← to_float a; y ← to_float b;
                           if Qeq_bool y 0 then Raise ZeroDivisionError else fl (x / y)%Q)
                          = Raise e -> conversion_exn e).
  { clear a b. intros a b H. unfold conversion_exn.
    destruct (to_float a) as [x|e1] eqn:Ea; cbn [mbind result_bind] in H.
    2:{ injection H as <-. apply to_float_exn in Ea. auto. }
    destruct (to_float b) as [y|e2] eqn:Eb; cbn [mbind result_bind] in H.
    2:{ injection H as <-. apply to_float_exn in Eb. auto. }
    destruct (Qeq_bool y 0); [injection H as <-; auto|].
    apply fl_or_exn in H. auto. }
  destruct a as [x|x], b as [y|y]; cbn [py_truediv]; try apply G.
  unfold conversion_exn. destruct (y =? 0)%Z; [intros [= <-]; auto|].
  intros H. apply fl_or_exn in H. auto.
Qed.

Lemma times_to_steps_raises w (ts : loc) (l : list pynum) (n : Z) (e : exn) w2 :
  pylists w !! ts = Some l -> _times_to_steps ts n w = (Raise e, w2) ->
  conversion_exn e /\ w2 = after_sort w ts l.
Proof.
  intros Hl. rewrite (times_to_steps_cases w ts l n Hl).
  destruct (last (py_sort l)) as [t|].
  2:{ intros [= <- <-]. split; [left; reflexivity | reflexivity]. }
  destruct (py_truediv t (PInt n)) as [tau|e1] eqn:E1.
  2:{ intros [= <- <-]. split; [eapply py_truediv_exn; eauto | reflexivity]. }
  destruct (mapR (convert tau) (py_sort l)) as [steps|e2] eqn:E2; [discriminate|].
  intros [= <- <-]. split; [|reflexivity].
  apply mapR_raise_In in E2. destruct E2 as (x & _ & Ex). unfold convert in Ex.
  destruct (py_truediv x (PFloat tau)) as [q|e3] eqn:E3; [discriminate|].
  cbn in Ex. injection Ex as <-. eapply py_truediv_exn; eauto.
Qed.

Lemma times_to_steps_returns w (ts : loc) (l : list pynum) (n : Z) (tau : Q) w2 :
  pylists w !! ts = Some l -> _times_to_steps ts n w = (Ok tau, w2) ->
  exists (t : pynum) (steps : list pynum),
    last (py_sort l) = Some t /\ py_truediv t (PInt n) = Ok tau /\
    Forall2 (fun x s => exists q, py_truediv x (PFloat tau) = Ok q /\ s = PInt (py_round q))
            (py_sort l) steps /\
    w2 = mkWorld (mpas w) (<[ts := steps]> (pylists w)) /\
    pylists w2 !! ts = Some steps.
Proof.
  intros Hl. rewrite (times_to_steps_cases w ts l n Hl).
  destruct (last (py_sort l)) as [t|]; [|discriminate].
  destruct (py_truediv t (PInt n)) as [tau'|e1] eqn:E1; [|discriminate].
  destruct (mapR (convert tau') (py_sort l)) as [steps|e2] eqn:E2; [|discriminate].
  intros [= -> <-]. exists t, steps. split; [reflexivity|]. split; [exact E1|].
  split.
  - apply mapR_ok_Forall2 in E2. eapply Forall2_impl; [exact E2|].
    intros x s Hx. unfold convert in Hx.
    destruct (py_truediv x (PFloat tau)) as [q|e3]; [|discriminate].
    cbn in Hx. injection Hx as <-. eauto.
  - split; [reflexivity|]. cbn. apply list_lookup_insert_eq. eapply lookup_lt_Some, Hl.
Qed.

End Outcomes.

(** Whether the first entry of the list of steps is 0. *)
Definition starts_at_zero (l : list pynum) : bool :=
  match l with
  | t0 :: _ => num_eqb t0 (PInt 0)
  | [] => false
  end.

(** The step counts at which an entry is recorded, in the order of the
    trace: 0 when the first step is 0, then the loop's hits. *)
Definition recorded (l : list pynum) (K : nat) : list Z :=
  (if starts_at_zero l then [0%Z] else []) ++ map (fun i => Z.of_nat i + 1)%Z (hits l 0 K).

Lemma hits_sorted (l : list pynum) (a k : nat) :
  StronglySorted lt (hits l a k) /\ Forall (fun i => a <= i < a + k) (hits l a k).
Proof.
  revert a. induction k as [|k IH]; intros a; [split; constructor|].
  rewrite hits_succ. destruct (IH (S a)) as [Hs F].
  assert (F' : Forall (fun i => a <= i < a + S k) (hits l (S a) k)).
  { eapply Forall_impl; [exact F|]. cbn. intros i Hi. lia. }
  destruct (hit l a); cbn [app]; [|now split].
  split.
  - constructor; [exact Hs|]. eapply Forall_impl; [exact F|]. cbn. intros i Hi. lia.
  - constructor; [lia | exact F'].
Qed.

Lemma hits_In (l : list pynum) (K i : nat) :
  In i (hits l 0 K) <-> i < K /\ exists t, In t l /\ (num_val t == inject_Z (Z.of_nat i + 1))%Q.
Proof.
  unfold hits. rewrite filter_In, in_seq. unfold hit. rewrite existsb_exists.
  split.
  - intros [H (t & Ht & E)]. split; [lia|]. exists t. split; [exact Ht|].
    unfold num_eqb in E. apply Qeq_bool_eq in E. cbn [num_val] in E. now symmetry.
  - intros [H (t & Ht & E)]. split; [lia|]. exists t. split; [exact Ht|].
    unfold num_eqb. apply Qeq_bool_iff. cbn [num_val]. now symmetry.
Qed.

Lemma recorded_sorted (l : list pynum) (K : nat) : StronglySorted Z.lt (recorded l K).
Proof.
  unfold recorded. destruct (hits_sorted l 0 K) as [Hs F].
  assert (S' : StronglySorted Z.lt (map (fun i => Z.of_nat i + 1)%Z (hits l 0 K))).
  { induction Hs as [|i s Hs IH Fi]; cbn [map]; constructor.
    - apply IH. now apply Forall_inv_tail in F.
    - rewrite Forall_forall in Fi. rewrite Forall_forall. intros z Hz.
      apply list_elem_of_In, in_map_iff in Hz. destruct Hz as (j & <- & Hj).
      apply list_elem_of_In in Hj. specialize (Fi j Hj). lia. }
  destruct (starts_at_zero l); cbn [app]; [|exact S'].
  constructor; [exact S'|]. rewrite Forall_forall. intros z Hz.
  apply list_elem_of_In, in_map_iff in Hz. destruct Hz as (j & <- & _). lia.
Qed.

Lemma recorded_bounds (l : list pynum) (K : nat) :
  Forall (fun k => 0 <= k <= Z.of_nat K)%Z (recorded l K).
Proof.
  unfold recorded. apply Forall_app. split.
  - destruct (starts_at_zero l); [constructor; [lia | constructor] | constructor].
  - rewrite Forall_forall. intros k Hk. apply list_elem_of_In, in_map_iff in Hk.
    destruct Hk as (i & <- & Hi). apply hits_In in Hi. lia.
Qed.

Lemma recorded_steps_of (l : list pynum) (n k : Z) :
  valid_times l -> (0 < n <= max_slices)%Z ->
  In k (recorded (steps_of l n) (Z.to_nat n)) <-> In (PInt k) (steps_of l n).
Proof.
  intros V Hn.
  assert (B : forall z, In (PInt z) (steps_of l n) -> (0 <= z <= n)%Z).
  { intros z Hz. apply steps_of_In in Hz. destruct Hz as (t & Ht & ->).
    now apply step_Z_bounds. }
  pose proof (steps_of_sorted l n (valid_times_ranged l V) Hn) as Hs.
  unfold recorded. rewrite in_app_iff, in_map_iff. split.
  - intros [H | (i & <- & Hi)].
    + destruct (steps_of l n) as [|t0 r] eqn:E; cbn [starts_at_zero] in H; [destruct H|].
      destruct (num_eqb t0 (PInt 0)) eqn:Z0; [|destruct H].
      destruct H as [<- | []].
      destruct (steps_of_ints l n t0) as [z ->]; [rewrite E; now left|].
      unfold num_eqb in Z0. apply Qeq_bool_eq in Z0. cbn [num_val] in Z0.
      apply (proj1 (inject_Z_injective z 0%Z)) in Z0. subst z. now left.
    + apply hits_In in Hi. destruct Hi as [_ (t & Ht & E)].
      destruct (steps_of_ints l n t Ht) as [z ->]. cbn [num_val] in E.
      apply (proj1 (inject_Z_injective z _)) in E. now subst z.
  - intros H. pose proof (B k H) as Hb.
    destruct (Z.eq_dec k 0%Z) as [-> | Hk].
    + left. destruct (steps_of l n) as [|t0 r] eqn:E; [destruct H|].
      cbn [starts_at_zero].
      assert (num_eqb t0 (PInt 0) = true) as ->; [|now left].
      destruct (steps_of_ints l n t0) as [z ->]; [rewrite E; now left|].
      pose proof (sorted_head_min r (PInt z) (PInt 0) Hs H) as Hle.
      assert (0 <= z)%Z by (apply B; now left).
      unfold num_le in Hle. cbn [num_val] in Hle. rewrite <- Zle_Qle in Hle.
      assert (z = 0%Z) as -> by lia. reflexivity.
    + right. exists (Z.to_nat (k - 1)). split; [lia|].
      apply hits_In. split; [lia|]. exists (PInt k). split; [exact H|].
      cbn [num_val]. apply inject_Z_injective. lia.
Qed.

Section Driver.
Context {Sub : Substrate}.
Implicit Types (w : World Sub).

(** ** The evolution driver *)

Lemma time_evolution_full w (state u ts : loc) (tau : Q) (method : string) (compr : Compr)
    (sv uv : MPArray) (l : list pynum) (K : Z) :
  holds w state sv -> holds w u uv ->
  pylists w !! ts = Some l -> last l = Some (PInt K) ->
  loop_safe tau (Z.to_nat K) ->
  yields (_time_evolution state u ts tau method compr) w
    (fun (tr : Trace) w' =>
       let z := starts_at_zero l in
       let pre := if z then [PInt 0] else [] in
       let hs := hits l 0 (Z.to_nat K) in
       ext w w' /\
       tr_times tr = pre ++ map (time_at tau) hs /\
       tr_trot_errors tr = pre ++ map (fun i => PFloat (trot_acc tau (S i))) hs /\
       tr_compr_errors tr =
         pre ++ map (fun i => PFloat (overlap_acc uv method compr sv (S i))) hs /\
       (exists fresh : list loc,
          tr_states tr = (if z then [state] else []) ++ fresh /\
          Forall (fun r => length (mpas w) <= r) fresh) /\
       NoDup (tr_states tr) /\
       Forall2 (holds w') (tr_states tr)
               ((if z then [sv] else [])
                  ++ map (fun i => evolved uv method compr sv (S i)) hs)).
Proof.
  intros Hs Hu Hl HK Safe. unfold _time_evolution.
  apply yields_bind. eapply yields_eq; [unfold get_list; rewrite Hl; reflexivity|].
  destruct l as [|t0 l0]; [discriminate|].
  apply yields_bind. eapply yields_lift; [reflexivity|].
  cbn [starts_at_zero].
  apply yields_bind.
  assert (Hd : yields (if String.eqb method "mpo"
                       then uT ← mp_T u; ud ← mp_conj uT; mret (Some ud)
                       else mret None) w
                 (fun d w1 => ext w w1 /\ dagger_ok w1 method d uv)).
  { destruct (String.eqb method "mpo") eqn:Em.
    - unfold mp_T, mp_conj.
      apply yields_bind. apply yields_bind. eapply yields_get; [exact Hu|].
      apply yields_new.
      apply yields_bind. apply yields_bind. eapply yields_get; [apply holds_push|].
      apply yields_new. apply yields_ret. split.
      + eapply ext_trans; apply ext_push.
      + intros _. eexists. split; [reflexivity|]. apply holds_push.
    - apply yields_ret. split; [apply ext_refl|]. intros C. congruence. }
  eapply yields_mono; [exact Hd|]. clear Hd. intros d w1 [E1 Hd].
  apply yields_bind. eapply yields_lift; [unfold py_last; rewrite HK; reflexivity|].
  apply yields_bind. apply yields_ret.
  apply yields_bind.
  eapply yields_mono.
  { eapply (for_each_full u ts d tau method compr uv sv (t0 :: l0) (Z.to_nat K) 0 _ w1
              (if num_eqb t0 (PInt 0) then [sv] else [])).
    - exact Safe.
    - eapply holds_ext; eauto.
    - exact Hd.
    - cbn [lv_state]. eapply holds_ext; eauto.
    - destruct E1 as [_ Q]. now rewrite Q.
    - reflexivity.
    - reflexivity.
    - cbn [lv_trace tr_states]. destruct (num_eqb t0 (PInt 0)); [|constructor].
      constructor; [eapply holds_ext; eauto | constructor].
    - cbn [lv_trace tr_states]. destruct (num_eqb t0 (PInt 0));
        [apply NoDup_singleton | constructor]. }
  intros v w2 (E2 & Ti & Tr & Co & (fresh & Fr & Ff) & Nd & St). apply yields_ret.
  cbn [lv_trace tr_times tr_trot_errors tr_compr_errors tr_states] in Ti, Tr, Co, Fr.
  split; [eapply ext_trans; eauto|].
  split; [exact Ti|]. split; [exact Tr|]. split; [exact Co|].
  split; [|split; [exact Nd | exact St]].
  exists fresh. split; [exact Fr|].
  eapply Forall_impl; [exact Ff|]. cbn. intros r Hr. apply ext_length in E1. lia.
Qed.

(** The store after the two in-place steps [evolve] starts with: the initial
    compression of the caller's state and the conversion of the caller's
    times. *)
Definition after_steps w (state ts : loc) (method : string) (sv : MPArray)
    (l : list pynum) (n : Z) : World Sub :=
  mkWorld (mpas (after_compress w state method sv))
          (<[ts := steps_of l n]> (pylists w)).

(** The propagator [evolve] builds. *)
Definition propagator (order : Z) (tau : Q) (ms bs : list ndarray) : MPArray :=
  squeezed (if (order =? 2)%Z then slice2 tau ms bs else slice4 tau ms bs).

Lemma holds_after_compress_ne w (state r : loc) (method : string) (sv v : MPArray) :
  r <> state -> holds w r v -> holds (after_compress w state method sv) r v.
Proof.
  intros Hne H. unfold holds, after_compress. cbn.
  rewrite lookup_app_l by (rewrite length_insert; eapply lookup_lt_Some, H).
  now rewrite list_lookup_insert_ne.
Qed.

Lemma evolve_full w (state ts : loc) (hs : list (pyobj Sub)) (n : Z) (method : string)
    (compr : Compr) (order : Z) (sv : MPArray) (l : list pynum) (ms bs : list ndarray) :
  holds w state sv -> 3 <= mpa_len (squeezed sv) ->
  pylists w !! ts = Some l ->
  ranged_times l -> n <> 0%Z -> (Z.abs n <= max_slices)%Z ->
  describes hs (mpa_len (squeezed sv)) ms bs ->
  order = 2%Z \/ order = 4%Z ->
  yields (evolve state hs ts n method compr order) w
    (fun (tr : Trace) w' =>
       let tau := tau_of l n in
       let steps := steps_of l n in
       let U := propagator order tau ms bs in
       let z := starts_at_zero steps in
       let pre := if z then [PInt 0] else [] in
       let hs := hits steps 0 (Z.to_nat n) in
       pylists w' = <[ts := steps]> (pylists w) /\
       holds w' state (squeezed sv) /\
       (forall r v, r <> state -> holds w r v -> holds w' r v) /\
       tr_times tr = pre ++ map (time_at tau) hs /\
       tr_trot_errors tr = pre ++ map (fun i => PFloat (trot_acc tau (S i))) hs /\
       tr_compr_errors tr =
         pre ++ map (fun i => PFloat (overlap_acc U method compr (squeezed sv) (S i))) hs /\
       (exists fresh : list loc,
          tr_states tr = (if z then [state] else []) ++ fresh /\
          Forall (fun r => length (mpas w) <= r) fresh) /\
       NoDup (tr_states tr) /\
       Forall2 (holds w') (tr_states tr)
               ((if z then [squeezed sv] else [])
                  ++ map (fun i => evolved U method compr (squeezed sv) (S i)) hs)).
Proof.
  intros Hs H3 Hl R Hn Hm D Ho. unfold evolve.
  pose proof (ranged_not_all_zero l R) as Hz.
  apply yields_bind. eapply yields_eq; [apply _compress_run, Hs|].
  set (w1 := after_compress w state method sv).
  assert (Hs1 : holds w1 state (squeezed sv)) by now apply holds_after_compress.
  apply yields_bind. unfold mp_len at 1. apply yields_bind.
  eapply yields_get; [exact Hs1|]. apply yields_ret.
  assert ((mpa_len (squeezed sv) <? 3) = false) as -> by (apply Nat.ltb_ge; lia).
  apply yields_bind. eapply yields_eq; [unfold get_list; cbn; rewrite Hl; reflexivity|].
  rewrite Hz.
  apply yields_bind. eapply yields_eq.
  { apply times_to_steps_run; [exact Hl | exact R | exact Hn | exact Hm]. }
  change (mkWorld (mpas w1) (<[ts := steps_of l n]> (pylists w1)))
    with (after_steps w state ts method sv l n).
  set (w2 := after_steps _ _ _ _ _ _ _).
  assert (Hs2 : holds w2 state (squeezed sv)) by exact Hs1.
  apply yields_bind. unfold mp_len. apply yields_bind.
  eapply yields_get; [exact Hs2|]. apply yields_ret.
  apply yields_bind. eapply yields_mono; [eapply trotter_slice_made; eassumption|].
  intros u w3 (E3 & L3 & H3').
  apply yields_bind. eapply yields_eq; [apply _compress_run, H3'|].
  set (w4 := after_compress w3 u method _).
  assert (E4 : ext w2 w4) by now apply ext_after_compress.
  assert (Hl4 : pylists w4 !! ts = Some (steps_of l n)).
  { destruct E4 as [_ Q]. rewrite Q. unfold w2, after_steps. cbn.
    apply list_lookup_insert_eq. eapply lookup_lt_Some, Hl. }
  assert (Lw : length (mpas w) <= length (mpas w4)).
  { apply ext_length in E4. etrans; [|exact E4]. unfold w2, after_steps, after_compress.
    cbn. rewrite length_app, length_insert. lia. }
  eapply yields_mono.
  { eapply time_evolution_full.
    - eapply holds_ext; [exact Hs2 | exact E4].
    - now apply holds_after_compress.
    - exact Hl4.
    - now apply steps_of_last.
    - apply loop_safe_range; [now apply tau_of_facts | lia]. }
  cbv zeta. intros tr w5 (E5 & Ti & Tr & Co & (fresh & Fr & Ff) & Nd & St).
  assert (E25 : ext w2 w5) by (eapply ext_trans; eauto).
  split. { destruct E25 as [_ Q]. rewrite Q. reflexivity. }
  split. { eapply holds_ext; [exact Hs2 | exact E25]. }
  split.
  { intros r v Hr Hv. eapply holds_ext; [|exact E25].
    apply (holds_after_compress_ne w state r method sv v Hr Hv). }
  split; [exact Ti|]. split; [exact Tr|]. split; [exact Co|].
  split; [|split; [exact Nd | exact St]].
  exists fresh. split; [exact Fr|].
  eapply Forall_impl; [exact Ff|]. intros r Hr. exact (Nat.le_trans _ _ _ Lw Hr).
Qed.

End Driver.

Section Errors.
Context {Sub : Substrate}.
Implicit Types (w : World Sub).

(** ** Configuration errors *)

Lemma run_bind_ok {X Y : Type} (m : M X) (f : X -> M Y) w (x : X) w' :
  m w = (Ok x, w') -> (m ≫= f) w = f x w'.
Proof. intros E. unfold mbind, M_bind. now rewrite E. Qed.

Lemma run_bind_raise {X Y : Type} (m : M X) (f : X -> M Y) w (e : exn) w' :
  m w = (Raise e, w') -> (m ≫= f) w = (Raise e, w').
Proof. intros E. unfold mbind, M_bind. now rewrite E. Qed.

Definition too_few_sites : exn := ValueError "State has too few sites".
Definition no_evolution : exn :=
  ValueError "No time evolution requested by the user. Check your input 't'".
Definition bad_order (order : Z) : exn :=
  ValueError (String.append "Trotter order "
                (String.append (py_str order) " is currently not implemented.")).
Definition bad_lengths : exn :=
  ValueError "Number of given Hamiltonians does not match number of sites".
Definition bad_legs : exn :=
  ValueError "Not all sites have the same number of physical legs".

Lemma mp_len_run w (a : loc) (v : MPArray) :
  holds w a v -> mp_len a w = (Ok (mpa_len v), w).
Proof. intros H. unfold mp_len, get_mpa, mbind, M_bind. now rewrite H. Qed.

Lemma evolve_too_few_run w (state ts : loc) (hs : list (pyobj Sub)) (n : Z)
    (method : string) (compr : Compr) (order : Z) (sv : MPArray) :
  holds w state sv -> mpa_len (squeezed sv) < 3 ->
  evolve state hs ts n method compr order w =
    (Raise too_few_sites, after_compress w state method sv).
Proof.
  intros Hs H3. unfold evolve.
  erewrite run_bind_ok by (apply _compress_run, Hs).
  erewrite run_bind_ok by (apply mp_len_run, holds_after_compress, Hs).
  apply Nat.ltb_lt in H3. now rewrite H3.
Qed.

Lemma evolve_all_zero_run w (state ts : loc) (hs : list (pyobj Sub)) (n : Z)
    (method : string) (compr : Compr) (order : Z) (sv : MPArray) (l : list pynum) :
  holds w state sv -> 3 <= mpa_len (squeezed sv) ->
  pylists w !! ts = Some l -> forallb (fun t => num_eqb t (PInt 0)) l = true ->
  evolve state hs ts n method compr order w =
    (Raise no_evolution, after_compress w state method sv).
Proof.
  intros Hs H3 Hl Hz. unfold evolve.
  erewrite run_bind_ok by (apply _compress_run, Hs).
  erewrite run_bind_ok by (apply mp_len_run, holds_after_compress, Hs).
  apply Nat.ltb_ge in H3. rewrite H3.
  erewrite run_bind_ok by (unfold get_list; cbn; rewrite Hl; reflexivity).
  now rewrite Hz.
Qed.

(** [evolve] on a state of at least three sites and times that are not all
    zero: the conversion of the times comes first, and its failure is the
    outcome of the call; when it returns, a failure of [_trotter_slice] is. *)
Lemma evolve_conversion_fails w (state ts : loc) (hs : list (pyobj Sub)) (n : Z)
    (method : string) (compr : Compr) (order : Z) (sv : MPArray) (l : list pynum)
    (e : exn) w2 :
  holds w state sv -> 3 <= mpa_len (squeezed sv) ->
  pylists w !! ts = Some l -> forallb (fun t => num_eqb t (PInt 0)) l = false ->
  _times_to_steps ts n (after_compress w state method sv) = (Raise e, w2) ->
  evolve state hs ts n method compr order w = (Raise e, w2).
Proof.
  intros Hs H3 Hl Hz He. unfold evolve.
  erewrite run_bind_ok by (apply _compress_run, Hs).
  erewrite run_bind_ok by (apply mp_len_run, holds_after_compress, Hs).
  apply Nat.ltb_ge in H3. rewrite H3.
  erewrite run_bind_ok by (unfold get_list; cbn; rewrite Hl; reflexivity).
  rewrite Hz. erewrite run_bind_raise by exact He. reflexivity.
Qed.

Lemma evolve_to_slice w (state ts : loc) (hs : list (pyobj Sub)) (n : Z)
    (method : string) (compr : Compr) (order : Z) (sv : MPArray) (l : list pynum)
    (tau : Q) w2 (e : exn) :
  holds w state sv -> 3 <= mpa_len (squeezed sv) ->
  pylists w !! ts = Some l -> forallb (fun t => num_eqb t (PInt 0)) l = false ->
  _times_to_steps ts n (after_compress w state method sv) = (Ok tau, w2) ->
  (forall w', _trotter_slice hs tau (Z.of_nat (mpa_len (squeezed sv))) order w'
              = (Raise e, w')) ->
  evolve state hs ts n method compr order w = (Raise e, w2).
Proof.
  intros Hs H3 Hl Hz Ht He. unfold evolve.
  erewrite run_bind_ok by (apply _compress_run, Hs).
  erewrite run_bind_ok by (apply mp_len_run, holds_after_compress, Hs).
  apply Nat.ltb_ge in H3. rewrite H3.
  erewrite run_bind_ok by (unfold get_list; cbn; rewrite Hl; reflexivity).
  rewrite Hz. erewrite run_bind_ok by exact Ht.
  assert (Hs2 : holds w2 state (squeezed sv)).
  { pose proof (times_to_steps_mpas (after_compress w state method sv) ts n) as M.
    rewrite Ht in M. cbn [snd] in M. unfold holds. rewrite M.
    apply (holds_after_compress w), Hs. }
  erewrite run_bind_ok by (apply mp_len_run, Hs2).
  erewrite run_bind_raise by apply He. reflexivity.
Qed.

Lemma trotter_slice_bad_order w (hs : list (pyobj Sub)) (tau : Q) (N order : Z) :
  order <> 2%Z -> order <> 4%Z ->
  _trotter_slice hs tau N order w = (Raise (bad_order order), w).
Proof.
  intros H2 H4. unfold _trotter_slice.
  apply Z.eqb_neq in H2, H4. now rewrite H2, H4.
Qed.

(** The two explicit lists do not have [N] and [N - 1] items. *)
Definition mismatched (h0 h1 : pyobj Sub) (N : Z) : Prop :=
  is_list h0 = true /\ (Z.of_nat (py_len h0) <> N \/ Z.of_nat (py_len h1) <> (N - 1)%Z).

Lemma get_h_list_mismatch (h0 h1 : pyobj Sub) (rest : list (pyobj Sub)) (N : Z) :
  mismatched h0 h1 N -> _get_h_list (h0 :: h1 :: rest) N = Raise bad_lengths.
Proof.
  intros [L Hm]. unfold _get_h_list. cbn. rewrite L. cbn.
  destruct Hm as [H | H]; apply Z.eqb_neq in H.
  - now rewrite H.
  - destruct (Z.of_nat (py_len h0) =? N)%Z; cbn; [now rewrite H | reflexivity].
Qed.

Lemma trotter_slice_mismatch w (h0 h1 : pyobj Sub) (rest : list (pyobj Sub)) (tau : Q)
    (N order : Z) :
  mismatched h0 h1 N -> order = 2%Z \/ order = 4%Z ->
  _trotter_slice (h0 :: h1 :: rest) tau N order w = (Raise bad_lengths, w).
Proof.
  intros Hm [-> | ->]; unfold _trotter_slice; cbn [Z.eqb Pos.eqb];
    unfold _trotter_two, _trotter_four;
    (erewrite run_bind_raise; [reflexivity|]);
    unfold lift; now rewrite get_h_list_mismatch.
Qed.

Lemma matrix_to_mpo_bad_legs w (matrix : ndarray) (row0 : list nat) (rest : list (list nat)) :
  forallb (fun row => length row =? length row0) rest = false ->
  matrix_to_mpo matrix (row0 :: rest) w = (Raise bad_legs, w).
Proof.
  intros H. unfold matrix_to_mpo.
  erewrite run_bind_ok by reflexivity.
  cbn [forallb]. rewrite Nat.eqb_refl, H. reflexivity.
Qed.

(** The configuration of the propagator is rejected: the order is neither 2
    nor 4, or it is and the two explicit lists do not match the chain. *)
Definition rejected (hs : list (pyobj Sub)) (N order : Z) : Prop :=
  (order <> 2%Z /\ order <> 4%Z) \/
  ((order = 2%Z \/ order = 4%Z) /\
   exists h0 h1 rest, hs = h0 :: h1 :: rest /\ mismatched h0 h1 N).

(** The ValueError of a rejected configuration. *)
Definition rejection (order : Z) : exn :=
  if ((order =? 2) || (order =? 4))%Z then bad_lengths else bad_order order.

Lemma trotter_slice_rejected w (hs : list (pyobj Sub)) (tau : Q) (N order : Z) :
  rejected hs N order -> _trotter_slice hs tau N order w = (Raise (rejection order), w).
Proof.
  unfold rejection. intros [[H2 H4] | [Ho (h0 & h1 & rest & -> & Hm)]].
  - rewrite (proj2 (Z.eqb_neq _ _) H2), (proj2 (Z.eqb_neq _ _) H4).
    now apply trotter_slice_bad_order.
  - assert (((order =? 2) || (order =? 4))%Z = true) as ->.
    { destruct Ho as [-> | ->]; reflexivity. }
    now apply trotter_slice_mismatch.
Qed.

Lemma rejection_is_value_error (order : Z) : exists msg, rejection order = ValueError msg.
Proof. unfold rejection, bad_lengths, bad_order. destruct (_ || _)%Z; eauto. Qed.


(** C2, as the code has it.  Each configuration error is raised before any
    network of the propagator is built: the store holds no object beyond
    those of the initial [_compress(state, method)], which has compressed
    the caller's state in place.  The errors for too few sites and for
    all-zero times leave the caller's list of times as it was.  The errors
    for an unsupported order and for mismatched lists are raised only when
    the conversion of the times has returned, and so always after the list
    has been sorted and its entries replaced by the steps
    [int(round(t / tau))]; for times and slices in range these errors are
    raised, and the list holds [steps_of l n]. *)
Theorem evolve_errors_store w (state ts : loc) (hs : list (pyobj Sub)) (n : Z)
    (method : string) (compr : Compr) (order : Z) (sv : MPArray) (l : list pynum) :
  holds w state sv -> pylists w !! ts = Some l ->
  let N := mpa_len (squeezed sv) in
  let run := evolve state hs ts n method compr order w in
  let setup := after_compress w state method sv in
  holds setup state (squeezed sv) /\
  (N < 3 -> run = (Raise too_few_sites, setup) /\ pylists setup !! ts = Some l) /\
  (3 <= N -> forallb (fun t => num_eqb t (PInt 0)) l = true ->
   run = (Raise no_evolution, setup) /\ pylists setup !! ts = Some l) /\
  (3 <= N -> forallb (fun t => num_eqb t (PInt 0)) l = false ->
   rejected hs (Z.of_nat N) order ->
   mpas (snd run) = mpas setup /\
   ((exists msg, fst run = Raise (ValueError msg)) ->
    fst run = Raise (rejection order) /\
    exists (tau : Q) (steps : list pynum),
      fst (_times_to_steps ts n setup) = Ok tau /\
      pylists (snd run) !! ts = Some steps /\
      Forall2 (fun t s => exists q, py_truediv t (PFloat tau) = Ok q /\ s = PInt (py_round q))
              (py_sort l) steps) /\
   (ranged_times l -> n <> 0%Z -> (Z.abs n <= max_slices)%Z ->
    fst run = Raise (rejection order) /\
    pylists (snd run) !! ts = Some (steps_of l n))).
Proof.
  intros Hs Hl N run setup. subst run N setup.
  pose proof (holds_after_compress w state method sv Hs) as Hs1.
  assert (Hl1 : pylists (after_compress w state method sv) !! ts = Some l) by exact Hl.
  split; [exact Hs1|]. split; [|split].
  - intros H. split; [|exact Hl].
    apply (evolve_too_few_run w state ts hs n method compr order sv Hs H).
  - intros H Hz. split; [|exact Hl].
    apply (evolve_all_zero_run w state ts hs n method compr order sv l Hs H Hl Hz).
  - intros H Hz Hr.
    pose proof (times_to_steps_mpas (after_compress w state method sv) ts n) as M.
    destruct (_times_to_steps ts n (after_compress w state method sv)) as [[tau|e] w2] eqn:Et;
      cbn [snd fst] in M |- *.
    + rewrite (evolve_to_slice w state ts hs n method compr order sv l tau w2
                 (rejection order) Hs H Hl Hz Et)
        by (intros w'; now apply trotter_slice_rejected).
      cbn [fst snd].
      destruct (times_to_steps_returns _ ts l n tau w2 Hl1 Et)
        as (t & steps & Ht & Hd & F & Ew & Hp).
      split; [exact M|]. split.
      * intros _. split; [reflexivity|]. exists tau, steps. auto.
      * intros R Hn Hm. split; [reflexivity|].
        rewrite (times_to_steps_run _ ts l n Hl1 R Hn Hm) in Et.
        injection Et as _ <-. cbn. apply list_lookup_insert_eq. eapply lookup_lt_Some, Hl.
    + rewrite (evolve_conversion_fails w state ts hs n method compr order sv l e w2
                 Hs H Hl Hz Et).
      cbn [fst snd]. split; [exact M|].
      destruct (times_to_steps_raises _ ts l n e w2 Hl1 Et) as [Ce _].
      split.
      * intros [msg [= ->]]. exfalso. exact (conversion_exn_not_value _ msg Ce eq_refl).
      * intros R Hn Hm. rewrite (times_to_steps_run _ ts l n Hl1 R Hn Hm) in Et.
        discriminate.
Qed.

End Errors.

(** ** The evolution trace *)

Section Accumulation.
Local Open Scope Q_scope.




(** The recorded times and errors, entry by entry, for the recorded step
    counts [pre ++ map (+1) hs]. *)
Lemma trace_entries (tau : Q) (l : list pynum) (K : nat) :
  let pre := if starts_at_zero l then [PInt 0] else [] in
  let hs := hits l 0 K in
  Forall2 (fun t k => num_val t == round64 (tau * inject_Z k))
          (pre ++ map (time_at tau) hs) (recorded l K) /\
  Forall2 (fun e k => num_val e == trot_acc tau (Z.to_nat k))
          (pre ++ map (fun i => PFloat (trot_acc tau (S i))) hs) (recorded l K).
Proof.
  cbv zeta. unfold recorded. split; apply Forall2_app.
  - destruct (starts_at_zero l); constructor; [|constructor].
    cbn [num_val]. change (inject_Z 0) with 0. symmetry. apply round64_zero. ring.
  - induction (hits l 0 K) as [|i r IH]; cbn [map]; constructor; [|exact IH].
    unfold time_at, time_val. cbn [num_val]. reflexivity.
  - destruct (starts_at_zero l); constructor; [|constructor].
    cbn [num_val]. reflexivity.
  - induction (hits l 0 K) as [|i r IH]; cbn [map]; constructor; [|exact IH].
    cbn [num_val]. replace (Z.to_nat (Z.of_nat i + 1)) with (S i) by lia. reflexivity.
Qed.

Lemma times_sorted_lt (tau : Q) (ts : list pynum) (ks : list Z) :
  pow2 (-240) <= tau -> tau <= time_max ->
  StronglySorted Z.lt ks -> Forall (fun k => 0 <= k <= max_slices)%Z ks ->
  Forall2 (fun t k => num_val t == round64 (tau * inject_Z k)) ts ks ->
  StronglySorted Qlt (map num_val ts).
Proof.
  intros L U Hs Hb F. revert Hs Hb.
  induction F as [|t k ts ks E F IH]; intros Hs Hb; [constructor|].
  apply StronglySorted_inv in Hs. destruct Hs as [Hs Hk].
  pose proof (Forall_inv Hb) as Bk. apply Forall_inv_tail in Hb.
  cbn [map]. constructor; [now apply IH|].
  rewrite Forall_forall in Hk, Hb. rewrite Forall_forall. intros q Hq.
  apply list_elem_of_In, in_map_iff in Hq. destruct Hq as (t' & <- & Ht').
  apply list_elem_of_In in Ht'.
  destruct (proj1 (list_elem_of_lookup _ _) Ht') as [i Hi].
  destruct (Forall2_lookup_l _ _ _ _ _ F Hi) as (k' & Hk' & E').
  assert (In' : k' ∈ ks) by (eapply list_elem_of_lookup_2; eauto).
  assert (k < k')%Z as Lk by (apply Hk; exact In').
  pose proof (Hb k' In') as Bk'. cbn beta in Bk, Bk'.
  rewrite E, E'. apply time_val_lt; [exact L | exact U | lia | lia].
Qed.


End Accumulation.

Lemma starts_at_zero_steps (l : list pynum) (n : Z) :
  valid_times l -> (0 < n <= max_slices)%Z ->
  (exists t, In t l /\ (num_val t == 0)%Q) -> starts_at_zero (steps_of l n) = true.
Proof.
  intros V Hn (t & Ht & E).
  assert (H0 : In (PInt 0) (steps_of l n)).
  { apply steps_of_In. exists t. split; [exact Ht|]. symmetry. now apply step_Z_zero. }
  pose proof (steps_of_sorted l n (valid_times_ranged l V) Hn) as Hs.
  assert (B : forall z, In (PInt z) (steps_of l n) -> (0 <= z)%Z).
  { intros z Hz. apply steps_of_In in Hz. destruct Hz as (t' & Ht' & ->).
    now apply step_Z_bounds. }
  destruct (steps_of l n) as [|t0 r] eqn:Es; [destruct H0|]. cbn [starts_at_zero].
  destruct (steps_of_ints l n t0) as [z ->]; [rewrite Es; now left|].
  pose proof (sorted_head_min r (PInt z) (PInt 0) Hs H0) as Hle.
  assert (0 <= z)%Z by (apply B; now left).
  unfold num_le in Hle. cbn [num_val] in Hle. rewrite <- Zle_Qle in Hle.
  assert (z = 0%Z) as -> by lia. reflexivity.
Qed.

Section Traces.
Context {Sub : Substrate}.
Implicit Types (w : World Sub).

(** C4, as the code has it, for times and a number of slices in range.  The
    four lists have the same length.  There is exactly one entry for each
    distinct step among the requested times; the step of a time [t] is
    [round(t / tau)] for the float quotient [t / tau], so equal times, and
    times whose quotients round to the same integer, share one entry.  The
    entries are in strictly increasing time order, at the float products
    [tau * k] of the recorded steps [k], and when 0 is requested the first
    entry is at time 0. *)
Theorem evolve_trace_shape w (state ts : loc) (hs : list (pyobj Sub)) (n : Z)
    (method : string) (compr : Compr) (order : Z) (sv : MPArray) (l : list pynum)
    (ms bs : list ndarray) :
  holds w state sv -> 3 <= mpa_len (squeezed sv) ->
  pylists w !! ts = Some l -> valid_times l -> (0 < n <= max_slices)%Z ->
  describes hs (mpa_len (squeezed sv)) ms bs ->
  order = 2%Z \/ order = 4%Z ->
  let tau := round64 (t_max l / inject_Z n) in
  exists (tr : Trace) w' (ks : list Z),
    evolve state hs ts n method compr order w = (Ok tr, w') /\
    length (tr_states tr) = length (tr_times tr) /\
    length (tr_compr_errors tr) = length (tr_times tr) /\
    length (tr_trot_errors tr) = length (tr_times tr) /\
    Forall2 (fun t k => num_val t == round64 (tau * inject_Z k))%Q (tr_times tr) ks /\
    StronglySorted Z.lt ks /\
    (forall k, In k ks <->
               exists t, In t l /\ k = py_round (round64 (num_val t / tau))) /\
    StronglySorted Qlt (map num_val (tr_times tr)) /\
    ((exists t, In t l /\ (num_val t == 0)%Q) ->
     exists t0 rest, tr_times tr = t0 :: rest /\ (num_val t0 == 0)%Q).
Proof.
  intros Hs H3 Hl V Hn D Ho tau. pose proof (valid_times_ranged l V) as R.
  destruct (evolve_full w state ts hs n method compr order sv l ms bs Hs H3 Hl R
              ltac:(lia) ltac:(lia) D Ho)
    as (tr & w' & E & _ & _ & _ & Ti & Tr & Co & _ & _ & St).
  fold (tau_of l n) in tau.
  exists tr, w', (recorded (steps_of l n) (Z.to_nat n)).
  destruct (trace_entries tau (steps_of l n) (Z.to_nat n)) as [Ft Fe]. cbv zeta in Ft, Fe.
  fold tau in Ti, Tr. rewrite <- Ti in Ft. rewrite <- Tr in Fe.
  split; [exact E|].
  split.
  { apply Forall2_length_eq in St. rewrite St, Ti, !length_app, !length_map.
    now destruct (starts_at_zero _). }
  split; [rewrite Co, Ti, !length_app, !length_map; reflexivity|].
  split; [rewrite Ti, Tr, !length_app, !length_map; reflexivity|].
  split; [exact Ft|].
  split; [apply recorded_sorted|].
  split; [intros k; rewrite recorded_steps_of by assumption; apply steps_of_In|].
  split.
  - destruct (tau_of_facts l n R ltac:(lia) ltac:(lia)) as (B1 & B2 & P & _).
    specialize (P ltac:(lia)). fold tau in B1, B2, P.
    rewrite (Qabs_pos tau) in B1, B2 by (apply Qlt_le_weak, P).
    apply (times_sorted_lt tau _ (recorded (steps_of l n) (Z.to_nat n)) B1 B2);
      [apply recorded_sorted | | exact Ft].
    eapply Forall_impl; [apply recorded_bounds|]. cbn. intros k Hk. lia.
  - intros Hz. rewrite Ti, (starts_at_zero_steps l n V Hn Hz). cbn [app].
    eexists _, _. split; [reflexivity|]. reflexivity.
Qed.


End Traces.

(** The requested times [0, 1.0, 2.5]. *)
Definition times_example : list pynum := [PInt 0; PFloat 1; PFloat (5 # 2)].

Lemma times_example_valid : valid_times times_example.
Proof.
  split.
  - unfold times_example.
    repeat (constructor; [split; vm_compute; discriminate|]). constructor.
  - apply Exists_cons_tl, Exists_cons_hd. vm_compute. discriminate.
Qed.

Section Conversion.
Context {Sub : Substrate}.
Implicit Types (w : World Sub).

(** C6, as the code has it: for times in range, non-negative and not all
    zero, and a positive number of slices in range, [_times_to_steps]
    returns the float quotient [tau = max(times) / n] and leaves in the list
    the steps [round(t / tau)] of the sorted times, [t / tau] being the float
    quotient; the steps are in ascending order.  For [0, 1.0, 2.5] and 5
    slices [tau] is 0.5 and the steps are [0, 2, 5], and a run of [evolve]
    records exactly three entries, at the times 0, 1.0 and 2.5. *)
Theorem times_to_steps_spec w (ts : loc) (l : list pynum) (n : Z) :
  pylists w !! ts = Some l -> valid_times l -> (0 < n <= max_slices)%Z ->
  (_times_to_steps ts n w =
     (Ok (tau_of l n), mkWorld (mpas w) (<[ts := steps_of l n]> (pylists w))) /\
   (exists t, In t l /\ (forall x, In x l -> num_val x <= num_val t)%Q /\
              tau_of l n = round64 (num_val t / inject_Z n)) /\
   steps_of l n
     = map (fun t => PInt (py_round (round64 (num_val t / tau_of l n)))) (py_sort l) /\
   Permutation (py_sort l) l /\
   StronglySorted num_le (py_sort l) /\
   StronglySorted num_le (steps_of l n)) /\
  (l = times_example -> n = 5%Z ->
   (tau_of l n == 1 # 2)%Q /\ steps_of l n = [PInt 0; PInt 2; PInt 5] /\
   forall (state : loc) (hs : list (pyobj Sub)) (method : string) (compr : Compr)
          (order : Z) (sv : MPArray) (ms bs : list ndarray),
     holds w state sv -> 3 <= mpa_len (squeezed sv) ->
     describes hs (mpa_len (squeezed sv)) ms bs -> order = 2%Z \/ order = 4%Z ->
     exists (tr : Trace) w',
       evolve state hs ts n method compr order w = (Ok tr, w') /\
       length (tr_times tr) = 3 /\
       Forall2 (fun t q => num_val t == q)%Q (tr_times tr) [0; 1; 5 # 2]%Q).
Proof.
  intros Hl V Hn. pose proof (valid_times_ranged l V) as R. split.
  - split; [apply times_to_steps_run; [exact Hl | exact R | lia | lia]|].
    split.
    { destruct (t_max_is_max l (valid_times_nonempty l V)) as [(t & Ht & Hv) Hmax].
      exists t. split; [exact Ht|]. split.
      - intros x Hx. rewrite Hv. now apply Hmax.
      - unfold tau_of. now rewrite Hv. }
    split; [reflexivity|]. split; [apply py_sort_perm|].
    split; [apply py_sort_sorted | now apply steps_of_sorted].
  - intros -> ->. split; [vm_compute; reflexivity|]. split; [vm_compute; reflexivity|].
    intros state hs method compr order sv ms bs Hs H3 D Ho.
    destruct (evolve_full w state ts hs 5 method compr order sv times_example ms bs
                Hs H3 Hl R ltac:(lia) ltac:(lia) D Ho)
      as (tr & w' & E & _ & _ & _ & Ti & _).
    exists tr, w'. split; [exact E|]. rewrite Ti.
    split; [vm_compute; reflexivity|].
    assert (Es : steps_of times_example 5 = [PInt 0; PInt 2; PInt 5])
      by (vm_compute; reflexivity).
    rewrite Es.
    change (hits [PInt 0; PInt 2; PInt 5] 0 (Z.to_nat 5)) with [1; 4].
    cbn [starts_at_zero num_eqb num_val map app].
    repeat constructor; vm_compute; reflexivity.
Qed.

(** [4 ** (1 / 3)] is the cube root of 4 up to the precision of a double. *)
Lemma cbrt4_cubed : (Qabs (cbrt4 ^ 3 - 4) < 1 # 1000000000000000)%Q.
Proof. reflexivity. Qed.

(** C7: the order-4 slice is made of the order-2 slices [U1] for
    [s1 = tau / (4 - 4^(1/3))] (also used for [s2 = s1]) and [U3] for
    [s3 = tau - 4 s1]: the product [U1 U1 U3] is compressed, and then
    multiplied by [U1] and by [U1] again. *)
Theorem trotter_four_composition w (hs : list (pyobj Sub)) (n : nat)
    (ms bs : list ndarray) (tau : Q) :
  describes hs n ms bs -> 3 <= n ->
  exists U1 U3 : MPArray,
    (forall w0, yields (_trotter_two hs (s1 tau) (Z.of_nat n)) w0
                       (fun r w' => holds w' r U1)) /\
    (forall w0, yields (_trotter_two hs (s3 tau) (Z.of_nat n)) w0
                       (fun r w' => holds w' r U3)) /\
    yields (_trotter_four hs tau (Z.of_nat n)) w
           (fun r w' =>
              holds w' r (mpa_dot (mpa_dot (squeezed (mpa_dot (mpa_dot U1 U1) U3)) U1) U1)) /\
    (s1 tau == tau / (4 - cbrt4))%Q /\ (s3 tau == tau - 4 * s1 tau)%Q.
Proof.
  intros D Hn. exists (slice2 (s1 tau) ms bs), (slice2 (s3 tau) ms bs).
  split; [|split; [|split; [|split]]].
  - intros w0. eapply yields_mono; [exact (trotter_two_made w0 hs n ms bs (s1 tau) D Hn)|].
    now intros r w' (_ & _ & H).
  - intros w0. eapply yields_mono; [exact (trotter_two_made w0 hs n ms bs (s3 tau) D Hn)|].
    now intros r w' (_ & _ & H).
  - eapply yields_mono; [exact (trotter_four_made w hs n ms bs tau D Hn)|].
    now intros r w' (_ & _ & H).
  - reflexivity.
  - unfold s3, s1. field. intros C. vm_compute in C. discriminate.
Qed.

End Conversion.

(** ** Zero Hamiltonians *)

(** What the order-2 property uses of numpy, scipy and mpnum: the zero
    matrix and its arithmetic, the exponential of the zero matrix, and, for
    networks compared as operators ([mpa_equiv]), that compression with
    [relerr=1e-20] keeps the operator, that the identity matrix reshapes to
    identities on the sites, that chains flatten and that identities
    compose to identities. *)
Class SubstrateLaws (Sub : Substrate) : Type := {
  np_zeros : nat -> ndarray;                  (* np.zeros((n, n)) *)
  mpa_equiv : MPArray -> MPArray -> Prop;     (* the same operator on the same sites *)
  mpa_equiv_equivalence : Equivalence mpa_equiv;
  mpa_dot_proper : forall a a' b b',
    mpa_equiv a a' -> mpa_equiv b b' -> mpa_equiv (mpa_dot a b) (mpa_dot a' b');
  mpa_chain_proper : forall l l',
    Forall2 mpa_equiv l l' -> mpa_equiv (mpa_chain l) (mpa_chain l');
  np_len_zeros : forall n, np_len (np_zeros n) = n;
  np_kron_zeros_l : forall a b, np_kron (np_zeros a) (np_identity b) = np_zeros (a * b);
  np_kron_zeros_r : forall a b, np_kron (np_identity a) (np_zeros b) = np_zeros (a * b);
  np_add_zeros : forall n, np_add (np_zeros n) (np_zeros n) = np_zeros n;
  np_scale_zeros : forall c n, np_scale c (np_zeros n) = np_zeros n;
  expm_zeros : forall n, expm (np_zeros n) = np_identity n;
  squeezed_equiv : forall a, mpa_equiv (squeezed a) a;
  identity_two_sites : forall a b,
    mpa_equiv (mpa_from_array_global (np_reshape (np_identity (a * b)) [a; b; a; b]) 2)
              (mpa_chain [mpa_eye 1 a; mpa_eye 1 b]);
  identity_one_site : forall a,
    mpa_equiv (mpa_from_array_global (np_reshape (np_identity a) [a; a]) 2) (mpa_eye 1 a);
  mpa_chain_flat : forall xss,
    mpa_equiv (mpa_chain (map mpa_chain xss)) (mpa_chain (concat xss));
  mpa_chain_single : forall a, mpa_equiv (mpa_chain [a]) a;
  mpa_dot_identity : forall ds,
    mpa_equiv (mpa_dot (mpa_chain (map (mpa_eye 1) ds)) (mpa_chain (map (mpa_eye 1) ds)))
              (mpa_chain (map (mpa_eye 1) ds))
}.

(** [d0 :: d1 :: ..] back from its pairs; the last item of a list of odd
    length is in no pair. *)
Definition unpairs {X : Type} (l : list (X * X)) : list X :=
  concat (map (fun '(a, b) => [a; b]) l).

Lemma unpairs_pairs_pair {X : Type} (l : list X) :
  (exists r, l = unpairs (pairs l) ++ r /\ length r = Nat.b2n (Nat.odd (length l))) /\
  (forall x, exists r, x :: l = unpairs (pairs (x :: l)) ++ r /\
                       length r = Nat.b2n (Nat.odd (S (length l)))).
Proof.
  induction l as [|y l [IH1 IH2]].
  - split; [exists []; auto | intros x; exists [x]; auto].
  - split; [apply IH2|]. intros x. destruct IH1 as (r & E & L). exists r.
    split; [cbn [pairs unpairs map concat app]; fold (unpairs (pairs l)); now rewrite <- E|].
    cbn [length]. rewrite Nat.odd_succ, Nat.even_succ. exact L.
Qed.


Lemma list_ind2 {X : Type} (P : list X -> Prop) :
  P [] -> (forall x, P [x]) -> (forall x y l, P l -> P (x :: y :: l)) -> forall l, P l.
Proof.
  intros H0 H1 H2 l. enough (P l /\ forall x, P (x :: l)) by tauto.
  induction l as [|y l [IH1 IH2]]; [split; auto|]. split; [apply IH2 | intros x; now apply H2].
Qed.

Lemma unpairs_pairs_even {X : Type} (l : list X) :
  Nat.odd (length l) = false -> unpairs (pairs l) = l.
Proof.
  intros H. destruct (unpairs_pairs_pair l) as [(r & E & L) _]. rewrite H in L.
  destruct r; [|discriminate]. now rewrite app_nil_r in E.
Qed.

Lemma unpairs_pairs_odd {X : Type} (l : list X) (x : X) :
  Nat.odd (length l) = false -> unpairs (pairs (l ++ [x])) = l.
Proof.
  intros H. destruct (unpairs_pairs_pair (l ++ [x])) as [(r & E & L) _].
  rewrite length_app, Nat.add_comm in L. cbn [length Nat.add] in L.
  rewrite Nat.odd_succ, <- Nat.negb_odd, H in L. cbn in L.
  destruct r as [|y [|z r]]; try discriminate.
  apply app_inj_tail in E. now destruct E.
Qed.

Lemma pairs_map {X Y : Type} (f : X -> Y) (l : list X) :
  pairs (map f l) = map (fun '(a, b) => (f a, f b)) (pairs l).
Proof.
  induction l as [| |x y l IH] using list_ind2; [reflexivity..|].
  cbn [map pairs]. now rewrite IH.
Qed.

Lemma parts_lookup {X Y : Type} (g : nat * X -> Y) (us : list X) (i : nat) (y : Y) :
  map g (enumerate us) !! i = Some y -> exists u, us !! i = Some u /\ y = g (i, u).
Proof.
  rewrite lookup_map. intros H.
  destruct (lookup_lt_ex us i) as [u Hu].
  { destruct (enumerate us !! i) eqn:E; [|discriminate].
    apply lookup_lt_Some in E. now rewrite enumerate_length in E. }
  rewrite (lookup_enumerate _ _ _ Hu) in H. injection H as <-. eauto.
Qed.

Section ZeroHamiltonians.
Context {Sub : Substrate} {Laws : SubstrateLaws Sub}.
Implicit Types (w : World Sub).

#[local] Existing Instance mpa_equiv_equivalence.

(** The identity on every site of a chain with local dimensions [ds]. *)
Definition id_net (ds : list nat) : MPArray := mpa_chain (map (mpa_eye 1) ds).

(** The zero site operators and the zero bond operators of such a chain. *)
Definition zero_sites (ds : list nat) : list ndarray := map np_zeros ds.
Definition zero_bonds (ds : list nat) : list ndarray :=
  zip_with (fun a b => np_zeros (a * b)) ds (tail ds).

Local Infix "≈" := mpa_equiv (at level 70).

Definition identity_of (p : nat * nat) : ndarray := np_identity (fst p * snd p).
Definition eyes_of (p : nat * nat) : list MPArray := [mpa_eye 1 (fst p); mpa_eye 1 (snd p)].

Lemma two_site_zeros (a b : nat) :
  two_site (np_zeros a) (np_zeros b) = np_zeros (a * b).
Proof.
  unfold two_site. now rewrite !np_len_zeros, np_kron_zeros_l, np_kron_zeros_r, np_add_zeros.
Qed.

Lemma stride2_cons {X : Type} (x : X) (l : list X) : stride2 (x :: l) = x :: stride2 (tail l).
Proof. now destruct l. Qed.

Lemma zero_bonds_cons (a b : nat) (l : list nat) :
  zero_bonds (a :: b :: l) = np_zeros (a * b) :: zero_bonds (b :: l).
Proof. reflexivity. Qed.

Lemma zero_bonds_tail (a : nat) (l : list nat) : tail (zero_bonds (a :: l)) = zero_bonds l.
Proof. destruct l as [|b [|c l]]; reflexivity. Qed.

Lemma stride2_zero_bonds (l : list nat) :
  stride2 (zero_bonds l) = map (fun p => np_zeros (fst p * snd p)) (pairs l).
Proof.
  induction l as [| |a b l IH] using list_ind2; [reflexivity..|].
  rewrite zero_bonds_cons, stride2_cons, zero_bonds_tail, IH. reflexivity.
Qed.

Lemma odd_blocks_zero (tau : Q) (ds : list nat) :
  odd_blocks tau (zero_sites ds) (zero_bonds ds) = map identity_of (pairs ds).
Proof.
  unfold odd_blocks, zero_sites. rewrite stride2_zero_bonds, pairs_map.
  induction (pairs ds) as [|[a b] ps IH]; [reflexivity|].
  cbn [map zip_with fst snd]. rewrite IH. f_equal.
  now rewrite two_site_zeros, np_add_zeros, np_scale_zeros, expm_zeros.
Qed.

Lemma even_blocks_zero (tau : Q) (ds : list nat) :
  even_blocks tau (zero_bonds ds) = map identity_of (pairs (tail ds)).
Proof.
  unfold even_blocks. destruct ds as [|a ds]; [reflexivity|].
  rewrite zero_bonds_tail. cbn [tail]. rewrite stride2_zero_bonds, map_map.
  apply map_ext. intros [x y]. cbn [fst snd]. now rewrite np_scale_zeros, expm_zeros.
Qed.

Lemma mpo_val_identity_two (a b : nat) :
  mpo_val (np_identity (a * b)) (pair_shape a b) ≈ mpa_chain [mpa_eye 1 a; mpa_eye 1 b].
Proof.
  unfold mpo_val. etrans; [apply squeezed_equiv|]. apply identity_two_sites.
Qed.

Lemma mpo_val_identity_one (a : nat) :
  mpo_val (np_identity a) [[a; a]] ≈ mpa_eye 1 a.
Proof.
  unfold mpo_val. etrans; [apply squeezed_equiv|]. apply identity_one_site.
Qed.

(** Reshaped bond identities are identities on the two sites, whichever way
    the shape of each pair is looked up. *)
Lemma parts_identity (ps : list (nat * nat)) (shape : nat -> list (list nat)) :
  (forall i a b, ps !! i = Some (a, b) -> shape i = pair_shape a b) ->
  Forall2 mpa_equiv
    (map (fun '(i, u) => mpo_val u (shape i)) (enumerate (map identity_of ps)))
    (map (fun p => mpa_chain (eyes_of p)) ps).
Proof.
  intros Hshape. apply Forall2_same_length_lookup_2.
  - now rewrite !length_map, enumerate_length, length_map.
  - intros i x y Hx Hy. apply parts_lookup in Hx. destruct Hx as (u & Hu & ->).
    rewrite lookup_map in Hu. rewrite lookup_map in Hy.
    destruct (ps !! i) as [[a b]|] eqn:E; [|discriminate].
    injection Hu as <-. injection Hy as <-.
    rewrite (Hshape i a b E). apply mpo_val_identity_two.
Qed.

Lemma chain_of_parts (ps : list (nat * nat)) (parts : list MPArray) :
  Forall2 mpa_equiv parts (map (fun p => mpa_chain (eyes_of p)) ps) ->
  mpa_chain parts ≈ id_net (unpairs ps).
Proof.
  intros F. etrans; [apply mpa_chain_proper, F|]. clear F.
  rewrite <- (map_map eyes_of mpa_chain). etrans; [apply mpa_chain_flat|].
  unfold id_net, unpairs.
  assert (concat (map eyes_of ps)
          = map (mpa_eye 1) (concat (map (fun '(a, b) => [a; b]) ps))) as ->; [|reflexivity].
  induction ps as [|[a b] ps IH]; [reflexivity|]. cbn. now rewrite IH.
Qed.

Lemma nth_of_lookup {X : Type} (l : list X) (i : nat) (x d : X) :
  l !! i = Some x -> nth i l d = x.
Proof. intros H. now apply nth_lookup_Some. Qed.

Lemma odd_parts_zero (ds : list nat) :
  mpa_chain (odd_parts ds (map identity_of (pairs ds))) ≈ id_net (unpairs (pairs ds)).
Proof.
  apply chain_of_parts. unfold odd_parts.
  apply (parts_identity (pairs ds)
           (fun i => pair_shape (nth (2 * i) ds 0) (nth (2 * i + 1) ds 0))).
  intros i a b H. apply lookup_pairs in H. destruct H as [Ha Hb].
  now rewrite (nth_of_lookup _ _ _ _ Ha), (nth_of_lookup _ _ _ _ Hb).
Qed.

Lemma even_parts_zero (d0 : nat) (ds : list nat) :
  mpa_chain (even_parts (d0 :: ds) (map identity_of (pairs ds))) ≈ id_net (unpairs (pairs ds)).
Proof.
  apply chain_of_parts. unfold even_parts.
  apply (parts_identity (pairs ds)
           (fun i => pair_shape (nth (2 * i + 1) (d0 :: ds) 0) (nth (2 * i + 2) (d0 :: ds) 0))).
  intros i a b H. apply lookup_pairs in H. destruct H as [Ha Hb].
  replace (2 * i + 1) with (S (2 * i)) by lia.
  replace (2 * i + 2) with (S (2 * i + 1)) by lia. cbn [nth].
  now rewrite (nth_of_lookup _ _ _ _ Ha), (nth_of_lookup _ _ _ _ Hb).
Qed.

(** Joining a chain and one more network. *)
Lemma chain_snoc (xs : list MPArray) (a b y : MPArray) :
  a ≈ mpa_chain xs -> b ≈ y -> mpa_chain [a; b] ≈ mpa_chain (xs ++ [y]).
Proof.
  intros Ha Hb. etrans.
  { apply mpa_chain_proper. constructor; [exact Ha|]. constructor; [|constructor].
    etrans; [exact Hb|]. symmetry. apply (mpa_chain_single y). }
  etrans; [apply (mpa_chain_flat [xs; [y]])|]. cbn [concat]. now rewrite app_nil_r.
Qed.

Lemma chain_cons (ys : list MPArray) (a b x : MPArray) :
  a ≈ x -> b ≈ mpa_chain ys -> mpa_chain [a; b] ≈ mpa_chain (x :: ys).
Proof.
  intros Ha Hb. etrans.
  { apply mpa_chain_proper. constructor; [|constructor; [exact Hb | constructor]].
    etrans; [exact Ha|]. symmetry. apply (mpa_chain_single x). }
  etrans; [apply (mpa_chain_flat [[x]; ys])|]. cbn [concat]. now rewrite app_nil_r.
Qed.

Lemma dims_zero (ds : list nat) : map np_len (zero_sites ds) = ds.
Proof.
  unfold zero_sites. rewrite map_map. rewrite <- (map_id ds) at 2.
  apply map_ext. intros d. apply np_len_zeros.
Qed.

Lemma id_net_snoc (ds : list nat) (d : nat) :
  mpa_chain (map (mpa_eye 1) ds ++ [mpa_eye 1 d]) = id_net (ds ++ [d]).
Proof. unfold id_net. now rewrite map_app. Qed.

Lemma odd_net_zero (tau : Q) (ds : list nat) :
  odd_net tau (zero_sites ds) (zero_bonds ds) ≈ id_net ds.
Proof.
  unfold odd_net. rewrite dims_zero, odd_blocks_zero.
  unfold zero_sites at 1 2. rewrite length_map.
  destruct (Nat.odd (length ds)) eqn:O.
  - destruct ds as [|dl init _] using rev_ind; [discriminate|].
    rewrite map_app. cbn [map]. rewrite last_snoc.
    rewrite length_app, Nat.add_comm in O. cbn [length Nat.add] in O.
    rewrite Nat.odd_succ, <- Nat.negb_odd in O. apply negb_true_iff in O.
    unfold odd_net_odd. rewrite <- id_net_snoc.
    apply chain_snoc.
    { etrans; [apply odd_parts_zero|]. now rewrite (unpairs_pairs_odd init dl O). }
    rewrite np_scale_zeros, expm_zeros.
    unfold last_dim. rewrite length_app. cbn [length].
    rewrite app_nth2 by lia. replace (length init + 1 - 1 - length init) with 0 by lia.
    apply mpo_val_identity_one.
  - assert (mpa_chain (odd_parts ds (map identity_of (pairs ds))) ≈ id_net ds) as H.
    { etrans; [apply odd_parts_zero|]. now rewrite (unpairs_pairs_even ds O). }
    destruct (last (map np_zeros ds)); exact H.
Qed.

Lemma even_net_zero (tau : Q) (ds : list nat) :
  2 <= length ds -> even_net tau (zero_sites ds) (zero_bonds ds) ≈ id_net ds.
Proof.
  intros H2. unfold even_net. rewrite dims_zero, even_blocks_zero.
  unfold zero_sites. rewrite length_map.
  destruct ds as [|d0 ds1]; [cbn in H2; lia|]. cbn [tail length].
  rewrite Nat.odd_succ, <- Nat.negb_odd.
  destruct (Nat.odd (length ds1)) eqn:O; cbn [negb].
  - destruct ds1 as [|dl mid _] using rev_ind; [discriminate|].
    rewrite length_app, Nat.add_comm in O. cbn [length Nat.add] in O.
    rewrite Nat.odd_succ, <- Nat.negb_odd in O. apply negb_true_iff in O.
    unfold even_net_even.
    change (id_net (d0 :: mid ++ [dl])) with (id_net ((d0 :: mid) ++ [dl])).
    rewrite <- id_net_snoc. apply chain_snoc.
    + unfold even_padded. cbn [nth map]. apply chain_cons; [reflexivity|].
      etrans; [apply even_parts_zero|]. now rewrite (unpairs_pairs_odd mid dl O).
    + unfold last_dim. cbn [length]. rewrite length_app. cbn [length].
      replace (S (length mid + 1) - 1) with (S (length mid)) by lia. cbn [nth].
      rewrite app_nth2 by lia. rewrite Nat.sub_diag. reflexivity.
  - unfold even_padded. cbn [nth]. unfold id_net. cbn [map].
    apply chain_cons; [reflexivity|].
    etrans; [apply even_parts_zero|]. now rewrite (unpairs_pairs_even ds1 O).
Qed.

Lemma slice2_zero (tau : Q) (ds : list nat) :
  2 <= length ds -> slice2 tau (zero_sites ds) (zero_bonds ds) ≈ id_net ds.
Proof.
  intros H2. unfold slice2.
  pose proof (odd_net_zero tau ds) as Ho. pose proof (even_net_zero tau ds H2) as He.
  etrans; [apply mpa_dot_proper; [apply mpa_dot_proper; [exact Ho | exact He] | exact Ho]|].
  etrans; [apply mpa_dot_proper; [apply mpa_dot_identity | reflexivity]|].
  apply mpa_dot_identity.
Qed.

(** C8: for a chain of at least 3 sites whose site and bond Hamiltonians are
    all zero (given as the two lists, or as one site operator and one bond
    operator), the order-2 slice is, as an operator, the identity on every
    site, for every [tau]. *)
Theorem trotter_two_zero_identity w (hs : list (pyobj Sub)) (n : nat) (ds : list nat)
    (tau : Q) :
  describes hs n (zero_sites ds) (zero_bonds ds) -> 3 <= n ->
  yields (_trotter_two hs tau (Z.of_nat n)) w
         (fun r w' => exists v, holds w' r v /\ v ≈ id_net ds).
Proof.
  intros D Hn. eapply yields_mono; [exact (trotter_two_made w hs n _ _ tau D Hn)|].
  intros r w' (_ & _ & H). eexists. split; [exact H|].
  apply slice2_zero. destruct (describes_length _ _ _ _ D) as [L _].
  unfold zero_sites in L. rewrite length_map in L. lia.
Qed.

End ZeroHamiltonians.

(** ** The small instance satisfies the laws *)

(** Equal complex numbers. *)
Definition c_eq (c d : complex) : Prop := (fst c == fst d)%Q /\ (snd c == snd d)%Q.

Lemma c_eq_refl (c : complex) : c_eq c c.
Proof. split; reflexivity. Qed.

Lemma c_eq_sym (c d : complex) : c_eq c d -> c_eq d c.
Proof. intros [H1 H2]. split; now symmetry. Qed.

Lemma c_eq_trans (c d e : complex) : c_eq c d -> c_eq d e -> c_eq c e.
Proof. intros [H1 H2] [H3 H4]. split; etransitivity; eauto. Qed.

Lemma sm_mul_c_eq (c c' d d' : complex) :
  c_eq c c' -> c_eq d d' -> c_eq (sm_mul c d) (sm_mul c' d').
Proof.
  destruct c as [c1 c2], c' as [c1' c2'], d as [d1 d2], d' as [d1' d2'].
  unfold c_eq, sm_mul, sm_c. cbn [fst snd]. intros [H1 H2] [H3 H4].
  rewrite !Qred_correct. split.
  - apply Qplus_comp; [now apply Qmult_comp|]. apply Qopp_comp. now apply Qmult_comp.
  - apply Qplus_comp; now apply Qmult_comp.
Qed.

Lemma sm_mul_assoc (a b c : complex) :
  c_eq (sm_mul (sm_mul a b) c) (sm_mul a (sm_mul b c)).
Proof.
  destruct a, b, c. unfold c_eq, sm_mul, sm_c. cbn [fst snd].
  rewrite !Qred_correct. split; ring.
Qed.

Lemma sm_mul_1_l (a : complex) : c_eq (sm_mul (sm_c 1 0) a) a.
Proof.
  destruct a. unfold c_eq, sm_mul, sm_c. cbn [fst snd].
  rewrite !Qred_correct. split; ring.
Qed.

Lemma sm_mul_1_r (a : complex) : c_eq (sm_mul a (sm_c 1 0)) a.
Proof.
  destruct a. unfold c_eq, sm_mul, sm_c. cbn [fst snd].
  rewrite !Qred_correct. split; ring.
Qed.

(** The same multiple of the identity on the same sites. *)
Definition sm_equiv (a b : sm_net) : Prop :=
  net_dims a = net_dims b /\ c_eq (net_coef a) (net_coef b).

Lemma sm_equiv_equivalence : Equivalence sm_equiv.
Proof.
  split.
  - intros a. split; [reflexivity | apply c_eq_refl].
  - intros a b [H1 H2]. split; [now symmetry | now apply c_eq_sym].
  - intros a b c [H1 H2] [H3 H4]. split; [congruence | eapply c_eq_trans; eauto].
Qed.

Definition sm_product (l : list sm_net) : complex :=
  foldr sm_mul (sm_c 1 0) (map net_coef l).

Lemma sm_product_app (l k : list sm_net) :
  c_eq (sm_product (l ++ k)) (sm_mul (sm_product l) (sm_product k)).
Proof.
  unfold sm_product. induction l as [|a l IH]; cbn [app map foldr].
  - apply c_eq_sym, sm_mul_1_l.
  - eapply c_eq_trans; [apply sm_mul_c_eq; [apply c_eq_refl | exact IH]|].
    apply c_eq_sym, sm_mul_assoc.
Qed.

Lemma sm_chain_proper (l l' : list sm_net) :
  Forall2 sm_equiv l l' -> sm_equiv (sm_chain l) (sm_chain l').
Proof.
  induction 1 as [|a a' l l' [H1 H2] F [IH1 IH2]]; [apply sm_equiv_equivalence|].
  split; cbn in *; [congruence | now apply sm_mul_c_eq].
Qed.

Lemma sm_chain_flat (xss : list (list sm_net)) :
  sm_equiv (sm_chain (map sm_chain xss)) (sm_chain (concat xss)).
Proof.
  induction xss as [|xs xss [IH1 IH2]]; [apply sm_equiv_equivalence|].
  split; cbn [sm_chain net_dims net_coef map concat] in *.
  - rewrite map_app, concat_app. now rewrite IH1.
  - fold (sm_product xs) (sm_product (concat xss)) (sm_product (xs ++ concat xss)) in *.
    eapply c_eq_trans; [|apply c_eq_sym, sm_product_app].
    apply sm_mul_c_eq; [apply c_eq_refl | exact IH2].
Qed.

Lemma sm_chain_single (a : sm_net) : sm_equiv (sm_chain [a]) a.
Proof. split; cbn; [apply app_nil_r | apply sm_mul_1_r]. Qed.

Lemma sm_identity_coef (ds : list nat) :
  c_eq (net_coef (sm_chain (map (fun d => mkNet (replicate 1 d) (sm_c 1 0)) ds))) (sm_c 1 0).
Proof.
  induction ds as [|d ds IH]; [apply c_eq_refl|]. cbn [sm_chain net_coef map foldr] in *.
  eapply c_eq_trans; [apply sm_mul_1_l | exact IH].
Qed.

Lemma sm_dot_identity (ds : list nat) :
  let i := sm_chain (map (fun d => mkNet (replicate 1 d) (sm_c 1 0)) ds) in
  sm_equiv (mkNet (net_dims i) (sm_mul (net_coef i) (net_coef i))) i.
Proof.
  cbv zeta. split; [reflexivity|]. cbn [net_coef].
  eapply c_eq_trans; [apply sm_mul_c_eq; [apply sm_identity_coef | apply c_eq_refl]|].
  apply sm_mul_1_l.
Qed.

Lemma sm_mul_0_r (c : complex) : sm_mul c (sm_c 0 0) = sm_c 0 0.
Proof.
  destruct c as [c1 c2]. unfold sm_mul, sm_c. cbn [fst snd].
  change (Qred 0) with 0%Q.
  f_equal; change 0%Q with (Qred 0) at 3; apply Qred_complete; ring.
Qed.

Lemma sm_scale_zeros (c : complex) (n : nat) :
  mkArr (arr_shape (sm_zeros n)) (sm_mul c (arr_coef (sm_zeros n))) = sm_zeros n.
Proof.
  unfold sm_zeros, sm_square. cbn [arr_shape arr_coef]. now rewrite sm_mul_0_r.
Qed.

#[global] Instance scalar_laws : SubstrateLaws scalar_model := {|
  np_zeros := sm_zeros;
  mpa_equiv := sm_equiv;
  mpa_equiv_equivalence := sm_equiv_equivalence;
  mpa_dot_proper := fun a a' b b' Ha Hb =>
    conj (proj1 Ha) (sm_mul_c_eq _ _ _ _ (proj2 Ha) (proj2 Hb));
  mpa_chain_proper := sm_chain_proper;
  np_len_zeros := fun n => eq_refl;
  np_kron_zeros_l := fun a b => eq_refl;
  np_kron_zeros_r := fun a b => eq_refl;
  np_add_zeros := fun n => eq_refl;
  np_scale_zeros := sm_scale_zeros;
  expm_zeros := fun n => eq_refl;
  squeezed_equiv := fun a => @Equivalence_Reflexive _ _ sm_equiv_equivalence a;
  identity_two_sites := fun a b => conj eq_refl (conj (Qeq_refl _) (Qeq_refl _));
  identity_one_site := fun a => conj eq_refl (conj (Qeq_refl _) (Qeq_refl _));
  mpa_chain_flat := sm_chain_flat;
  mpa_chain_single := sm_chain_single;
  mpa_dot_identity := sm_dot_identity
|}.

(** ** Runs on the small instance *)

(** A run that returns [x], or raises [e], ends in its own final store. *)
Lemma run_returns {Sub : Substrate} {X : Type} (run : result X * World Sub) (x : X) :
  fst run = Ok x -> run = (Ok x, snd run).
Proof. destruct run as [r w]. cbn. now intros ->. Qed.

Lemma run_raises {Sub : Substrate} {X : Type} (run : result X * World Sub) (e : exn) :
  fst run = Raise e -> run = (Raise e, snd run).
Proof. destruct run as [r w]. cbn. now intros ->. Qed.

(** Three sites of local dimension 2 holding [2 * I], whose trace is 16. *)
Definition sm_unnormalized : sm_net := sm_state [2; 2; 2] 2.

(** C1 at a concrete run: one step of [evolve] with method 'mpo' from a
    state of trace 16.  The state recorded after the step still has trace
    16: neither the initial [_compress] nor the [_normalize] of the loop has
    divided it by its trace. *)
Theorem loop_state_not_normalized :
  exists (tr : Trace) (w' : World scalar_model) (r : loc) (v : sm_net),
    evolve 0 sm_free_pair 0 1 "mpo" tt 2 (sm_world sm_unnormalized [PFloat 1]) = (Ok tr, w') /\
    tr_states tr = [r] /\ mpas w' !! r = Some v /\
    mpa_trace v = sm_c 16 0 /\ mpa_trace v <> sm_c 1 0.
Proof.
  eexists _, _, _, _. split; [apply run_returns; vm_compute; reflexivity|].
  split; [reflexivity|]. split; [vm_compute; reflexivity|].
  split; [vm_compute; reflexivity | vm_compute; discriminate].
Qed.

(** C2 fails as stated: with the unsupported order 3, [evolve] raises after
    the caller's list [2.0, 1.0] has become [1, 2]. *)
Lemma unsupported_order_after_times_converted :
  let w := sm_world (sm_state [2; 2; 2] 1) [PFloat 2; PFloat 1] in
  exists (msg : string) (w' : World scalar_model),
    evolve 0 sm_free_pair 0 2 "mpo" tt 3 w = (Raise (ValueError msg), w') /\
    pylists w !! 0 = Some [PFloat 2; PFloat 1] /\
    pylists w' !! 0 = Some [PInt 1; PInt 2] /\
    pylists w' <> pylists w.
Proof.
  cbv zeta. eexists _, _. split; [apply run_raises; vm_compute; reflexivity|].
  split; [reflexivity|]. split; [vm_compute; reflexivity|]. vm_compute. discriminate.
Qed.

(** C3 fails as stated: for 3 sites there are as many odd-bond blocks as
    even-bond blocks and the operator of the last site is appended, and 3 is
    odd. *)
Lemma trailing_appended_for_three_sites :
  let ms := replicate 3 (sm_zeros 2) in
  let bs := replicate 2 (sm_zeros 4) in
  exists (dims : list nat) (u_odd u_even : list sm_array),
    _get_u_list (PyList (map Ndarray ms)) (PyList (map Ndarray bs)) 1
      = Ok (dims, u_odd, u_even) /\
    length (odd_blocks 1 ms bs) = length u_even /\
    u_odd = odd_blocks 1 ms bs ++ [expm (np_scale (odd_coef 1) (sm_zeros 2))] /\
    Nat.even (length dims) = false.
Proof.
  cbv zeta. eexists _, _, _. split; [vm_compute; reflexivity|].
  split; [reflexivity|]. split; [vm_compute; reflexivity | reflexivity].
Qed.

(** C4 fails as stated: the time 1.0 requested twice gives one entry. *)
Lemma duplicate_times_share_one_entry :
  let times := [PFloat 1; PFloat 1] in
  exists (tr : Trace) (w' : World scalar_model),
    evolve 0 sm_free_pair 0 1 "mpo" tt 2 (sm_world (sm_state [2; 2; 2] 1) times) = (Ok tr, w') /\
    length times = 2 /\ length (tr_times tr) = 1.
Proof.
  cbv zeta. eexists _, _. split; [apply run_returns; vm_compute; reflexivity|].
  split; reflexivity.
Qed.


(** C6 fails as stated: for the times [0, 1.0, 2.5] and no slices
    [_times_to_steps] returns no [tau]; it raises ZeroDivisionError and
    leaves the list sorted, with no entry replaced. *)
Lemma no_slices_no_duration :
  let run := _times_to_steps 0 0 (sm_world (sm_state [2; 2; 2] 1) times_example) in
  times_example <> [] /\
  Forall (fun t => 0 <= num_val t)%Q times_example /\
  Exists (fun t => ~ (num_val t == 0)%Q) times_example /\
  fst run = Raise ZeroDivisionError /\
  pylists (snd run) !! 0 = Some times_example.
Proof.
  cbv zeta. split; [discriminate|].
  split; [repeat (constructor; [vm_compute; discriminate|]); constructor|].
  split; [apply Exists_cons_tl, Exists_cons_hd; vm_compute; discriminate|].
  split; vm_compute; reflexivity.
Qed.


(** ** The conversion of times at the ties of [round]

    Times written as decimals are the nearest doubles.  The quotient
    [1.0 / (1.2 / 3)] is the double 2.5 and rounds to 2; [0.05 / (1.0 / 10)]
    is the double 0.5 and rounds to 0. *)
Example steps_at_ties :
  let d := round64 in
  tau_of [PFloat 1; PFloat (d (12 # 10))] 3 = d (39999999999999997 # 100000000000000000) /\
  steps_of [PFloat 1; PFloat (d (12 # 10))] 3 = [PInt 2; PInt 3] /\
  steps_of [PFloat (d (5 # 100)); PFloat 1] 10 = [PInt 0; PInt 10] /\
  steps_of [PFloat (d (-5 # 100)); PFloat 1] 10 = [PInt 0; PInt 10] /\
  steps_of [PFloat (d (5 # 100)); PFloat 1] (-10) = [PInt 0; PInt (-10)] /\
  steps_of [PFloat 1; PFloat (d (24 # 10))] 6 = [PInt 2; PInt 6] /\
  d (d (1 # 49) * 49)%Q = d (9999999999999999 # 10000000000000000) /\
  trot_acc (d (1 # 10)) 10 = d (10000000000000004 # 1000000000000000000).
Proof. cbv zeta. repeat split; vm_compute; reflexivity. Qed.

(** The same lists, left by [_times_to_steps] itself. *)
Example times_to_steps_at_ties :
  let d := round64 in
  let after (l : list pynum) (n : Z) :=
    pylists (snd (_times_to_steps 0 n (sm_world (sm_state [2; 2; 2] 1) l))) !! 0 in
  after [PFloat 1; PFloat (d (12 # 10))] 3%Z = Some [PInt 2; PInt 3] /\
  after [PFloat (d (5 # 100)); PFloat 1] 10%Z = Some [PInt 0; PInt 10] /\
  after [PFloat (d (-5 # 100)); PFloat 1] 10%Z = Some [PInt 0; PInt 10] /\
  after [PFloat (d (5 # 100)); PFloat 1] (-10)%Z = Some [PInt 0; PInt (-10)] /\
  after [PFloat 1; PFloat (d (24 # 10))] 6%Z = Some [PInt 2; PInt 6].
Proof. cbv zeta. repeat split; vm_compute; reflexivity. Qed.

(** A state of three sites, and two valid lists of requested times. *)
Definition sm_three : sm_net := sm_state [2; 2; 2] 1.

Lemma sm_times_valid : valid_times [PFloat 2; PFloat 1].
Proof.
  split.
  - repeat (constructor; [split; vm_compute; discriminate|]). constructor.
  - apply Exists_cons_hd. vm_compute. discriminate.
Qed.

Lemma slices_in_range (n : Z) : (0 < n <= 1000)%Z -> (0 < n <= max_slices)%Z.
Proof. unfold max_slices. change (2 ^ 40)%Z with 1099511627776%Z. lia. Qed.

Lemma slices_abs_in_range (n : Z) : (Z.abs n <= 1000)%Z -> (Z.abs n <= max_slices)%Z.
Proof. unfold max_slices. change (2 ^ 40)%Z with 1099511627776%Z. lia. Qed.

Lemma sm_describes : describes sm_free_pair 3 (replicate 3 (sm_zeros 2)) (replicate 2 (sm_zeros 4)).
Proof. apply (describes_pair (Sub := scalar_model) (sm_zeros 2) (sm_zeros 4) 3). lia. Qed.

Lemma evolve_errors_store_witness :
  let w := sm_world sm_three [PFloat 2; PFloat 1] in
  holds w 0 sm_three /\ pylists w !! 0 = Some [PFloat 2; PFloat 1] /\
  pylists (snd (evolve 0 sm_free_pair 0 2 "mpo" tt 3 w)) !! 0 = Some [PInt 1; PInt 2].
Proof.
  cbv zeta. split; [reflexivity|]. split; [reflexivity|].
  destruct (evolve_errors_store (sm_world sm_three [PFloat 2; PFloat 1]) 0 0 sm_free_pair 2
              "mpo" tt 3 sm_three [PFloat 2; PFloat 1] eq_refl eq_refl) as (_ & _ & _ & H).
  destruct H as (_ & _ & H); [vm_compute; lia | reflexivity | left; split; lia|].
  destruct H as [_ H];
    [exact (valid_times_ranged _ sm_times_valid) | lia | apply slices_abs_in_range; lia|].
  refine (eq_trans H _). vm_compute. reflexivity.
Defined.

Lemma get_u_list_trailing_witness :
  let ms := replicate 3 (sm_zeros 2) in
  let bs := replicate 2 (sm_zeros 4) in
  length ms = S (length bs) /\
  (length (odd_blocks 1 ms bs) = length (even_blocks 1 bs) <-> Nat.odd (length ms) = true).
Proof.
  cbv zeta. split; [reflexivity|].
  destruct (get_u_list_trailing (Sub := scalar_model) (replicate 3 (sm_zeros 2))
              (replicate 2 (sm_zeros 4)) 1 eq_refl) as (_ & _ & H & _).
  exact H.
Defined.

Lemma evolve_trace_shape_witness :
  let w := sm_world sm_three [PFloat 2; PFloat 1] in
  holds w 0 sm_three /\ 3 <= mpa_len (squeezed sm_three) /\
  pylists w !! 0 = Some [PFloat 2; PFloat 1] /\ valid_times [PFloat 2; PFloat 1] /\
  exists (tr : Trace) (w' : World scalar_model),
    evolve 0 sm_free_pair 0 2 "mpo" tt 2 w = (Ok tr, w') /\
    length (tr_states tr) = length (tr_times tr).
Proof.
  cbv zeta. split; [reflexivity|]. split; [vm_compute; lia|]. split; [reflexivity|].
  split; [exact sm_times_valid|].
  destruct (evolve_trace_shape (sm_world sm_three [PFloat 2; PFloat 1]) 0 0 sm_free_pair 2
              "mpo" tt 2 sm_three [PFloat 2; PFloat 1] _ _ eq_refl
              ltac:(vm_compute; lia) eq_refl sm_times_valid (slices_in_range 2 ltac:(lia))
              sm_describes (or_introl eq_refl)) as (tr & w' & ks & E & L & _).
  exists tr, w'. split; [exact E | exact L].
Defined.


Lemma times_to_steps_spec_witness :
  let w := sm_world sm_three times_example in
  pylists w !! 0 = Some times_example /\ valid_times times_example /\
  _times_to_steps 0 5 w =
    (Ok (tau_of times_example 5),
     mkWorld (mpas w) (<[0 := steps_of times_example 5]> (pylists w))) /\
  steps_of times_example 5 = [PInt 0; PInt 2; PInt 5].
Proof.
  cbv zeta. split; [reflexivity|]. split; [exact times_example_valid|].
  destruct (times_to_steps_spec (sm_world sm_three times_example) 0 times_example 5
              eq_refl times_example_valid (slices_in_range 5 ltac:(lia))) as [(E & _) H].
  split; [exact E|]. destruct (H eq_refl eq_refl) as (_ & S & _). exact S.
Defined.

Lemma trotter_four_composition_witness :
  describes sm_free_pair 3 (replicate 3 (sm_zeros 2)) (replicate 2 (sm_zeros 4)) /\
  exists U1 U3 : sm_net,
    yields (_trotter_four sm_free_pair 1 3) (sm_world sm_three [])
           (fun r w' =>
              holds w' r (mpa_dot (mpa_dot (squeezed (mpa_dot (mpa_dot U1 U1) U3)) U1) U1)).
Proof.
  split; [exact sm_describes|].
  destruct (trotter_four_composition (sm_world sm_three []) sm_free_pair 3 _ _ 1
              sm_describes ltac:(lia)) as (U1 & U3 & _ & _ & H & _).
  exists U1, U3. exact H.
Defined.

Lemma trotter_two_zero_identity_witness :
  describes sm_free_pair 3 (zero_sites [2; 2; 2]) (zero_bonds [2; 2; 2]) /\
  yields (_trotter_two sm_free_pair 1 3) (sm_world sm_three [])
         (fun r w' => exists v, holds w' r v /\ mpa_equiv v (id_net [2; 2; 2])).
Proof.
  split; [exact sm_describes|].
  exact (trotter_two_zero_identity (sm_world sm_three []) sm_free_pair 3 [2; 2; 2] 1
           sm_describes ltac:(lia)).
Defined.


Lemma get_h_list_dispatch_witness :
  is_list (Ndarray (Sub := scalar_model) (sm_zeros 2)) = false /\
  _get_h_list sm_free_pair 3 =
    Ok (PyList (replicate 3 (Ndarray (sm_zeros 2))), PyList (replicate 2 (Ndarray (sm_zeros 4)))).
Proof.
  split; [reflexivity|].
  destruct (get_h_list_dispatch (Ndarray (Sub := scalar_model) (sm_zeros 2))
              (Ndarray (Sub := scalar_model) (sm_zeros 4)) [] 3) as [H _].
  exact (H eq_refl).
Defined.

(** * Further properties of the module *)

(** ** The last pass and the recorded steps *)



Lemma slices_abs_pos (n : Z) :
  (0 < n <= max_slices)%Z -> n <> 0%Z /\ (Z.abs n <= max_slices)%Z.
Proof. lia. Qed.

(** ** What a successful run leaves behind *)

Section Behaviour.
Context {Sub : Substrate}.
Implicit Types (w : World Sub).

(** X1: What [evolve] does to the caller's data when it returns: the list of
    times is left holding the steps [int(round(t / tau))] of the sorted
    times, computed in floating point, integers between 0 and the number of
    slices; every other list is as it was; the state object holds what the
    initial [compress(relerr=1e-20)] made of it, and every other object that
    existed before the call is unchanged. *)
Theorem evolve_caller_data w (state ts : loc) (hs : list (pyobj Sub)) (n : Z)
    (method : string) (compr : Compr) (order : Z) (sv : MPArray) (l : list pynum)
    (ms bs : list ndarray) :
  holds w state sv -> 3 <= mpa_len (squeezed sv) ->
  pylists w !! ts = Some l -> valid_times l -> (0 < n <= max_slices)%Z ->
  describes hs (mpa_len (squeezed sv)) ms bs ->
  order = 2%Z \/ order = 4%Z ->
  let tau := round64 (t_max l / inject_Z n) in
  let steps := map (fun t => PInt (py_round (round64 (num_val t / tau)))) (py_sort l) in
  exists (tr : Trace) w',
    evolve state hs ts n method compr order w = (Ok tr, w') /\
    pylists w' !! ts = Some steps /\
    length steps = length l /\
    (forall x, In x steps -> exists k, x = PInt k /\ (0 <= k <= n)%Z) /\
    (forall r, r <> ts -> pylists w' !! r = pylists w !! r) /\
    holds w' state (squeezed sv) /\
    (forall r v, r <> state -> holds w r v -> holds w' r v).
Proof.
  intros Hs H3 Hl V Hn D Ho tau steps. pose proof (valid_times_ranged l V) as R.
  destruct (slices_abs_pos n Hn) as [Hn0 Hna].
  destruct (evolve_full w state ts hs n method compr order sv l ms bs Hs H3 Hl R
              Hn0 Hna D Ho) as (tr & w' & E & Pl & Hst & Fr & _).
  change steps with (steps_of l n).
  exists tr, w'. split; [exact E|].
  split. { rewrite Pl. apply list_lookup_insert_eq. eapply lookup_lt_Some, Hl. }
  split; [apply steps_of_length|].
  split.
  { intros x Hx. destruct (steps_of_ints l n x Hx) as [k ->]. exists k.
    split; [reflexivity|]. apply steps_of_In in Hx. destruct Hx as (t & Ht & ->).
    now apply step_Z_bounds. }
  split. { intros r Hr. rewrite Pl. now apply list_lookup_insert_ne. }
  split; [exact Hst | exact Fr].
Qed.

(** X2: Which objects [evolve] returns: an entry for step 0 is the caller's own
    state object, not a copy, and there is one when 0 is among the requested
    times; every other entry is an object created during the call, and no
    object is returned twice. *)
Theorem evolve_recorded_objects w (state ts : loc) (hs : list (pyobj Sub)) (n : Z)
    (method : string) (compr : Compr) (order : Z) (sv : MPArray) (l : list pynum)
    (ms bs : list ndarray) :
  holds w state sv -> 3 <= mpa_len (squeezed sv) ->
  pylists w !! ts = Some l -> valid_times l -> (0 < n <= max_slices)%Z ->
  describes hs (mpa_len (squeezed sv)) ms bs ->
  order = 2%Z \/ order = 4%Z ->
  let tau := round64 (t_max l / inject_Z n) in
  let steps := map (fun t => PInt (py_round (round64 (num_val t / tau)))) (py_sort l) in
  exists (tr : Trace) w' (created : list loc),
    evolve state hs ts n method compr order w = (Ok tr, w') /\
    pylists w' !! ts = Some steps /\
    tr_states tr = (if starts_at_zero steps then [state] else []) ++ created /\
    Forall (fun r => length (mpas w) <= r) created /\
    NoDup (tr_states tr) /\
    ((exists t, In t l /\ (num_val t == 0)%Q) -> tr_states tr = state :: created).
Proof.
  intros Hs H3 Hl V Hn D Ho tau steps. pose proof (valid_times_ranged l V) as R.
  destruct (slices_abs_pos n Hn) as [Hn0 Hna].
  destruct (evolve_full w state ts hs n method compr order sv l ms bs Hs H3 Hl R
              Hn0 Hna D Ho)
    as (tr & w' & E & Pl & _ & _ & _ & _ & _ & (fresh & Fr & Ff) & Nd & _).
  change steps with (steps_of l n).
  exists tr, w', fresh. split; [exact E|].
  split. { rewrite Pl. apply list_lookup_insert_eq. eapply lookup_lt_Some, Hl. }
  split; [exact Fr|]. split; [exact Ff|]. split; [exact Nd|].
  intros H0. rewrite Fr, (starts_at_zero_steps l n V Hn H0). reflexivity.
Qed.



Lemma evolved_not_mpo (uv : MPArray) (method : string) (compr : Compr) (s : MPArray)
    (k : nat) :
  String.eqb method "mpo" = false ->
  evolved uv method compr s k = evolved uv "pmps" compr s k.
Proof.
  intros Hm. induction k as [|k IH]; [reflexivity|].
  change (evolved uv method compr s (S k))
    with (step_val uv method compr (evolved uv method compr s k)).
  change (evolved uv "pmps" compr s (S k))
    with (step_val uv "pmps" compr (evolved uv "pmps" compr s k)).
  rewrite IH. unfold step_val, propagate. now rewrite Hm.
Qed.

Lemma overlap_acc_not_mpo (uv : MPArray) (method : string) (compr : Compr) (s : MPArray)
    (k : nat) :
  String.eqb method "mpo" = false ->
  overlap_acc uv method compr s k = overlap_acc uv "pmps" compr s k.
Proof.
  intros Hm. induction k as [|k IH]; [reflexivity|].
  cbn [overlap_acc]. rewrite IH, (evolved_not_mpo _ _ _ _ _ Hm).
  unfold overlap_of, propagate. now rewrite Hm.
Qed.

(** X6: The method is never validated: for every method string other than
    'mpo', known or not, [evolve] returns what it returns for 'pmps': the
    same times and errors, states that hold the same values, and the same
    lists in the store. *)
Theorem evolve_method_unchecked w (state ts : loc) (hs : list (pyobj Sub)) (n : Z)
    (method : string) (compr : Compr) (order : Z) (sv : MPArray) (l : list pynum)
    (ms bs : list ndarray) :
  String.eqb method "mpo" = false ->
  holds w state sv -> 3 <= mpa_len (squeezed sv) ->
  pylists w !! ts = Some l -> valid_times l -> (0 < n <= max_slices)%Z ->
  describes hs (mpa_len (squeezed sv)) ms bs ->
  order = 2%Z \/ order = 4%Z ->
  exists (tr tr' : Trace) w1 w2 (vals : list MPArray),
    evolve state hs ts n method compr order w = (Ok tr, w1) /\
    evolve state hs ts n "pmps" compr order w = (Ok tr', w2) /\
    tr_times tr = tr_times tr' /\
    tr_compr_errors tr = tr_compr_errors tr' /\
    tr_trot_errors tr = tr_trot_errors tr' /\
    Forall2 (holds w1) (tr_states tr) vals /\
    Forall2 (holds w2) (tr_states tr') vals /\
    pylists w1 = pylists w2.
Proof.
  intros Hmeth Hs H3 Hl V Hn D Ho. pose proof (valid_times_ranged l V) as R.
  destruct (slices_abs_pos n Hn) as [Hn0 Hna].
  destruct (evolve_full w state ts hs n method compr order sv l ms bs Hs H3 Hl R
              Hn0 Hna D Ho)
    as (tr & w1 & E & Pl & _ & _ & Ti & Tr & Co & _ & _ & St).
  destruct (evolve_full w state ts hs n "pmps" compr order sv l ms bs Hs H3 Hl R
              Hn0 Hna D Ho)
    as (tr' & w2 & E' & Pl' & _ & _ & Ti' & Tr' & Co' & _ & _ & St').
  eexists tr, tr', w1, w2, _. split; [exact E|]. split; [exact E'|].
  split; [now rewrite Ti, Ti'|].
  split.
  { rewrite Co, Co'. f_equal. apply map_ext. intros i.
    now rewrite (overlap_acc_not_mpo _ _ _ _ _ Hmeth). }
  split; [now rewrite Tr, Tr'|].
  split; [exact St|]. split; [|now rewrite Pl, Pl'].
  erewrite map_ext; [exact St'|]. intros i. cbn beta.
  now rewrite (evolved_not_mpo _ _ _ _ _ Hmeth).
Qed.

End Behaviour.

(** ** Inputs that are not checked *)

Lemma mapR_raise_first {X Y : Type} (f : X -> result Y) (x : X) (l : list X) (e : exn) :
  f x = Raise e -> mapR f (x :: l) = Raise e.
Proof. intros H. cbn [mapR]. now rewrite H. Qed.

Lemma py_sort_nonempty (l : list pynum) : l <> [] -> py_sort l <> [].
Proof.
  intros Hne E. apply (f_equal (@length _)) in E. rewrite py_sort_length in E.
  destruct l; [congruence | discriminate].
Qed.

Section Unchecked.
Context {Sub : Substrate}.
Implicit Types (w : World Sub).

Lemma times_to_steps_empty_run w (ts : loc) :
  pylists w !! ts = Some [] -> _times_to_steps ts 0 w = (Raise IndexError, w) /\
  forall n, _times_to_steps ts n w = (Raise IndexError, w).
Proof.
  intros Hl.
  assert (H : forall n, _times_to_steps ts n w = (Raise IndexError, w)).
  { intros n. unfold _times_to_steps.
    unfold mbind at 1. unfold M_bind, get_list. rewrite Hl.
    unfold mbind at 1. unfold M_bind, set_list.
    unfold mbind at 1. unfold M_bind. cbn [pylists mpas py_sort].
    rewrite list_lookup_insert_eq by (eapply lookup_lt_Some, Hl).
    unfold mbind at 1. unfold M_bind, lift. cbn [py_last last].
    rewrite list_insert_id by exact Hl. now destruct w. }
  split; [apply H | exact H].
Qed.

(** Division by the int 0, whatever the dividend. *)
Lemma truediv_by_zero (t : pynum) : py_truediv t (PInt 0) = Raise ZeroDivisionError.
Proof. destruct t as [z|q]; reflexivity. Qed.

(** Division by a float zero, for a dividend that converts to a float. *)
Lemma truediv_by_float_zero (t : pynum) (tau : Q) :
  in_range t -> (tau == 0)%Q -> py_truediv t (PFloat tau) = Raise ZeroDivisionError.
Proof.
  intros Ht E. destruct (to_float_in_range t Ht) as (f & Ef & _).
  assert (Hz : Qeq_bool tau 0 = true) by now apply Qeq_bool_iff.
  destruct t as [z|q]; unfold py_truediv; rewrite Ef; cbn [mbind result_bind to_float];
    now rewrite Hz.
Qed.

(** The inputs on which the conversion divides by zero: no slices, or times
    in range whose maximum is 0, for a number of slices in range. *)
Definition divides_by_zero (l : list pynum) (n : Z) : Prop :=
  n = 0%Z \/ ((t_max l == 0)%Q /\ Forall in_range l /\ (Z.abs n <= max_slices)%Z).

Lemma times_to_steps_zero_div_run w (ts : loc) (l : list pynum) (n : Z) :
  pylists w !! ts = Some l -> l <> [] -> divides_by_zero l n ->
  _times_to_steps ts n w = (Raise ZeroDivisionError, after_sort w ts l).
Proof.
  intros Hl Hne Hc. rewrite (times_to_steps_cases w ts l n Hl).
  destruct (last_sorted_is_max l Hne) as (t & Ht & Hv & Hin). rewrite Ht.
  destruct (Z.eq_dec n 0%Z) as [-> | Hn]; [now rewrite truediv_by_zero|].
  destruct Hc as [-> | (Hm & F & Hna)]; [contradiction|].
  rewrite Forall_forall in F.
  rewrite truediv_by_slices;
    [| apply F; now apply list_elem_of_In | exact Hn | exact Hna].
  assert (Ht0 : (round64 (num_val t / inject_Z n) == 0)%Q).
  { apply round64_zero. rewrite Hv, Hm. unfold Qdiv. ring. }
  destruct (py_sort l) as [|x s] eqn:Es; [now apply py_sort_nonempty in Es|].
  rewrite (mapR_raise_first _ x s ZeroDivisionError); [reflexivity|].
  unfold convert. rewrite truediv_by_float_zero; [reflexivity | | exact Ht0].
  apply F, list_elem_of_In. eapply Permutation_in; [apply py_sort_perm|].
  rewrite Es. now left.
Qed.

(** X7: [_times_to_steps] on the inputs it cannot convert: an empty list is an
    IndexError and the list stays empty; zero slices, or times in range whose
    maximum is 0, are a ZeroDivisionError, raised after the list has been
    sorted in place and before any entry has been replaced. *)
Theorem times_to_steps_failures w (ts : loc) (l : list pynum) (n : Z) :
  pylists w !! ts = Some l ->
  (l = [] -> _times_to_steps ts n w = (Raise IndexError, w)) /\
  (l <> [] ->
   n = 0%Z \/ ((t_max l == 0)%Q /\ Forall in_range l /\ (Z.abs n <= max_slices)%Z) ->
   _times_to_steps ts n w = (Raise ZeroDivisionError, after_sort w ts l) /\
   pylists (after_sort w ts l) !! ts = Some (py_sort l) /\
   Permutation (py_sort l) l /\ StronglySorted num_le (py_sort l)).
Proof.
  intros Hl. split.
  - intros ->. now apply times_to_steps_empty_run.
  - intros Hne Hc. split; [now apply times_to_steps_zero_div_run|].
    split; [|split; [apply py_sort_perm | apply py_sort_sorted]].
    unfold after_sort. cbn. apply list_lookup_insert_eq. eapply lookup_lt_Some, Hl.
Qed.

(** X8: The number of slices is not validated by [evolve]: with 0 slices (or
    with times in range whose maximum is 0 although not all are 0) the call
    ends in a ZeroDivisionError, not in a configuration error.  By then the
    state has been compressed and the caller's list of times sorted in place;
    no propagator has been built. *)
Theorem evolve_zero_division w (state ts : loc) (hs : list (pyobj Sub)) (n : Z)
    (method : string) (compr : Compr) (order : Z) (sv : MPArray) (l : list pynum) :
  holds w state sv -> 3 <= mpa_len (squeezed sv) ->
  pylists w !! ts = Some l ->
  forallb (fun t => num_eqb t (PInt 0)) l = false ->
  n = 0%Z \/ ((t_max l == 0)%Q /\ Forall in_range l /\ (Z.abs n <= max_slices)%Z) ->
  let setup := after_compress w state method sv in
  evolve state hs ts n method compr order w = (Raise ZeroDivisionError, after_sort setup ts l) /\
  mpas (after_sort setup ts l) = mpas setup /\
  pylists (after_sort setup ts l) !! ts = Some (py_sort l).
Proof.
  intros Hs H3 Hl Hz Hc setup. split; [|split; [reflexivity|]].
  - apply (evolve_conversion_fails w state ts hs n method compr order sv l _ _ Hs H3 Hl Hz).
    apply times_to_steps_zero_div_run; [exact Hl | now apply not_all_zero_nonempty | exact Hc].
  - unfold after_sort. cbn. apply list_lookup_insert_eq. eapply lookup_lt_Some, Hl.
Qed.

(** X9: A negative number of slices is accepted: the propagator is built for a
    negative [tau], the loop body never runs, and the trace holds at most the
    entry for time 0, which is the caller's state object; it holds that entry
    whenever 0 is among the requested times. *)
Theorem evolve_negative_slices w (state ts : loc) (hs : list (pyobj Sub)) (n : Z)
    (method : string) (compr : Compr) (order : Z) (sv : MPArray) (l : list pynum)
    (ms bs : list ndarray) :
  holds w state sv -> 3 <= mpa_len (squeezed sv) ->
  pylists w !! ts = Some l -> valid_times l -> (- max_slices <= n < 0)%Z ->
  describes hs (mpa_len (squeezed sv)) ms bs ->
  order = 2%Z \/ order = 4%Z ->
  exists (tr : Trace) w',
    evolve state hs ts n method compr order w = (Ok tr, w') /\
    tau_of l n = round64 (t_max l / inject_Z n) /\ (tau_of l n < 0)%Q /\
    let z := starts_at_zero (steps_of l n) in
    tr_times tr = (if z then [PInt 0] else []) /\
    tr_states tr = (if z then [state] else []) /\
    tr_compr_errors tr = (if z then [PInt 0] else []) /\
    tr_trot_errors tr = (if z then [PInt 0] else []) /\
    ((exists t, In t l /\ (num_val t == 0)%Q) -> z = true).
Proof.
  intros Hs H3 Hl V Hn D Ho. pose proof (valid_times_ranged l V) as R.
  destruct (evolve_full w state ts hs n method compr order sv l ms bs Hs H3 Hl R
              ltac:(lia) ltac:(lia) D Ho)
    as (tr & w' & E & _ & _ & _ & Ti & Tr & Co & (fresh & Fr & _) & _ & St).
  replace (Z.to_nat n) with 0 in * by lia.
  change (hits (steps_of l n) 0 0) with (@nil nat) in *. cbn [map] in *.
  rewrite app_nil_r in Ti, Tr, Co, St.
  exists tr, w'. split; [exact E|]. split; [reflexivity|].
  split.
  { destruct (tau_of_facts l n R) as (_ & _ & _ & N & _); [lia | lia|]. apply N. lia. }
  cbv zeta. split; [exact Ti|].
  split.
  { apply Forall2_length_eq in St. rewrite Fr in St |- *.
    destruct (starts_at_zero (steps_of l n)); destruct fresh; cbn in St; try discriminate;
      reflexivity. }
  split; [exact Co|]. split; [exact Tr|].
  intros (t & Ht & E0).
  unfold steps_of. pose proof (py_sort_sorted l) as Ss.
  assert (Hin : In t (py_sort l)).
  { eapply Permutation_in; [symmetry; apply py_sort_perm | exact Ht]. }
  destruct (py_sort l) as [|t0 s] eqn:Es; [destruct Hin|].
  cbn [map starts_at_zero]. unfold step_of, num_eqb. cbn [num_val].
  apply Qeq_bool_iff.
  assert (H0 : (num_val t0 == 0)%Q).
  { pose proof (sorted_head_min s t0 t Ss Hin) as Hle. unfold num_le in Hle.
    assert (In t0 l) as Hin0.
    { eapply Permutation_in; [apply py_sort_perm|]. rewrite Es. now left. }
    pose proof (valid_times_nonneg l t0 V Hin0). lra. }
  now rewrite (step_Z_zero _ t0 H0).
Qed.

(** X10: Negative times are not rejected either.  When some requested time is
    converted to a negative step, the call returns, every recorded time is
    positive, and so neither that time nor a requested time 0 has an
    entry. *)
Theorem evolve_negative_times w (state ts : loc) (hs : list (pyobj Sub)) (n : Z)
    (method : string) (compr : Compr) (order : Z) (sv : MPArray) (l : list pynum)
    (ms bs : list ndarray) (t_neg : pynum) :
  holds w state sv -> 3 <= mpa_len (squeezed sv) ->
  pylists w !! ts = Some l -> ranged_times l -> (0 < n <= max_slices)%Z ->
  In t_neg l ->
  (py_round (round64 (num_val t_neg / round64 (t_max l / inject_Z n))) < 0)%Z ->
  describes hs (mpa_len (squeezed sv)) ms bs ->
  order = 2%Z \/ order = 4%Z ->
  exists (tr : Trace) w',
    evolve state hs ts n method compr order w = (Ok tr, w') /\
    starts_at_zero (steps_of l n) = false /\
    Forall (fun e => 0 < num_val e)%Q (tr_times tr) /\
    length (tr_states tr) = length (tr_times tr).
Proof.
  intros Hs H3 Hl R Hn Hin Hneg D Ho.
  destruct (slices_abs_pos n Hn) as [Hn0 Hna].
  pose proof (tau_of_pos l n R Hn) as Htau.
  destruct (tau_of_facts l n R Hn0 Hna) as (TL & _).
  rewrite (Qabs_pos (tau_of l n)) in TL by lra.
  destruct (evolve_full w state ts hs n method compr order sv l ms bs Hs H3 Hl R
              Hn0 Hna D Ho)
    as (tr & w' & E & _ & _ & _ & Ti & _ & _ & _ & _ & St).
  assert (Z0 : starts_at_zero (steps_of l n) = false).
  { unfold steps_of. pose proof (py_sort_sorted l) as Ss.
    assert (Hin' : In t_neg (py_sort l)).
    { eapply Permutation_in; [symmetry; apply py_sort_perm | exact Hin]. }
    destruct (py_sort l) as [|t0 s] eqn:Es; [destruct Hin'|].
    cbn [map starts_at_zero]. unfold step_of, num_eqb. cbn [num_val].
    apply Qeq_bool_false. intros C.
    apply (proj1 (inject_Z_injective _ 0%Z)) in C.
    pose proof (sorted_head_min s t0 t_neg Ss Hin') as Hle. unfold num_le in Hle.
    pose proof (step_Z_mono (tau_of l n) t0 t_neg Htau Hle) as Hmono.
    change (step_Z (tau_of l n) t_neg < 0)%Z in Hneg. lia. }
  rewrite Z0 in Ti, St. cbn [app] in Ti, St.
  exists tr, w'. split; [exact E|]. split; [exact Z0|]. split.
  - rewrite Ti. rewrite Forall_forall. intros e He.
    apply list_elem_of_In, in_map_iff in He. destruct He as (i & <- & _).
    unfold time_at, time_val. cbn [num_val].
    pose proof (pow2_pos (-240)) as P240.
    assert (I1 : (1 <= inject_Z (Z.of_nat i + 1))%Q).
    { change 1%Q with (inject_Z 1). rewrite <- Zle_Qle. lia. }
    assert (L : (pow2 (-240) <= tau_of l n * inject_Z (Z.of_nat i + 1))%Q).
    { apply Qle_trans with (tau_of l n * 1)%Q; [lra|]. apply Qmult_le_l; lra. }
    pose proof (round64_lower _ _ L (round64_pow2 (-240) ltac:(unfold emin; lia))). lra.
  - apply Forall2_length_eq in St. now rewrite St, Ti, !length_map.
Qed.

(** X11: [_time_evolution] on lists of steps it cannot use: an empty list is an
    IndexError, raised before anything is computed; a list whose last entry
    is a float is a TypeError. *)
Theorem time_evolution_rejects w (state u ts : loc) (tau : Q) (method : string)
    (compr : Compr) (uv : MPArray) (l : list pynum) :
  holds w u uv -> pylists w !! ts = Some l ->
  (l = [] -> _time_evolution state u ts tau method compr w = (Raise IndexError, w)) /\
  (forall q, last l = Some (PFloat q) ->
     fst (_time_evolution state u ts tau method compr w) = Raise TypeError).
Proof.
  intros Hu Hl. split.
  - intros ->. unfold _time_evolution.
    erewrite run_bind_ok by (unfold get_list; rewrite Hl; reflexivity).
    reflexivity.
  - intros q Hq. unfold _time_evolution.
    erewrite run_bind_ok by (unfold get_list; rewrite Hl; reflexivity).
    destruct l as [|t0 l0]; [discriminate|].
    erewrite run_bind_ok by reflexivity.
    destruct (String.eqb method "mpo").
    + unfold mp_T, mp_conj.
      erewrite run_bind_ok.
      2:{ erewrite run_bind_ok.
          2:{ erewrite run_bind_ok by (unfold get_mpa; rewrite Hu; reflexivity).
              reflexivity. }
          erewrite run_bind_ok.
          2:{ erewrite run_bind_ok.
              2:{ unfold get_mpa. cbn [mpas]. rewrite lookup_app_r by reflexivity.
                  rewrite Nat.sub_diag. reflexivity. }
              reflexivity. }
          reflexivity. }
      erewrite run_bind_ok by (unfold lift, py_last; rewrite Hq; reflexivity).
      reflexivity.
    + erewrite run_bind_ok by reflexivity.
      erewrite run_bind_ok by (unfold lift, py_last; rewrite Hq; reflexivity).
      reflexivity.
Qed.

End Unchecked.

(** ** Compression, normalization and dense operators *)

Section Objects.
Context {Sub : Substrate}.
Implicit Types (w : World Sub).

(** X12: [_normalize] and [_compress] on the store.  [_normalize] returns
    nothing and leaves every object, the one it is given included, and
    every list as it was; for a method that is neither 'pmps' nor 'mpo' it
    leaves the whole store as it was.  So [_compress(state, method)] leaves
    in [state] exactly what [state.compress(relerr=1e-20)] alone leaves
    there, whatever the method, and changes no other object. *)
Theorem compress_is_compression_only w (state : loc) (method : string) (v : MPArray) :
  holds w state v ->
  (exists w1, _normalize state method w = (Ok tt, w1) /\ ext w w1 /\ holds w1 state v /\
              (String.eqb method "pmps" = false -> String.eqb method "mpo" = false ->
               w1 = w)) /\
  (exists w2, _compress state method w = (Ok tt, w2) /\
              mpas w2 !! state = mpas (snd (compress state relerr_1e_20 w)) !! state /\
              holds w2 state (fst (mpa_compress relerr_1e_20 v)) /\
              (forall r x, r <> state -> holds w r x -> holds w2 r x) /\
              pylists w2 = pylists w).
Proof.
  intros H. split.
  - eexists. split; [apply normalize_run, H|].
    assert (E : ext w (mkWorld (mpas w ++ normalize_garbage method v) (pylists w))).
    { split; [now apply prefix_app_r | reflexivity]. }
    split; [exact E|]. split; [eapply holds_ext; eauto|].
    intros Hp Hm. unfold normalize_garbage. rewrite Hp, Hm. cbn [app].
    rewrite app_nil_r. now destruct w.
  - eexists. split; [apply _compress_run, H|].
    split.
    { rewrite (compress_run _ _ _ _ H). cbn [snd mpas].
      rewrite (holds_after_compress w state method v H).
      symmetry. apply list_lookup_insert_eq. eapply lookup_lt_Some, H. }
    split; [apply holds_after_compress, H|].
    split; [|reflexivity].
    intros r x Hr Hx. now apply holds_after_compress_ne.
Qed.

(** X13: Every outcome of [matrix_to_mpo]: an empty shape is an IndexError and
    a shape whose sites differ in their number of legs is a ValueError, both
    raised before anything is created; for any other shape the result is a
    new object that holds the compressed network of the reshaped matrix, and
    no object that existed before has changed. *)
Theorem matrix_to_mpo_outcome w (matrix : ndarray) (shape : list (list nat)) :
  (shape = [] -> matrix_to_mpo matrix shape w = (Raise IndexError, w)) /\
  (forall row0 rest, shape = row0 :: rest ->
     forallb (fun row => length row =? length row0) rest = false ->
     matrix_to_mpo matrix shape w = (Raise bad_legs, w)) /\
  (forall row0 rest, shape = row0 :: rest ->
     forallb (fun row => length row =? length row0) rest = true ->
     exists r w',
       matrix_to_mpo matrix shape w = (Ok r, w') /\
       ext w w' /\ length (mpas w) <= r /\
       holds w' r (fst (mpa_compress relerr_1e_20
                          (mpa_from_array_global (np_reshape matrix (new_shape shape))
                                                 (length row0))))).
Proof.
  split; [|split].
  - intros ->. reflexivity.
  - intros row0 rest -> H. now apply matrix_to_mpo_bad_legs.
  - intros row0 rest -> H.
    destruct (matrix_to_mpo_made w matrix (row0 :: rest)) as (r & w' & E & Ex & L & Hr).
    + discriminate.
    + cbn [hd forallb]. now rewrite Nat.eqb_refl, H.
    + exists r, w'. split; [exact E|]. split; [exact Ex|]. split; [exact L | exact Hr].
Qed.

End Objects.

(** ** The shape a dense operator is reshaped to *)

Lemma nth_flat_map_const {A : Type} (f : nat -> list A) (c : nat) (d : A) :
  (forall i, length (f i) = c) ->
  forall len start i j, i < len -> j < c ->
    nth (i * c + j) (flat_map f (seq start len)) d = nth j (f (start + i)) d.
Proof.
  intros Hf. induction len as [|len IH]; intros start i j Hi Hj; [lia|].
  cbn [seq flat_map]. destruct i as [|i].
  - cbn [Nat.mul Nat.add]. rewrite app_nth1 by (rewrite Hf; exact Hj).
    now rewrite Nat.add_0_r.
  - rewrite app_nth2 by (rewrite Hf; lia). rewrite Hf.
    replace (S i * c + j - c) with (i * c + j) by lia.
    rewrite IH by lia. f_equal. f_equal. lia.
Qed.

Lemma length_flat_map_const {A : Type} (f : nat -> list A) (c : nat) (idxs : list nat) :
  (forall i, length (f i) = c) -> length (flat_map f idxs) = length idxs * c.
Proof.
  intros Hf. induction idxs as [|i idxs IH]; [reflexivity|].
  cbn [flat_map length]. rewrite length_app, Hf, IH. lia.
Qed.

(** The columns of a table of rows, one after the other. *)
Definition columns (shape : list (list nat)) (legs : nat) : list nat :=
  flat_map (fun i => map (fun row => nth i row 0) shape) (seq 0 legs).

Lemma columns_succ (shape : list (list nat)) (legs : nat) :
  columns shape (S legs) = map (fun row => nth 0 row 0) shape ++ columns (map (@tail nat) shape) legs.
Proof.
  unfold columns. cbn [seq flat_map]. f_equal.
  rewrite <- seq_shift, flat_map_concat_map, map_map, <- flat_map_concat_map.
  apply flat_map_ext. intros i. rewrite map_map. apply map_ext.
  intros [|x row]; [now destruct i | reflexivity].
Qed.

Lemma heads_and_tails (shape : list (list nat)) :
  Forall (fun row => row <> []) shape ->
  Permutation (map (fun row => nth 0 row 0) shape ++ concat (map (@tail nat) shape))
              (concat shape).
Proof.
  induction 1 as [|row shape Hr _ IH]; [reflexivity|].
  destruct row as [|x row]; [congruence|].
  cbn [map concat nth tail app]. constructor.
  rewrite <- IH. rewrite !app_assoc. apply Permutation_app_tail, Permutation_app_comm.
Qed.

Lemma columns_permutation (legs : nat) :
  forall shape, Forall (fun row => length row = legs) shape ->
                Permutation (columns shape legs) (concat shape).
Proof.
  induction legs as [|legs IH]; intros shape F.
  - unfold columns. cbn [seq flat_map].
    induction F as [|row shape Hr _ IHs]; [reflexivity|].
    destruct row; [exact IHs | discriminate].
  - rewrite columns_succ. rewrite <- (heads_and_tails shape).
    + apply Permutation_app_head, IH.
      rewrite Forall_forall in F. rewrite Forall_forall. intros row Hrow.
      apply list_elem_of_In, in_map_iff in Hrow. destruct Hrow as (r0 & <- & Hr0).
      apply list_elem_of_In in Hr0. specialize (F r0 Hr0).
      destruct r0; [discriminate|]. cbn in *. lia.
    + eapply Forall_impl; [exact F|]. intros row Hr ->. discriminate.
Qed.

Lemma product_permutation (l k : list nat) :
  Permutation l k -> foldr Nat.mul 1 l = foldr Nat.mul 1 k.
Proof.
  induction 1 as [|x l k _ IH|x y l|l k m _ IH1 _ IH2]; cbn [foldr]; [reflexivity | | lia |].
  - now rewrite IH.
  - now rewrite IH1.
Qed.

Section Shapes.
Context {Sub : Substrate}.

(** X14: The shape [matrix_to_mpo] reshapes to, for a shape of [sites] sites
    with [legs] legs each: it lists leg 0 of every site, then leg 1 of every
    site, and so on, so it has [legs * sites] entries, is a rearrangement of
    the dimensions of the given shape and has the same number of matrix
    entries. *)
Theorem new_shape_transposes (shape : list (list nat)) (legs : nat) :
  shape <> [] -> Forall (fun row => length row = legs) shape ->
  length (new_shape shape) = legs * length shape /\
  (forall i j, i < legs -> j < length shape ->
     nth (i * length shape + j) (new_shape shape) 0 = nth i (nth j shape []) 0) /\
  Permutation (new_shape shape) (concat shape) /\
  foldr Nat.mul 1 (new_shape shape) = foldr Nat.mul 1 (concat shape) /\
  forall w (matrix : ndarray),
    yields (matrix_to_mpo matrix shape) w
      (fun r w' => holds w' r (squeezed (mpa_from_array_global
                                           (np_reshape matrix (new_shape shape)) legs))).
Proof.
  intros Hne F.
  assert (Hl : length (hd [] shape) = legs).
  { destruct shape as [|row0 rest]; [congruence|]. now apply Forall_inv in F. }
  assert (Hc : new_shape shape = columns shape legs).
  { unfold new_shape, columns. now rewrite Hl. }
  split.
  { rewrite Hc. unfold columns.
    rewrite (length_flat_map_const _ (length shape)), length_seq; [reflexivity|].
    intros i. apply length_map. }
  split.
  { intros i j Hi Hj. rewrite Hc. unfold columns.
    rewrite (nth_flat_map_const _ (length shape)); [|intros; apply length_map | exact Hi | exact Hj].
    cbn [Nat.add]. rewrite (nth_indep _ 0 (nth i [] 0)) by (rewrite length_map; exact Hj).
    apply (map_nth (fun row => nth i row 0)). }
  split; [rewrite Hc; now apply columns_permutation|].
  split; [apply product_permutation; rewrite Hc; now apply columns_permutation|].
  intros w matrix.
  eapply yields_mono; [apply matrix_to_mpo_made; [exact Hne|]|].
  - apply forallb_forall. intros row Hrow. apply Nat.eqb_eq. rewrite Hl.
    rewrite Forall_forall in F. apply F. now apply list_elem_of_In.
  - intros r w' (_ & _ & H). unfold mpo_val in H. now rewrite Hl in H.
Qed.

End Shapes.

(** ** The builders *)

Section Builders.
Context {Sub : Substrate}.
Implicit Types (w : World Sub).

(** A step that returns, followed by anything. *)
Lemma yields_then {X Y : Type} (m : M X) (f : X -> M Y) w (P : X -> World Sub -> Prop)
    (Q : result Y * World Sub -> Prop) :
  yields m w P -> (forall x w', P x w' -> Q (f x w')) -> Q ((m ≫= f) w).
Proof.
  intros (x & w' & E & H) Hf. unfold mbind, M_bind. rewrite E. now apply Hf.
Qed.

Lemma u_list_to_mpo_unbound w (dims : list nat) (u_odd u_even : list ndarray) :
  length dims mod 2 = 0 -> length u_odd = length u_even -> u_odd <> [] ->
  2 * length u_even + 1 <= length dims ->
  fst (_u_list_to_mpo dims u_odd u_even w) = Raise UnboundLocalError.
Proof.
  intros Hd He Nb Hlen. unfold _u_list_to_mpo.
  assert (Ne : u_even <> []) by (destruct u_odd, u_even; cbn in *; congruence).
  assert ((length dims mod 2 =? 1) = false) as -> by (apply Nat.eqb_neq; lia).
  erewrite run_bind_ok by reflexivity. cbn beta iota.
  eapply yields_then; [apply odd_parts_made; lia|]. intros ops w1 [E1 F1].
  eapply yields_then; [apply mp_chain_made; [exact F1 | now apply parts_nonempty]|].
  intros o w2 (E2 & L2 & H2).
  eapply yields_then; [apply even_parts_made; lia|]. intros eps w3 [E3 F3].
  eapply yields_then; [apply mp_chain_made; [exact F3 | now apply parts_nonempty]|].
  intros e w4 (E4 & L4 & H4).
  erewrite run_bind_ok by (unfold lift; rewrite (py_index_nth _ _ 0) by lia; reflexivity).
  eapply yields_then; [apply mp_eye_made|]. intros i w5 (E5 & L5 & H5).
  eapply yields_then.
  { apply mp_chain_made;
      [constructor; [exact H5|]; constructor; [|constructor]; eapply holds_ext; eauto
      | discriminate]. }
  intros e' w6 _.
  assert ((length u_even <? length u_odd) = false) as -> by (apply Nat.ltb_ge; lia).
  assert ((length u_even =? length u_odd) = true) as -> by (apply Nat.eqb_eq; lia).
  reflexivity.
Qed.

(** X15: [_u_list_to_mpo] reads [last_h] only if it was bound.  Called with an
    even number of dimensions and as many odd-bond as even-bond operators it
    ends in an UnboundLocalError, after the networks have been built; on the
    lists that [_get_u_list] makes for a chain of at least 3 sites it always
    returns two new objects and changes no object that existed before. *)
Theorem u_list_to_mpo_last_operator w :
  (forall (dims : list nat) (u_odd u_even : list ndarray),
     length dims mod 2 = 0 -> length u_odd = length u_even -> u_odd <> [] ->
     2 * length u_even + 1 <= length dims ->
     fst (_u_list_to_mpo dims u_odd u_even w) = Raise UnboundLocalError) /\
  (forall (ms bs : list ndarray) (tau : Q),
     length ms = S (length bs) -> 3 <= length ms ->
     exists (dims : list nat) (u_odd u_even : list ndarray) (p : loc * loc) w',
       _get_u_list (PyList (map Ndarray ms)) (PyList (map Ndarray bs)) tau
         = Ok (dims, u_odd, u_even) /\
       _u_list_to_mpo dims u_odd u_even w = (Ok p, w') /\
       ext w w' /\ length (mpas w) <= fst p /\ length (mpas w) <= snd p /\
       holds w' (fst p) (odd_net tau ms bs) /\ holds w' (snd p) (even_net tau ms bs)).
Proof.
  split; [intros; now apply u_list_to_mpo_unbound|].
  intros ms bs tau Hlen H3.
  destruct (u_list_to_mpo_made w tau ms bs Hlen H3) as (p & w' & E & M).
  eexists _, _, _, p, w'. split; [now apply get_u_list_eq|]. split; [exact E | exact M].
Qed.

(** X16: What [_get_h_list] guarantees when it returns, for at least one site:
    the first item has [num_sites] entries and the second [num_sites - 1],
    in either input form.  A description with no item is an IndexError; one
    with a single item is a ValueError when that item is a list of the
    wrong length, the second item not being looked at, and an IndexError
    otherwise. *)
Theorem get_h_list_lengths (hs : list (pyobj Sub)) (num_sites : Z) :
  (forall a b, _get_h_list hs num_sites = Ok (a, b) -> (1 <= num_sites)%Z ->
     Z.of_nat (py_len a) = num_sites /\ Z.of_nat (py_len b) = (num_sites - 1)%Z) /\
  (hs = [] -> _get_h_list hs num_sites = Raise IndexError) /\
  (forall h0, hs = [h0] ->
     _get_h_list hs num_sites =
       if is_list h0 && negb (Z.of_nat (py_len h0) =? num_sites)%Z
       then Raise bad_lengths else Raise IndexError).
Proof.
  split; [|split].
  - intros a b H Hn. unfold _get_h_list in H.
    destruct hs as [|h0 [|h1 rest]]; cbn in H; try discriminate.
    + destruct (is_list h0); cbn in H; [|discriminate].
      destruct (Z.of_nat (py_len h0) =? num_sites)%Z; cbn in H; discriminate.
    + destruct (is_list h0); cbn in H.
      * destruct (Z.of_nat (py_len h0) =? num_sites)%Z eqn:E0; cbn in H; [|discriminate].
        destruct (Z.of_nat (py_len h1) =? num_sites - 1)%Z eqn:E1; cbn in H; [|discriminate].
        injection H as <- <-. split; now apply Z.eqb_eq.
      * injection H as <- <-. cbn [py_len]. rewrite !length_replicate. lia.
  - intros ->. reflexivity.
  - intros h0 ->. unfold _get_h_list. cbn.
    destruct (is_list h0); cbn; [|reflexivity].
    destruct (Z.of_nat (py_len h0) =? num_sites)%Z; reflexivity.
Qed.

(** X17: The order-2 slice as a product: [_trotter_two] multiplies the odd-bond
    network, the even-bond network and the odd-bond network again, where the
    two networks are what [_u_list_to_mpo] makes of the lists of
    [_get_u_list]: the odd-bond operators are exponentials with the
    coefficient [-1j * tau / 2], the even-bond operators with [-1j * tau]. *)
Theorem trotter_two_composition w (hs : list (pyobj Sub)) (n : nat)
    (ms bs : list ndarray) (tau : Q) :
  describes hs n ms bs -> 3 <= n ->
  exists (dims : list nat) (u_odd u_even : list ndarray) (odd even : MPArray),
    _get_u_list (PyList (map Ndarray ms)) (PyList (map Ndarray bs)) tau
      = Ok (dims, u_odd, u_even) /\
    (forall w0, yields (_u_list_to_mpo dims u_odd u_even) w0
                  (fun p w' => holds w' (fst p) odd /\ holds w' (snd p) even)) /\
    yields (_trotter_two hs tau (Z.of_nat n)) w
      (fun r w' => holds w' r (mpa_dot (mpa_dot odd even) odd)) /\
    u_even = map (fun h => expm (np_scale (c_mul minus_j tau) h)) (stride2 (tail bs)) /\
    (forall k h a b, stride2 bs !! k = Some h -> ms !! (2 * k) = Some a ->
       ms !! (2 * k + 1) = Some b ->
       u_odd !! k = Some (expm (np_scale (c_div (c_mul minus_j tau) 2)
                                         (np_add h (two_site a b))))).
Proof.
  intros D Hn. destruct (describes_length _ _ _ _ D) as [L1 L2].
  exists (map np_len ms), (u_odd_list tau ms bs), (even_blocks tau bs),
         (odd_net tau ms bs), (even_net tau ms bs).
  split; [now apply get_u_list_eq|]. split; [|split; [|split; [reflexivity|]]].
  - intros w0. eapply yields_mono; [apply u_list_to_mpo_made; [exact L2 | lia]|].
    intros p w' (_ & _ & _ & Ho & He). now split.
  - eapply yields_mono; [exact (trotter_two_made w hs n ms bs tau D Hn)|].
    now intros r w' (_ & _ & H).
  - intros k h a b Hh Ha Hb.
    assert (Hk : odd_blocks tau ms bs !! k
                 = Some (expm (np_scale (odd_coef tau) (np_add h (two_site a b))))).
    { unfold odd_blocks. rewrite lookup_zip_with, Hh. cbn.
      assert (pairs ms !! k = Some (a, b)) as -> by now apply lookup_pairs.
      reflexivity. }
    unfold u_odd_list. destruct (Nat.odd (length ms)); [|exact Hk].
    apply lookup_app_l_Some. exact Hk.
Qed.

(** X18: Building the propagator touches nothing the caller has: for order 2
    and order 4, [_trotter_slice] returns a new object and leaves every
    object that existed before, and every list, as it was, although
    [matrix_to_mpo] and [_trotter_four] compress objects in place: those are
    objects they have created themselves. *)
Theorem propagator_construction_pure w (hs : list (pyobj Sub)) (n : nat)
    (ms bs : list ndarray) (tau : Q) (order : Z) :
  describes hs n ms bs -> 3 <= n -> order = 2%Z \/ order = 4%Z ->
  exists (u : loc) w',
    _trotter_slice hs tau (Z.of_nat n) order w = (Ok u, w') /\
    length (mpas w) <= u /\
    (forall r v, holds w r v -> holds w' r v) /\
    pylists w' = pylists w /\
    holds w' u (if (order =? 2)%Z then slice2 tau ms bs else slice4 tau ms bs).
Proof.
  intros D Hn Ho.
  destruct (trotter_slice_made w hs n ms bs tau order D Hn Ho) as (u & w' & E & Ex & L & H).
  exists u, w'. split; [exact E|]. split; [exact L|].
  split; [intros r v Hr; eapply holds_ext; eauto|].
  split; [apply Ex | exact H].
Qed.

End Builders.

(** X19: The increments of the order-4 scheme add up to [tau]; for a positive
    [tau] the outer four are positive and the middle one runs backwards in
    time, by less than [tau]. *)
Theorem trotter_four_increments (tau : Q) :
  (0 < tau)%Q ->
  (s1 tau + s1 tau + s3 tau + s1 tau + s1 tau == tau)%Q /\
  (0 < s1 tau < tau)%Q /\ (- tau < s3 tau < 0)%Q.
Proof.
  intros Hp. unfold s1, s3.
  set (d := (4 - cbrt4)%Q).
  assert (Hd : (0 < d)%Q) by reflexivity.
  assert (Hd1 : (1 < d)%Q) by reflexivity.
  assert (Hd2 : (d < 4)%Q) by reflexivity.
  assert (Hd3 : (2 < d)%Q) by reflexivity.
  assert (Hq : (0 < tau / d)%Q) by (apply Qlt_shift_div_l; lra).
  assert (M1 : (tau * 1 < tau * d)%Q) by (apply Qmult_lt_l; assumption).
  assert (M2 : (tau * d < tau * 4)%Q) by (apply Qmult_lt_l; assumption).
  assert (M3 : (tau * 2 < tau * d)%Q) by (apply Qmult_lt_l; assumption).
  assert (Hq1 : (tau / d < tau)%Q) by (apply Qlt_shift_div_r; [exact Hd | lra]).
  assert (Hq2 : (tau < 4 * tau / d)%Q) by (apply Qlt_shift_div_l; [exact Hd | lra]).
  assert (Hq3 : (4 * tau / d < 2 * tau)%Q) by (apply Qlt_shift_div_r; [exact Hd | lra]).
  split; [field; lra|]. split; [split; assumption|]. split; lra.
Qed.

(** ** Zero Hamiltonians, both orders *)

Section ZeroSlices.
Context {Sub : Substrate} {Laws : SubstrateLaws Sub}.
Implicit Types (w : World Sub).

#[local] Existing Instance mpa_equiv_equivalence.

Lemma dot_identities (ds : list nat) (a b : MPArray) :
  mpa_equiv a (id_net ds) -> mpa_equiv b (id_net ds) ->
  mpa_equiv (mpa_dot a b) (id_net ds).
Proof.
  intros Ha Hb. etrans; [apply mpa_dot_proper; eassumption|]. apply mpa_dot_identity.
Qed.

Lemma slice4_zero (tau : Q) (ds : list nat) :
  2 <= length ds -> mpa_equiv (slice4 tau (zero_sites ds) (zero_bonds ds)) (id_net ds).
Proof.
  intros H2. unfold slice4.
  pose proof (slice2_zero (s1 tau) ds H2) as H1.
  pose proof (slice2_zero (s3 tau) ds H2) as H3.
  apply dot_identities; [|exact H1]. apply dot_identities; [|exact H1].
  etrans; [apply squeezed_equiv|].
  apply dot_identities; [|exact H3]. apply dot_identities; exact H1.
Qed.

(** X20: With every site and bond Hamiltonian zero, the propagator is the
    identity for order 4 as well as for order 2: the slice that
    [_trotter_slice] returns and the compressed slice that [evolve] applies
    are, as operators, the identity on every site, for every [tau]. *)
Theorem zero_hamiltonians_identity_propagator w (hs : list (pyobj Sub)) (n : nat)
    (ds : list nat) (tau : Q) (order : Z) :
  describes hs n (zero_sites ds) (zero_bonds ds) -> 3 <= n ->
  order = 2%Z \/ order = 4%Z ->
  yields (_trotter_slice hs tau (Z.of_nat n) order) w
         (fun r w' => exists v, holds w' r v /\ mpa_equiv v (id_net ds)) /\
  mpa_equiv (propagator order tau (zero_sites ds) (zero_bonds ds)) (id_net ds).
Proof.
  intros D Hn Ho.
  assert (H2 : 2 <= length ds).
  { destruct (describes_length _ _ _ _ D) as [L _].
    unfold zero_sites in L. rewrite length_map in L. lia. }
  assert (Hs : mpa_equiv (if (order =? 2)%Z
                          then slice2 tau (zero_sites ds) (zero_bonds ds)
                          else slice4 tau (zero_sites ds) (zero_bonds ds)) (id_net ds)).
  { destruct (order =? 2)%Z; [now apply slice2_zero | now apply slice4_zero]. }
  split.
  - eapply yields_mono; [exact (trotter_slice_made w hs n _ _ tau order D Hn Ho)|].
    intros r w' (_ & _ & H). eexists. split; [exact H | exact Hs].
  - unfold propagator. etrans; [apply squeezed_equiv | exact Hs].
Qed.

End ZeroSlices.

(** ** Converting twice, counting entries, covering the chain *)

Lemma sort_insert_head (x : pynum) (l : list pynum) :
  Forall (num_le x) l -> sort_insert x l = x :: l.
Proof.
  destruct l as [|y l]; [reflexivity|]. intros F. apply Forall_inv in F.
  cbn [sort_insert]. now rewrite (proj2 (num_leb_le x y) F).
Qed.

Lemma py_sort_sorted_id (l : list pynum) : StronglySorted num_le l -> py_sort l = l.
Proof.
  induction 1 as [|x l S IH F]; [reflexivity|].
  cbn [py_sort]. rewrite IH. now apply sort_insert_head.
Qed.

Lemma sorted_lt_NoDup (ks : list Z) : StronglySorted Z.lt ks -> NoDup ks.
Proof.
  induction 1 as [|k ks S IH F]; constructor; [|exact IH].
  intros Hin. rewrite Forall_forall in F. specialize (F k Hin). lia.
Qed.

Lemma NoDup_In_length {A : Type} (l k : list A) :
  NoDup l -> (forall x, In x l -> In x k) -> length l <= length k.
Proof.
  intros N H. apply submseteq_length, NoDup_submseteq; [exact N|].
  intros x Hx. apply list_elem_of_In, H, list_elem_of_In, Hx.
Qed.

Section Invariants.
Context {Sub : Substrate}.
Implicit Types (w : World Sub).

(** X21: [_times_to_steps] is not idempotent on its list: called a second time
    on the list it has converted, it takes the steps for times, returns
    [tau = 1.0] whatever the original times were, and leaves the steps as
    they are.  A list of times that has been passed to [evolve] therefore
    cannot be passed again. *)
Theorem times_to_steps_twice w (ts : loc) (l : list pynum) (n : Z) :
  pylists w !! ts = Some l -> valid_times l -> (0 < n <= max_slices)%Z ->
  exists (tau1 tau2 : Q) w1,
    _times_to_steps ts n w = (Ok tau1, w1) /\
    _times_to_steps ts n w1 = (Ok tau2, w1) /\
    tau1 = round64 (t_max l / inject_Z n) /\ (tau2 == 1)%Q /\
    pylists w1 !! ts =
      Some (map (fun t => PInt (py_round (round64 (num_val t / tau1)))) (py_sort l)).
Proof.
  intros Hl V Hn. pose proof (valid_times_ranged l V) as R.
  destruct (slices_abs_pos n Hn) as [Hn0 Hna].
  set (steps := steps_of l n).
  set (w1 := mkWorld (mpas w) (<[ts := steps]> (pylists w))).
  assert (Hl1 : pylists w1 !! ts = Some steps).
  { unfold w1. cbn. apply list_lookup_insert_eq. eapply lookup_lt_Some, Hl. }
  assert (Hlast : last steps = Some (PInt n)) by now apply steps_of_last.
  assert (Hsorted : py_sort steps = steps).
  { apply py_sort_sorted_id. now apply steps_of_sorted. }
  assert (Hmax : t_max steps = inject_Z n).
  { unfold t_max. now rewrite Hsorted, Hlast. }
  assert (Hk : forall x, In x steps -> exists k, x = PInt k /\ (0 <= k <= n)%Z).
  { intros x Hx. destruct (steps_of_ints l n x Hx) as [k ->]. exists k.
    split; [reflexivity|]. apply steps_of_In in Hx. destruct Hx as (t & Ht & ->).
    now apply step_Z_bounds. }
  assert (Hb : (max_slices <= 2 ^ 53)%Z) by (vm_compute; discriminate).
  assert (R1 : ranged_times steps).
  { split.
    - rewrite Forall_forall. intros x Hx. apply list_elem_of_In in Hx.
      destruct (Hk x Hx) as (k & -> & B). cbn [in_range]. lia.
    - rewrite Hmax. apply Qle_trans with 1%Q.
      + change 1%Q with (pow2 0). apply pow2_le. lia.
      + change 1%Q with (inject_Z 1). rewrite <- Zle_Qle. lia. }
  assert (Htau : (tau_of steps n == 1)%Q).
  { unfold tau_of. rewrite Hmax.
    assert (E : (inject_Z n / inject_Z n == inject_Z 1)%Q).
    { change (inject_Z 1) with 1%Q. field. apply inject_Z_nonzero. lia. }
    rewrite (round64_comp _ _ E). apply (round64_int 1). vm_compute. discriminate. }
  assert (Hfix : steps_of steps n = steps).
  { unfold steps_of at 1. rewrite Hsorted.
    transitivity (map (fun x : pynum => x) steps); [|apply List.map_id].
    apply map_ext_in. intros x Hx. destruct (Hk x Hx) as (k & -> & B).
    unfold step_of, step_Z. cbn [num_val]. f_equal.
    assert (E : (inject_Z k / tau_of steps n == inject_Z k)%Q) by (rewrite Htau; field).
    rewrite (round64_comp _ _ E).
    rewrite (py_round_comp _ (inject_Z k)); [apply py_round_inject_Z|].
    apply round64_int. lia. }
  exists (tau_of l n), (tau_of steps n), w1.
  split; [now apply times_to_steps_run|]. split.
  - rewrite (times_to_steps_run w1 ts steps n Hl1 R1 Hn0 Hna).
    rewrite Hfix. f_equal. unfold w1. cbn [mpas pylists].
    now rewrite list_insert_insert_eq.
  - split; [reflexivity|]. split; [exact Htau | exact Hl1].
Qed.

(** X22: The trace has at least one entry, at most one entry per requested
    time, and at most [num_trotter_slices + 1] entries. *)
Theorem evolve_trace_length_bounds w (state ts : loc) (hs : list (pyobj Sub)) (n : Z)
    (method : string) (compr : Compr) (order : Z) (sv : MPArray) (l : list pynum)
    (ms bs : list ndarray) :
  holds w state sv -> 3 <= mpa_len (squeezed sv) ->
  pylists w !! ts = Some l -> valid_times l -> (0 < n <= max_slices)%Z ->
  describes hs (mpa_len (squeezed sv)) ms bs ->
  order = 2%Z \/ order = 4%Z ->
  exists (tr : Trace) w',
    evolve state hs ts n method compr order w = (Ok tr, w') /\
    1 <= length (tr_times tr) /\
    length (tr_times tr) <= length l /\
    (Z.of_nat (length (tr_times tr)) <= n + 1)%Z /\
    length (tr_states tr) = length (tr_times tr).
Proof.
  intros Hs H3 Hl V Hn D Ho. pose proof (valid_times_ranged l V) as R.
  destruct (slices_abs_pos n Hn) as [Hn0 Hna].
  destruct (evolve_full w state ts hs n method compr order sv l ms bs Hs H3 Hl R
              Hn0 Hna D Ho)
    as (tr & w' & E & _ & _ & _ & Ti & _ & _ & _ & _ & St).
  exists tr, w'. split; [exact E|].
  set (ks := recorded (steps_of l n) (Z.to_nat n)).
  assert (Hlen : length (tr_times tr) = length ks).
  { rewrite Ti. unfold ks, recorded. rewrite !length_app, !length_map.
    now destruct (starts_at_zero _). }
  assert (Hnd : NoDup ks) by (apply sorted_lt_NoDup, recorded_sorted).
  assert (Hin : forall k, In k ks <-> exists t, In t l /\ k = step_Z (tau_of l n) t).
  { intros k. unfold ks. rewrite recorded_steps_of by assumption. apply steps_of_In. }
  rewrite Hlen. split; [|split; [|split]].
  - assert (In n ks) as Hk.
    { unfold ks. apply recorded_steps_of; [exact V | exact Hn|].
      apply list_elem_of_In, last_Some_elem_of. now apply steps_of_last. }
    destruct ks; [destruct Hk | cbn; lia].
  - rewrite <- (length_map (step_Z (tau_of l n)) l).
    apply NoDup_In_length; [exact Hnd|]. intros k Hk.
    apply Hin in Hk. destruct Hk as (t & Ht & ->). now apply in_map.
  - assert (length ks <= length (map Z.of_nat (seq 0 (S (Z.to_nat n))))) as Hb.
    { apply NoDup_In_length; [exact Hnd|]. intros k Hk.
      apply Hin in Hk. destruct Hk as (t & Ht & ->).
      pose proof (step_Z_bounds l n t V Hn Ht) as B.
      apply in_map_iff. exists (Z.to_nat (step_Z (tau_of l n) t)).
      split; [lia|]. apply in_seq. lia. }
    rewrite length_map, length_seq in Hb. lia.
  - apply Forall2_length_eq in St. rewrite St, <- Hlen, Ti, !length_app, !length_map.
    now destruct (starts_at_zero _).
Qed.

(** X23: The lists of [_get_u_list] cover the chain.  For [N >= 1] site
    operators and [N - 1] bond operators there is always exactly one more
    odd-bond operator than even-bond operators, and the odd-bond operators,
    two sites each and one site for the operator appended when [N] is odd,
    account for all [N] sites.  With no site operator at all the call ends
    in an IndexError. *)
Theorem get_u_list_covers_chain (ms bs : list ndarray) (tau : Q) :
  (length ms = S (length bs) ->
   exists (dims : list nat) (u_odd u_even : list ndarray),
     _get_u_list (PyList (map Ndarray ms)) (PyList (map Ndarray bs)) tau
       = Ok (dims, u_odd, u_even) /\
     dims = map np_len ms /\
     length u_odd = S (length u_even) /\
     2 * length u_odd = length ms + Nat.b2n (Nat.odd (length ms))) /\
  _get_u_list (PyList []) (PyList []) tau = Raise IndexError.
Proof.
  split; [|reflexivity]. intros Hlen.
  eexists _, _, _. split; [now apply get_u_list_eq|]. split; [reflexivity|].
  unfold u_odd_list, trailing.
  pose proof (odd_blocks_length tau ms bs Hlen) as Lo.
  pose proof (even_blocks_length tau bs) as Le.
  rewrite stride2_length in Lo. rewrite stride2_tail_length in Le.
  pose proof (Nat.div2_odd (length bs)) as Db.
  pose proof (Nat.div2_odd (S (length bs))) as Dm.
  rewrite Nat.odd_succ, <- Nat.negb_odd in Dm.
  destruct ms as [|m ms' _] using rev_ind; [discriminate|]. rewrite last_snoc.
  rewrite Hlen, Nat.odd_succ, <- Nat.negb_odd.
  destruct (Nat.odd (length bs)); cbn [negb Nat.b2n] in *;
    rewrite ?length_app; cbn [length]; lia.
Qed.

End Invariants.

(** ** The recorded states, and the two forms of the Hamiltonians *)

Lemma Forall2_map_r {A B C : Type} (P : A -> C -> Prop) (f : B -> C) (l : list A)
    (k : list B) :
  Forall2 P l (map f k) -> Forall2 (fun x y => P x (f y)) l k.
Proof.
  revert l. induction k as [|y k IH]; intros l H; inversion H; subst; constructor; auto.
Qed.

Section Snapshots.
Context {Sub : Substrate}.
Implicit Types (w : World Sub).

(** X24: What the returned states are.  Entry by entry, the trace pairs the
    time, the float product [tau * k] (the int 0 for [k = 0]), with an object
    that, when [evolve] returns, holds the state after [k] passes through the
    loop, for the recorded pass counts [k]: passes that come after an entry
    was recorded do not change it.  Pass 0 is the state as the initial
    compression left it; each pass applies the propagator, as
    [U s U^dagger] for 'mpo' and as [U s] for any other method, and then
    [state.compress] with the caller's settings; the propagator is the slice
    of the requested order after [compress(relerr=1e-20)]. *)
Theorem evolve_states_by_step w (state ts : loc) (hs : list (pyobj Sub)) (n : Z)
    (method : string) (compr : Compr) (order : Z) (sv : MPArray) (l : list pynum)
    (ms bs : list ndarray) :
  holds w state sv -> 3 <= mpa_len (squeezed sv) ->
  pylists w !! ts = Some l -> valid_times l -> (0 < n <= max_slices)%Z ->
  describes hs (mpa_len (squeezed sv)) ms bs ->
  order = 2%Z \/ order = 4%Z ->
  let tau := round64 (t_max l / inject_Z n) in
  let U := fst (mpa_compress relerr_1e_20
                  (if (order =? 2)%Z then slice2 tau ms bs else slice4 tau ms bs)) in
  let after := evolved U method compr (fst (mpa_compress relerr_1e_20 sv)) in
  exists (tr : Trace) w' (ks : list nat),
    evolve state hs ts n method compr order w = (Ok tr, w') /\
    Forall2 (fun t k => num_val t == round64 (tau * inject_Z (Z.of_nat k)))%Q
            (tr_times tr) ks /\
    Forall2 (fun r k => holds w' r (after k)) (tr_states tr) ks /\
    Forall (fun k => Z.of_nat k <= n)%Z ks /\
    after 0 = fst (mpa_compress relerr_1e_20 sv) /\
    (forall k, after (S k) =
               fst (mpa_compress compr
                      (if String.eqb method "mpo"
                       then mpa_dot (mpa_dot U (after k)) (mpa_conj (mpa_T U))
                       else mpa_dot U (after k)))).
Proof.
  intros Hs H3 Hl V Hn D Ho tau U after. pose proof (valid_times_ranged l V) as R.
  destruct (slices_abs_pos n Hn) as [Hn0 Hna].
  destruct (evolve_full w state ts hs n method compr order sv l ms bs Hs H3 Hl R
              Hn0 Hna D Ho)
    as (tr & w' & E & _ & _ & _ & Ti & _ & _ & _ & _ & St).
  fold (tau_of l n) in tau. fold tau in Ti, St.
  change (propagator order tau ms bs) with U in St.
  change (evolved U method compr (squeezed sv)) with after in St.
  set (hs' := hits (steps_of l n) 0 (Z.to_nat n)) in *.
  exists tr, w', ((if starts_at_zero (steps_of l n) then [0] else []) ++ map S hs').
  split; [exact E|]. split; [|split; [|split; [|split; [reflexivity|]]]].
  - rewrite Ti. apply Forall2_app.
    + destruct (starts_at_zero _); repeat constructor. cbn [num_val].
      symmetry. apply round64_zero. change (inject_Z (Z.of_nat 0)) with 0%Q. ring.
    + clear. induction hs' as [|i r IH]; cbn [map]; constructor; [|exact IH].
      unfold time_at, time_val. cbn [num_val].
      rewrite Nat2Z.inj_succ, <- Z.add_1_r. reflexivity.
  - apply Forall2_map_r.
    rewrite map_app, map_map.
    assert (map after (if starts_at_zero (steps_of l n) then [0] else [])
            = if starts_at_zero (steps_of l n) then [squeezed sv] else []) as ->
      by now destruct (starts_at_zero _).
    exact St.
  - apply Forall_app. split.
    + destruct (starts_at_zero _); repeat constructor. lia.
    + rewrite Forall_forall. intros k Hk. apply list_elem_of_In, in_map_iff in Hk.
      destruct Hk as (i & <- & Hi). unfold hs', hits in Hi.
      apply filter_In in Hi. destruct Hi as [Hi _]. apply in_seq in Hi. lia.
  - intros k. reflexivity.
Qed.

Lemma bind_ext_run {X Y : Type} (m : M X) (f g : X -> M Y) w :
  (forall x w', f x w' = g x w') -> (m ≫= f) w = (m ≫= g) w.
Proof.
  intros H. unfold mbind, M_bind. destruct (m w) as [[x|e] w']; [apply H | reflexivity].
Qed.

(** The list form of a description given as one site operator and one
    bond operator. *)
Definition explicit_lists (a b : ndarray) (N : nat) : list (pyobj Sub) :=
  [PyList (replicate N (Ndarray a)); PyList (replicate (N - 1) (Ndarray b))].

Lemma get_h_list_forms (a b : ndarray) (N : nat) :
  1 <= N ->
  _get_h_list [Ndarray a; Ndarray b] (Z.of_nat N)
    = _get_h_list (explicit_lists a b N) (Z.of_nat N).
Proof.
  intros H. unfold _get_h_list, explicit_lists. cbn.
  rewrite !length_replicate, Z.eqb_refl. cbn.
  replace (Z.of_nat N - 1)%Z with (Z.of_nat (N - 1)) by lia.
  now rewrite Z.eqb_refl, !Nat2Z.id.
Qed.

Lemma trotter_slice_forms (a b : ndarray) (N : nat) (tau : Q) (order : Z) w :
  1 <= N ->
  _trotter_slice [Ndarray a; Ndarray b] tau (Z.of_nat N) order w
    = _trotter_slice (explicit_lists a b N) tau (Z.of_nat N) order w.
Proof.
  intros H. unfold _trotter_slice, _trotter_two, _trotter_four.
  now rewrite (get_h_list_forms a b N H).
Qed.

(** X25: The short form of the Hamiltonians is exactly an abbreviation.  A
    call of [evolve] with one site operator and one bond operator gives the
    same outcome, a trace or an exception, and the same final store as the
    call with the two explicit lists that repeat them once per site and once
    per bond of the state. *)
Theorem evolve_input_forms_agree w (state ts : loc) (a b : ndarray) (n : Z)
    (method : string) (compr : Compr) (order : Z) (sv : MPArray) :
  holds w state sv ->
  evolve state [Ndarray a; Ndarray b] ts n method compr order w
    = evolve state (explicit_lists a b (mpa_len (squeezed sv))) ts n method compr order w.
Proof.
  intros Hs. unfold evolve.
  rewrite !(run_bind_ok _ _ _ _ _ (_compress_run w state method sv Hs)).
  pose proof (holds_after_compress w state method sv Hs) as Hs1.
  set (w0 := after_compress w state method sv) in *.
  rewrite !(run_bind_ok _ _ _ _ _ (mp_len_run _ state _ Hs1)).
  destruct (mpa_len (squeezed sv) <? 3) eqn:E3; [reflexivity|].
  apply Nat.ltb_ge in E3.
  destruct (pylists w0 !! ts) as [l|] eqn:El.
  2:{ rewrite !(run_bind_raise _ _ w0 Unmodelled w0); [reflexivity| |];
        unfold get_list; now rewrite El. }
  rewrite !(run_bind_ok _ _ w0 l w0) by (unfold get_list; now rewrite El).
  destruct (forallb _ l); [reflexivity|].
  pose proof (times_to_steps_mpas w0 ts n) as Hm.
  destruct (_times_to_steps ts n w0) as [[tau|e] w2] eqn:Et; cbn [snd] in Hm.
  2:{ now rewrite !(run_bind_raise _ _ _ _ _ Et). }
  rewrite !(run_bind_ok _ _ _ _ _ Et).
  assert (Hs2 : holds w2 state (squeezed sv)) by (unfold holds; now rewrite Hm).
  rewrite !(run_bind_ok _ _ _ _ _ (mp_len_run _ state _ Hs2)).
  unfold mbind at 1 4. unfold M_bind.
  rewrite (trotter_slice_forms a b _ tau order w2) by lia. reflexivity.
Qed.

End Snapshots.

(** * The reference coefficients of the tests

    [src/tests/test_recursion_coefficients_of_classical_polynomials.py]
    compares computed recurrence coefficients with the known ones of the
    Chebyshev, Legendre and Hermite polynomials; the three generators of the
    known coefficients are embedded here. *)

(** [range(a, b)] *)
Definition py_range (a b : Z) : list Z :=
  map (fun k => (a + Z.of_nat k)%Z) (seq 0 (Z.to_nat (b - a))).

(** [np.arange(start, stop, step)] for a positive [step]:
    [ceil((stop - start) / step)] values [start + k * step]. *)
Definition np_arange (start stop step : Q) : list Q :=
  map (fun k => (start + inject_Z (Z.of_nat k) * step)%Q)
      (seq 0 (Z.to_nat (Qceiling ((stop - start) / step)))).

(** [generate_hermite_betas(n)] *)
Definition generate_hermite_betas (n : Z) : list pynum :=
  [PFloat (round64 (177245385 # 100000000))]
    ++ map PFloat (np_arange (1 # 2) (inject_Z n * (1 # 2)) (1 # 2)).

(** [generate_legendre_betas(n)] *)
Definition generate_legendre_betas (n : Z) : result (list pynum) :=
  rest ← mapR (fun i : Z =>
                 q ← py_truediv (PInt (i ^ 2)) (PInt (4 * i ^ 2 - 1));
                 Ok (PFloat q))
              (py_range 1 n);
  Ok ([PInt 2] ++ rest).

(** [generate_chebyshev_betas(n)] *)
Definition generate_chebyshev_betas (n : Z) : list pynum :=
  [PFloat (round64 (314158433 # 100000000))] ++ [PFloat (1 # 2)]
    ++ replicate (Z.to_nat (n - 2)) (PFloat (1 # 4)).

Lemma py_range_length (a b : Z) : length (py_range a b) = Z.to_nat (b - a).
Proof. unfold py_range. now rewrite length_map, length_seq. Qed.

Lemma py_range_lookup (a b : Z) (k : nat) :
  (Z.of_nat k < b - a)%Z -> py_range a b !! k = Some (a + Z.of_nat k)%Z.
Proof.
  intros H. unfold py_range. rewrite lookup_map, lookup_seq_lt by lia. reflexivity.
Qed.

Lemma py_range_In (a b i : Z) : In i (py_range a b) <-> (a <= i < b)%Z.
Proof.
  unfold py_range. rewrite in_map_iff. split.
  - intros (k & <- & Hk). apply in_seq in Hk. lia.
  - intros H. exists (Z.to_nat (i - a)). split; [lia|]. apply in_seq. lia.
Qed.

(** The Legendre coefficient [i^2 / (4 i^2 - 1)]. *)
Definition legendre_beta (i : Z) : Q := (inject_Z (i ^ 2) / inject_Z (4 * i ^ 2 - 1))%Q.

Lemma frac_lt (a p c q : Z) :
  (0 < p)%Z -> (0 < q)%Z -> (a * q < c * p)%Z ->
  (inject_Z a / inject_Z p < inject_Z c / inject_Z q)%Q.
Proof.
  intros Hp Hq H.
  assert (Pp : (0 < inject_Z p)%Q) by (change 0%Q with (inject_Z 0); now rewrite <- Zlt_Qlt).
  assert (Pq : (0 < inject_Z q)%Q) by (change 0%Q with (inject_Z 0); now rewrite <- Zlt_Qlt).
  apply Qlt_shift_div_r; [exact Pp|].
  assert (E : (inject_Z c / inject_Z q * inject_Z p == inject_Z (c * p) / inject_Z q)%Q).
  { rewrite inject_Z_mult. field. lra. }
  rewrite E. apply Qlt_shift_div_l; [exact Pq|].
  rewrite <- inject_Z_mult, <- Zlt_Qlt. exact H.
Qed.

Lemma frac_le (a p c q : Z) :
  (0 < p)%Z -> (0 < q)%Z -> (a * q <= c * p)%Z ->
  (inject_Z a / inject_Z p <= inject_Z c / inject_Z q)%Q.
Proof.
  intros Hp Hq H.
  assert (Pp : (0 < inject_Z p)%Q) by (change 0%Q with (inject_Z 0); now rewrite <- Zlt_Qlt).
  assert (Pq : (0 < inject_Z q)%Q) by (change 0%Q with (inject_Z 0); now rewrite <- Zlt_Qlt).
  apply Qle_shift_div_r; [exact Pp|].
  assert (E : (inject_Z c / inject_Z q * inject_Z p == inject_Z (c * p) / inject_Z q)%Q).
  { rewrite inject_Z_mult. field. lra. }
  rewrite E. apply Qle_shift_div_l; [exact Pq|].
  rewrite <- inject_Z_mult, <- Zle_Qle. exact H.
Qed.

Lemma legendre_beta_bounds (i : Z) :
  (1 <= i)%Z -> (1 # 4 < legendre_beta i)%Q /\ (legendre_beta i <= 1 # 3)%Q.
Proof.
  intros H. unfold legendre_beta. split.
  - change (1 # 4)%Q with (inject_Z 1 / inject_Z 4)%Q. apply frac_lt; nia.
  - change (1 # 3)%Q with (inject_Z 1 / inject_Z 3)%Q. apply frac_le; nia.
Qed.

(** The double nearest to the Legendre coefficient, which the generator
    appends. *)
Lemma legendre_truediv (i : Z) :
  (1 <= i)%Z ->
  py_truediv (PInt (i ^ 2)) (PInt (4 * i ^ 2 - 1)) = Ok (round64 (legendre_beta i)).
Proof.
  intros H. unfold py_truediv.
  assert ((4 * i ^ 2 - 1 =? 0)%Z = false) as -> by (apply Z.eqb_neq; nia).
  destruct (legendre_beta_bounds i H) as [L U]. fold (legendre_beta i).
  apply (fl_or_ok _ _ (pow2 0)).
  - rewrite Qabs_pos by lra. change (pow2 0) with 1%Q. lra.
  - apply round64_pow2. unfold emin. lia.
  - apply pow2_lt. lia.
Qed.

Lemma generate_legendre_betas_eq (n : Z) :
  generate_legendre_betas n =
    Ok (PInt 2 :: map (fun i => PFloat (round64 (legendre_beta i))) (py_range 1 n)).
Proof.
  unfold generate_legendre_betas.
  rewrite (mapR_ext_ok _ (fun i => PFloat (round64 (legendre_beta i)))); [reflexivity|].
  intros i Hi. apply py_range_In in Hi. now rewrite legendre_truediv by lia.
Qed.

(** X26: How many coefficients the generators return.  Asked for [n]
    coefficients, the Hermite and Legendre generators return [n] of them for
    [n >= 1] and one for smaller [n]; the Chebyshev generator returns [n]
    for [n >= 2] and two for smaller [n].  The division in the Legendre
    generator never fails. *)
Theorem reference_betas_lengths (n : Z) :
  length (generate_hermite_betas n) = Z.to_nat (Z.max n 1) /\
  (exists betas, generate_legendre_betas n = Ok betas /\
                 length betas = Z.to_nat (Z.max n 1)) /\
  length (generate_chebyshev_betas n) = Z.to_nat (Z.max n 2).
Proof.
  split; [|split].
  - unfold generate_hermite_betas, np_arange.
    rewrite length_app, !length_map, length_seq. cbn [length].
    assert (E : ((inject_Z n * (1 # 2) - (1 # 2)) / (1 # 2) == inject_Z (n - 1))%Q).
    { unfold Z.sub. rewrite inject_Z_plus, inject_Z_opp. field. }
    rewrite (Qceiling_comp _ _ E), Qceiling_Z. lia.
  - eexists. split; [apply generate_legendre_betas_eq|].
    cbn [length]. rewrite length_map, py_range_length. lia.
  - unfold generate_chebyshev_betas. rewrite !length_app, length_replicate. cbn [length]. lia.
Qed.

(** X27: The Legendre coefficients: the first is the int 2, the one at index
    [i >= 1] is the double nearest to [i^2 / (4 i^2 - 1)]; these lie between
    1/4 and the double nearest to 1/3 and never increase with the index.
    The exact quotients lie above 1/4 and decrease strictly; the doubles do
    not: two neighbours can be the same double, and from some index on the
    coefficient is 1/4 itself. *)
Theorem legendre_betas_values (n : Z) :
  exists betas,
    generate_legendre_betas n = Ok betas /\
    betas !! 0 = Some (PInt 2) /\
    (forall i : nat, 1 <= i -> (Z.of_nat i < n)%Z ->
       betas !! i = Some (PFloat (round64 (legendre_beta (Z.of_nat i)))) /\
       (1 # 4 <= round64 (legendre_beta (Z.of_nat i)) <= round64 (1 # 3))%Q /\
       (1 # 4 < legendre_beta (Z.of_nat i) <= 1 # 3)%Q) /\
    (forall i j : nat, 1 <= i -> i < j -> (Z.of_nat j < n)%Z ->
       (round64 (legendre_beta (Z.of_nat j)) <= round64 (legendre_beta (Z.of_nat i)))%Q /\
       (legendre_beta (Z.of_nat j) < legendre_beta (Z.of_nat i))%Q) /\
    round64 (legendre_beta 131282) = round64 (legendre_beta 131281) /\
    (round64 (legendre_beta 47453133) == 1 # 4)%Q.
Proof.
  assert (D : forall i j : nat, 1 <= i -> i < j ->
                (legendre_beta (Z.of_nat j) < legendre_beta (Z.of_nat i))%Q).
  { intros i j Hi Hij. unfold legendre_beta. apply frac_lt; nia. }
  eexists. split; [apply generate_legendre_betas_eq|]. split; [reflexivity|].
  split; [|split; [|split; vm_compute; reflexivity]].
  - intros i Hi Hn. split.
    + destruct i as [|i]; [lia|]. cbn [lookup list_lookup].
      change ((map (fun i0 => PFloat (round64 (legendre_beta i0))) (py_range 1 n)) !! i
              = Some (PFloat (round64 (legendre_beta (Z.of_nat (S i)))))).
      rewrite lookup_map, py_range_lookup by lia. cbn. do 4 f_equal. lia.
    + destruct (legendre_beta_bounds (Z.of_nat i) ltac:(lia)) as [L U].
      split; [split|split; assumption].
      * apply round64_lower; [lra|]. apply (round64_pow2 (-2)). unfold emin. lia.
      * now apply round64_mono.
  - intros i j Hi Hij Hn. split; [|now apply D].
    apply round64_mono, Qlt_le_weak, D; assumption.
Qed.

(** ** The further properties on the small instance *)

Lemma sm_zero_then_one_valid : valid_times [PInt 0; PFloat 1].
Proof.
  split.
  - repeat (constructor; [split; vm_compute; discriminate|]). constructor.
  - apply Exists_cons_tl, Exists_cons_hd. vm_compute. discriminate.
Qed.

Lemma sm_negative_time_ranged : ranged_times [PFloat (-(1)); PInt 0; PFloat 2].
Proof.
  split.
  - repeat (constructor; [vm_compute; discriminate|]). constructor.
  - vm_compute. discriminate.
Qed.

Lemma negative_slices_in_range (n : Z) : (-1000 <= n < 0)%Z -> (- max_slices <= n < 0)%Z.
Proof. unfold max_slices. change (2 ^ 40)%Z with 1099511627776%Z. lia. Qed.

Lemma evolve_caller_data_witness :
  let w := sm_world sm_three [PFloat 2; PFloat 1] in
  holds w 0 sm_three /\ 3 <= mpa_len (squeezed sm_three) /\
  pylists w !! 0 = Some [PFloat 2; PFloat 1] /\ valid_times [PFloat 2; PFloat 1] /\
  exists (tr : Trace) (w' : World scalar_model),
    evolve 0 sm_free_pair 0 2 "mpo" tt 2 w = (Ok tr, w') /\
    pylists w' !! 0 = Some [PInt 1; PInt 2] /\ holds w' 0 sm_three.
Proof.
  cbv zeta. split; [reflexivity|]. split; [vm_compute; lia|]. split; [reflexivity|].
  split; [exact sm_times_valid|].
  destruct (evolve_caller_data (sm_world sm_three [PFloat 2; PFloat 1]) 0 0 sm_free_pair 2
              "mpo" tt 2 sm_three [PFloat 2; PFloat 1] _ _ eq_refl
              ltac:(vm_compute; lia) eq_refl sm_times_valid (slices_in_range 2 ltac:(lia)) sm_describes
              (or_introl eq_refl)) as (tr & w' & E & P & _ & _ & _ & H & _).
  exists tr, w'. split; [exact E|]. split; [|exact H].
  refine (eq_trans P _). vm_compute. reflexivity.
Defined.

Lemma evolve_recorded_objects_witness :
  let w := sm_world sm_three [PInt 0; PFloat 1] in
  holds w 0 sm_three /\ 3 <= mpa_len (squeezed sm_three) /\
  pylists w !! 0 = Some [PInt 0; PFloat 1] /\ valid_times [PInt 0; PFloat 1] /\
  exists (tr : Trace) (w' : World scalar_model) (fresh : list loc),
    evolve 0 sm_free_pair 0 2 "mpo" tt 2 w = (Ok tr, w') /\
    tr_states tr = 0 :: fresh /\ Forall (fun r => 1 <= r) fresh /\ NoDup (tr_states tr).
Proof.
  cbv zeta. split; [reflexivity|]. split; [vm_compute; lia|]. split; [reflexivity|].
  split; [exact sm_zero_then_one_valid|].
  destruct (evolve_recorded_objects (sm_world sm_three [PInt 0; PFloat 1]) 0 0 sm_free_pair 2
              "mpo" tt 2 sm_three [PInt 0; PFloat 1] _ _ eq_refl
              ltac:(vm_compute; lia) eq_refl sm_zero_then_one_valid (slices_in_range 2 ltac:(lia))
              sm_describes (or_introl eq_refl)) as (tr & w' & fresh & E & _ & _ & F & N & H).
  exists tr, w', fresh. split; [exact E|]. split; [|split; [exact F | exact N]].
  apply H. exists (PInt 0). split; [now left | reflexivity].
Defined.



Lemma evolve_method_unchecked_witness :
  let w := sm_world sm_three [PFloat 2; PFloat 1] in
  String.eqb "MPO" "mpo" = false /\
  holds w 0 sm_three /\ 3 <= mpa_len (squeezed sm_three) /\
  pylists w !! 0 = Some [PFloat 2; PFloat 1] /\ valid_times [PFloat 2; PFloat 1] /\
  exists (tr tr' : Trace) (w1 w2 : World scalar_model),
    evolve 0 sm_free_pair 0 2 "MPO" tt 2 w = (Ok tr, w1) /\
    evolve 0 sm_free_pair 0 2 "pmps" tt 2 w = (Ok tr', w2) /\
    tr_times tr = tr_times tr'.
Proof.
  cbv zeta. split; [reflexivity|]. split; [reflexivity|]. split; [vm_compute; lia|].
  split; [reflexivity|]. split; [exact sm_times_valid|].
  destruct (evolve_method_unchecked (sm_world sm_three [PFloat 2; PFloat 1]) 0 0 sm_free_pair 2
              "MPO" tt 2 sm_three [PFloat 2; PFloat 1] _ _ eq_refl eq_refl
              ltac:(vm_compute; lia) eq_refl sm_times_valid (slices_in_range 2 ltac:(lia)) sm_describes
              (or_introl eq_refl)) as (tr & tr' & w1 & w2 & vals & E & E' & T & _).
  exists tr, tr', w1, w2. split; [exact E|]. split; [exact E' | exact T].
Defined.

Lemma times_to_steps_failures_witness :
  let w := sm_world sm_three [PFloat 2; PFloat 1] in
  pylists w !! 0 = Some [PFloat 2; PFloat 1] /\
  _times_to_steps 0 0 w = (Raise ZeroDivisionError, after_sort w 0 [PFloat 2; PFloat 1]) /\
  pylists (after_sort w 0 [PFloat 2; PFloat 1]) !! 0 = Some [PFloat 1; PFloat 2].
Proof.
  cbv zeta. split; [reflexivity|].
  destruct (times_to_steps_failures (sm_world sm_three [PFloat 2; PFloat 1]) 0
              [PFloat 2; PFloat 1] 0 eq_refl) as [_ H].
  destruct (H ltac:(discriminate) (or_introl eq_refl)) as (E & P & _).
  split; [exact E | exact P].
Defined.

Lemma evolve_zero_division_witness :
  let w := sm_world sm_three [PFloat 2; PFloat 1] in
  holds w 0 sm_three /\ 3 <= mpa_len (squeezed sm_three) /\
  pylists w !! 0 = Some [PFloat 2; PFloat 1] /\
  fst (evolve 0 sm_free_pair 0 0 "mpo" tt 2 w) = Raise ZeroDivisionError.
Proof.
  cbv zeta. split; [reflexivity|]. split; [vm_compute; lia|]. split; [reflexivity|].
  destruct (evolve_zero_division (sm_world sm_three [PFloat 2; PFloat 1]) 0 0 sm_free_pair 0
              "mpo" tt 2 sm_three [PFloat 2; PFloat 1] eq_refl ltac:(vm_compute; lia)
              eq_refl eq_refl (or_introl eq_refl)) as (E & _).
  exact (f_equal fst E).
Defined.

Lemma evolve_negative_slices_witness :
  let w := sm_world sm_three [PInt 0; PFloat 1] in
  holds w 0 sm_three /\ 3 <= mpa_len (squeezed sm_three) /\
  pylists w !! 0 = Some [PInt 0; PFloat 1] /\ valid_times [PInt 0; PFloat 1] /\
  exists (tr : Trace) (w' : World scalar_model),
    evolve 0 sm_free_pair 0 (-2) "mpo" tt 2 w = (Ok tr, w') /\
    tr_times tr = [PInt 0] /\ tr_states tr = [0].
Proof.
  cbv zeta. split; [reflexivity|]. split; [vm_compute; lia|]. split; [reflexivity|].
  split; [exact sm_zero_then_one_valid|].
  destruct (evolve_negative_slices (sm_world sm_three [PInt 0; PFloat 1]) 0 0 sm_free_pair
              (-2) "mpo" tt 2 sm_three [PInt 0; PFloat 1] _ _ eq_refl
              ltac:(vm_compute; lia) eq_refl sm_zero_then_one_valid
              (negative_slices_in_range (-2) ltac:(lia)) sm_describes
              (or_introl eq_refl)) as (tr & w' & E & _ & _ & T & S & _).
  exists tr, w'. split; [exact E|]. split; [exact T | exact S].
Defined.

Lemma evolve_negative_times_witness :
  let l := [PFloat (-(1)); PInt 0; PFloat 2] in
  let w := sm_world sm_three l in
  holds w 0 sm_three /\ 3 <= mpa_len (squeezed sm_three) /\
  pylists w !! 0 = Some l /\ ranged_times l /\
  In (PFloat (-(1))) l /\
  (py_round (round64 (num_val (PFloat (-(1))) / round64 (t_max l / inject_Z 2))) < 0)%Z /\
  exists (tr : Trace) (w' : World scalar_model),
    evolve 0 sm_free_pair 0 2 "mpo" tt 2 w = (Ok tr, w') /\
    Forall (fun e => 0 < num_val e)%Q (tr_times tr).
Proof.
  cbv zeta. split; [reflexivity|]. split; [vm_compute; lia|]. split; [reflexivity|].
  split; [exact sm_negative_time_ranged|]. split; [now left|]. split; [reflexivity|].
  destruct (evolve_negative_times (sm_world sm_three [PFloat (-(1)); PInt 0; PFloat 2]) 0 0
              sm_free_pair 2 "mpo" tt 2 sm_three [PFloat (-(1)); PInt 0; PFloat 2] _ _
              (PFloat (-(1))) eq_refl ltac:(vm_compute; lia) eq_refl sm_negative_time_ranged
              (slices_in_range 2 ltac:(lia)) (or_introl eq_refl) eq_refl sm_describes
              (or_introl eq_refl))
    as (tr & w' & E & _ & F & _).
  exists tr, w'. split; [exact E | exact F].
Defined.

Lemma time_evolution_rejects_witness :
  let w := mkWorld (Sub := scalar_model) [sm_three; sm_three] [[PInt 0; PFloat 2]] in
  holds w 1 sm_three /\ pylists w !! 0 = Some [PInt 0; PFloat 2] /\
  fst (_time_evolution 0 1 0 (1 # 2) "mpo" tt w) = Raise TypeError.
Proof.
  cbv zeta. split; [reflexivity|]. split; [reflexivity|].
  destruct (time_evolution_rejects
              (mkWorld (Sub := scalar_model) [sm_three; sm_three] [[PInt 0; PFloat 2]])
              0 1 0 (1 # 2) "mpo" tt sm_three [PInt 0; PFloat 2] eq_refl eq_refl) as [_ H].
  exact (H 2%Q eq_refl).
Defined.

Lemma compress_is_compression_only_witness :
  let w := sm_world sm_unnormalized [] in
  holds w 0 sm_unnormalized /\
  exists w2 : World scalar_model,
    _compress 0 "mpo" w = (Ok tt, w2) /\ holds w2 0 sm_unnormalized.
Proof.
  cbv zeta. split; [reflexivity|].
  destruct (compress_is_compression_only (sm_world sm_unnormalized []) 0 "mpo"
              sm_unnormalized eq_refl) as (_ & w2 & E & _ & H & _).
  exists w2. split; [exact E | exact H].
Defined.

Lemma matrix_to_mpo_outcome_witness :
  matrix_to_mpo (Sub := scalar_model) (sm_zeros 4) [[2; 2]; [2]] (sm_world sm_three [])
    = (Raise bad_legs, sm_world sm_three []).
Proof.
  destruct (matrix_to_mpo_outcome (sm_world sm_three []) (sm_zeros 4) [[2; 2]; [2]])
    as (_ & H & _).
  exact (H [2; 2] [[2]] eq_refl eq_refl).
Defined.

Lemma new_shape_transposes_witness :
  [[2; 2]; [3; 3]] <> [] /\ Forall (fun row => length row = 2) [[2; 2]; [3; 3]] /\
  length (new_shape [[2; 2]; [3; 3]]) = 4 /\
  Permutation (new_shape [[2; 2]; [3; 3]]) [2; 2; 3; 3].
Proof.
  split; [discriminate|]. split; [repeat constructor|].
  destruct (new_shape_transposes (Sub := scalar_model) [[2; 2]; [3; 3]] 2
              ltac:(discriminate) ltac:(repeat constructor)) as (L & _ & P & _).
  split; [exact L | exact P].
Defined.

Lemma u_list_to_mpo_last_operator_witness :
  fst (_u_list_to_mpo (Sub := scalar_model) [2; 2; 2; 2] [sm_zeros 4] [sm_zeros 4]
         (sm_world sm_three []))
    = Raise UnboundLocalError.
Proof.
  destruct (u_list_to_mpo_last_operator (sm_world sm_three [])) as [H _].
  apply (H [2; 2; 2; 2] [sm_zeros 4] [sm_zeros 4]); [reflexivity | reflexivity | discriminate|].
  cbn. lia.
Defined.

Lemma get_h_list_lengths_witness :
  exists a b : pyobj scalar_model,
    _get_h_list sm_free_pair 3 = Ok (a, b) /\ py_len a = 3 /\ py_len b = 2.
Proof.
  destruct (get_h_list_lengths sm_free_pair 3) as [H _].
  eexists _, _. split; [reflexivity|].
  destruct (H _ _ eq_refl ltac:(lia)) as [La Lb]. split; lia.
Defined.

Lemma trotter_two_composition_witness :
  describes sm_free_pair 3 (replicate 3 (sm_zeros 2)) (replicate 2 (sm_zeros 4)) /\
  exists odd even : sm_net,
    yields (_trotter_two sm_free_pair 1 3) (sm_world sm_three [])
           (fun r w' => holds w' r (mpa_dot (mpa_dot odd even) odd)).
Proof.
  split; [exact sm_describes|].
  destruct (trotter_two_composition (sm_world sm_three []) sm_free_pair 3 _ _ 1
              sm_describes ltac:(lia)) as (dims & uo & ue & odd & even & _ & _ & H & _).
  exists odd, even. exact H.
Defined.

Lemma propagator_construction_pure_witness :
  describes sm_free_pair 3 (replicate 3 (sm_zeros 2)) (replicate 2 (sm_zeros 4)) /\
  exists (u : loc) (w' : World scalar_model),
    _trotter_slice sm_free_pair 1 3 4 (sm_world sm_three []) = (Ok u, w') /\
    1 <= u /\ holds w' 0 sm_three.
Proof.
  split; [exact sm_describes|].
  destruct (propagator_construction_pure (sm_world sm_three []) sm_free_pair 3 _ _ 1 4
              sm_describes ltac:(lia) (or_intror eq_refl)) as (u & w' & E & L & F & _).
  exists u, w'. split; [exact E|]. split; [exact L|]. apply F. reflexivity.
Defined.

Lemma trotter_four_increments_witness :
  (0 < 1)%Q /\ (s3 1 < 0)%Q /\ (s1 1 + s1 1 + s3 1 + s1 1 + s1 1 == 1)%Q.
Proof.
  split; [reflexivity|].
  destruct (trotter_four_increments 1 ltac:(reflexivity)) as (E & _ & _ & N).
  split; [exact N | exact E].
Defined.

Lemma zero_hamiltonians_identity_propagator_witness :
  describes sm_free_pair 3 (zero_sites [2; 2; 2]) (zero_bonds [2; 2; 2]) /\
  yields (_trotter_slice sm_free_pair 1 3 4) (sm_world sm_three [])
         (fun r w' => exists v, holds w' r v /\ mpa_equiv v (id_net [2; 2; 2])).
Proof.
  split; [exact sm_describes|].
  destruct (zero_hamiltonians_identity_propagator (Laws := scalar_laws)
              (sm_world sm_three []) sm_free_pair 3
              [2; 2; 2] 1 4 sm_describes ltac:(lia) (or_intror eq_refl)) as [H _].
  exact H.
Defined.

Lemma times_to_steps_twice_witness :
  let w := sm_world sm_three times_example in
  pylists w !! 0 = Some times_example /\ valid_times times_example /\
  exists (tau1 tau2 : Q) (w1 : World scalar_model),
    _times_to_steps 0 5 w = (Ok tau1, w1) /\
    _times_to_steps 0 5 w1 = (Ok tau2, w1) /\
    (tau1 == 1 # 2)%Q /\ (tau2 == 1)%Q.
Proof.
  cbv zeta. split; [reflexivity|]. split; [exact times_example_valid|].
  destruct (times_to_steps_twice (sm_world sm_three times_example) 0 times_example 5
              eq_refl times_example_valid (slices_in_range 5 ltac:(lia)))
    as (tau1 & tau2 & w1 & E1 & E2 & T1 & T2 & _).
  exists tau1, tau2, w1. split; [exact E1|]. split; [exact E2|].
  split; [|exact T2].
  rewrite T1. vm_compute. reflexivity.
Defined.

Lemma evolve_trace_length_bounds_witness :
  let w := sm_world sm_three [PFloat 2; PFloat 1] in
  holds w 0 sm_three /\ 3 <= mpa_len (squeezed sm_three) /\
  pylists w !! 0 = Some [PFloat 2; PFloat 1] /\ valid_times [PFloat 2; PFloat 1] /\
  exists (tr : Trace) (w' : World scalar_model),
    evolve 0 sm_free_pair 0 2 "mpo" tt 2 w = (Ok tr, w') /\
    1 <= length (tr_times tr) /\ length (tr_times tr) <= 2.
Proof.
  cbv zeta. split; [reflexivity|]. split; [vm_compute; lia|]. split; [reflexivity|].
  split; [exact sm_times_valid|].
  destruct (evolve_trace_length_bounds (sm_world sm_three [PFloat 2; PFloat 1]) 0 0
              sm_free_pair 2 "mpo" tt 2 sm_three [PFloat 2; PFloat 1] _ _ eq_refl
              ltac:(vm_compute; lia) eq_refl sm_times_valid (slices_in_range 2 ltac:(lia)) sm_describes
              (or_introl eq_refl)) as (tr & w' & E & L1 & L2 & _).
  exists tr, w'. split; [exact E|]. split; [exact L1 | exact L2].
Defined.

Lemma get_u_list_covers_chain_witness :
  let ms := replicate 4 (sm_zeros 2) in
  let bs := replicate 3 (sm_zeros 4) in
  length ms = S (length bs) /\
  exists (dims : list nat) (u_odd u_even : list sm_array),
    _get_u_list (PyList (map Ndarray ms)) (PyList (map Ndarray bs)) 1
      = Ok (dims, u_odd, u_even) /\
    length u_odd = S (length u_even) /\ 2 * length u_odd = 4.
Proof.
  cbv zeta. split; [reflexivity|].
  destruct (get_u_list_covers_chain (Sub := scalar_model) (replicate 4 (sm_zeros 2))
              (replicate 3 (sm_zeros 4)) 1) as [H _].
  destruct (H eq_refl) as (dims & uo & ue & E & _ & L1 & L2).
  exists dims, uo, ue. split; [exact E|]. split; [exact L1 | exact L2].
Defined.

Lemma evolve_states_by_step_witness :
  let w := sm_world sm_three [PFloat 2; PFloat 1] in
  holds w 0 sm_three /\ 3 <= mpa_len (squeezed sm_three) /\
  pylists w !! 0 = Some [PFloat 2; PFloat 1] /\ valid_times [PFloat 2; PFloat 1] /\
  exists (tr : Trace) (w' : World scalar_model) (ks : list nat),
    evolve 0 sm_free_pair 0 2 "mpo" tt 2 w = (Ok tr, w') /\
    Forall2 (fun t k => num_val t == round64 (round64 (t_max [PFloat 2; PFloat 1] / inject_Z 2)
                                               * inject_Z (Z.of_nat k)))%Q
            (tr_times tr) ks /\
    length (tr_states tr) = length ks.
Proof.
  cbv zeta. split; [reflexivity|]. split; [vm_compute; lia|]. split; [reflexivity|].
  split; [exact sm_times_valid|].
  destruct (evolve_states_by_step (sm_world sm_three [PFloat 2; PFloat 1]) 0 0 sm_free_pair 2
              "mpo" tt 2 sm_three [PFloat 2; PFloat 1] _ _ eq_refl
              ltac:(vm_compute; lia) eq_refl sm_times_valid (slices_in_range 2 ltac:(lia)) sm_describes
              (or_introl eq_refl)) as (tr & w' & ks & E & T & S & _).
  exists tr, w', ks. split; [exact E|]. split; [exact T|].
  exact (Forall2_length_eq _ _ _ S).
Defined.

Lemma evolve_input_forms_agree_witness :
  let w := sm_world sm_three [PFloat 2; PFloat 1] in
  holds w 0 sm_three /\
  evolve 0 sm_free_pair 0 2 "mpo" tt 2 w
    = evolve 0 [PyList (replicate 3 (Ndarray (sm_zeros 2)));
                PyList (replicate 2 (Ndarray (sm_zeros 4)))] 0 2 "mpo" tt 2 w.
Proof.
  cbv zeta. split; [reflexivity|].
  exact (evolve_input_forms_agree (sm_world sm_three [PFloat 2; PFloat 1]) 0 0
           (sm_zeros 2) (sm_zeros 4) 2 "mpo" tt 2 sm_three eq_refl).
Defined.
